(** * Verification of [bin/update_project_manifest.py]

    A shallow embedding of the manifest generator: metadata loader, manual
    and schema validators, tree scanner, conflict resolver, manifest writer
    and [main], followed by the theorems that settle the specification's
    claims about them.

    Conventions of the embedding.
    - A Python [str] is a Rocq [string] holding its (generalised) UTF-8
      encoding.  Byte-wise lexicographic order on such encodings coincides
      with Python's code-point order on [str]; [len] counts code points,
      i.e. the bytes that are not continuation bytes.
    - A parsed JSON document is a [json] value; a Python [dict] is an
      association list in insertion order (Python keeps keys unique; the
      definitions below read the first binding, and the theorems hold for
      every association list).
    - Code that can raise returns an [outcome]. *)

From Stdlib Require Import String Ascii List ZArith Bool Arith Lia.
From Stdlib Require Import Permutation Sorted.
Import ListNotations.
Local Open Scope string_scope.
Local Open Scope list_scope.

Notation "a +++ b" := (String.append a b) (at level 60, right associativity).

(* ================================================================= *)
(** ** Outcomes of fallible code *)

(** The exception classes the program can leak. *)
Inductive exn : Type :=
| TypeError
| AttributeError
| KeyError (key : string)
| IndexError.

(** [Done a]: normal completion.  [SystemExit msg]: [raise SystemExit(msg)].
    [Uncaught e]: an exception no handler of the program catches.
    [Unmodelled]: the run left the typed data model (only reachable when an
    external schema engine accepts a document whose [id] is not a string);
    no theorem counts it as a completed run. *)
Inductive outcome (A : Type) : Type :=
| Done (a : A)
| SystemExit (msg : string)
| Uncaught (e : exn)
| Unmodelled.
Arguments Done {A} a.
Arguments SystemExit {A} msg.
Arguments Uncaught {A} e.
Arguments Unmodelled {A}.

Definition bind {A B : Type} (m : outcome A) (k : A -> outcome B) : outcome B :=
  match m with
  | Done a => k a
  | SystemExit msg => SystemExit msg
  | Uncaught e => Uncaught e
  | Unmodelled => Unmodelled
  end.

Notation "x <- m ;; k" := (bind m (fun x => k))
  (at level 61, m at next level, right associativity).

(* ================================================================= *)
(** ** JSON values and the Python operations applied to them *)

(** The value [json.loads] returns.  [JFloat] keeps the literal: the program
    never computes with numbers. *)
#[warnings="-register-all"]
Inductive json : Type :=
| JNull
| JBool (b : bool)
| JInt (n : Z)
| JFloat (literal : string)
| JStr (s : string)
| JArr (items : list json)
| JObj (fields : list (string * json)).

(** [isinstance(v, str)], [isinstance(v, list)], [isinstance(v, dict)]. *)
Definition is_str (v : json) : bool :=
  match v with JStr _ => true | _ => false end.
Definition is_list (v : json) : bool :=
  match v with JArr _ => true | _ => false end.
Definition is_dict (v : json) : bool :=
  match v with JObj _ => true | _ => false end.

(** First binding of [key] in a dict. *)
Fixpoint lookup {V : Type} (key : string) (d : list (string * V)) : option V :=
  match d with
  | [] => None
  | (k, v) :: d' => if String.eqb key k then Some v else lookup key d'
  end.

Definition has_key {V : Type} (key : string) (d : list (string * V)) : bool :=
  match lookup key d with Some _ => true | None => false end.

Definition keys {V : Type} (d : list (string * V)) : list string := map fst d.

(** [needle in haystack] on two [str]: substring test. *)
Fixpoint str_contains (needle haystack : string) : bool :=
  String.prefix needle haystack ||
  match haystack with
  | EmptyString => false
  | String _ rest => str_contains needle rest
  end.

(** [key in data] for a string [key].  A dict tests its keys, a list its
    elements (only a [str] element equals a [str]), a [str] its substrings;
    [None], [bool], [int] and [float] are not iterable. *)
Definition py_in (key : string) (data : json) : outcome bool :=
  match data with
  | JObj fields => Done (has_key key fields)
  | JArr items =>
      Done (existsb (fun x => match x with
                              | JStr s => String.eqb key s
                              | _ => false
                              end) items)
  | JStr s => Done (str_contains key s)
  | JNull | JBool _ | JInt _ | JFloat _ => Uncaught TypeError
  end.

(** [data.get(key)]: only dicts have [get]; an absent key gives [None]. *)
Definition py_get (data : json) (key : string) : outcome json :=
  match data with
  | JObj fields =>
      Done (match lookup key fields with Some v => v | None => JNull end)
  | _ => Uncaught AttributeError
  end.

(** [data[key]] for a string [key]. *)
Definition py_getitem (data : json) (key : string) : outcome json :=
  match data with
  | JObj fields =>
      match lookup key fields with
      | Some v => Done v
      | None => Uncaught (KeyError key)
      end
  | _ => Uncaught TypeError
  end.

(** [len(s)] of a [str]: the number of code points. *)
Definition is_continuation_byte (c : ascii) : bool :=
  let n := nat_of_ascii c in (128 <=? n)%nat && (n <? 192)%nat.

Fixpoint py_len (s : string) : nat :=
  match s with
  | EmptyString => 0
  | String c rest =>
      if is_continuation_byte c then py_len rest else S (py_len rest)
  end.

(** Truthiness of an [Optional[str]] in [if err:]. *)
Definition truthy (err : option string) : bool :=
  match err with
  | None => false
  | Some s => negb (String.eqb s "")
  end.

(* ================================================================= *)
(** ** Python's [sorted] *)

(** [sorted(l, key=key)] is a stable sort that only asks [<] of the keys.
    Stable insertion gives the same list as any other stable sort. *)
Section Sorting.
Context {A K : Type} (lt : K -> K -> bool) (key : A -> K).

Fixpoint insert_sorted (x : A) (l : list A) : list A :=
  match l with
  | [] => [x]
  | y :: l' =>
      if lt (key y) (key x) then y :: insert_sorted x l'
      else x :: y :: l'
  end.

Fixpoint sorted (l : list A) : list A :=
  match l with
  | [] => []
  | x :: l' => insert_sorted x (sorted l')
  end.
End Sorting.

(** [<] on [str] and on pairs of [str] (tuples compare lexicographically). *)
Definition str_lt (a b : string) : bool := String.ltb a b.

Definition pair_lt (a b : string * string) : bool :=
  if String.eqb (fst a) (fst b) then str_lt (snd a) (snd b)
  else str_lt (fst a) (fst b).

(* ================================================================= *)
(** ** [repr] of a list of [str], as an f-string prints it *)

(** A [str] is held as the bytes of its UTF-8 encoding (a lone surrogate,
    which [json.loads] can produce, as the three bytes of its code point).
    [characters] splits these bytes into the characters of the [str]: each
    with its code point and the bytes that encode it.  A lead byte
    [110xxxxx], [1110xxxx] or [11110xxx] opens a sequence of two, three or
    four bytes; the bytes after it contribute their low six bits.  Byte
    strings that encode no [str] do not arise; a byte outside a sequence is
    read as the character of that number. *)
Definition low_six (c : ascii) : N := (N_of_ascii c mod 64)%N.

Definition bytes (l : list ascii) : string := string_of_list_ascii l.

Fixpoint characters (s : string) : list (N * string) :=
  match s with
  | EmptyString => []
  | String c0 r0 =>
      let n0 := N_of_ascii c0 in
      if (n0 <? 0xc0)%N then (n0, bytes [c0]) :: characters r0
      else
        match r0 with
        | EmptyString => [(n0, bytes [c0])]
        | String c1 r1 =>
            if (n0 <? 0xe0)%N then
              ((n0 - 0xc0) * 64 + low_six c1, bytes [c0; c1])%N
              :: characters r1
            else
              match r1 with
              | EmptyString => [(n0, bytes [c0; c1])]
              | String c2 r2 =>
                  if (n0 <? 0xf0)%N then
                    (((n0 - 0xe0) * 64 + low_six c1) * 64 + low_six c2,
                     bytes [c0; c1; c2])%N
                    :: characters r2
                  else
                    match r2 with
                    | EmptyString => [(n0, bytes [c0; c1; c2])]
                    | String c3 r3 =>
                        ((((n0 - 0xf0) * 64 + low_six c1) * 64 + low_six c2)
                           * 64 + low_six c3,
                         bytes [c0; c1; c2; c3])%N
                        :: characters r3
                    end
              end
        end
  end.

(** The code points above 127 for which [str.isprintable] is false, as
    inclusive ranges: the general categories Cc, Cf, Cs, Co, Cn, Zl, Zp and
    Zs of the Unicode database the interpreter carries (version 14.0, that
    of CPython 3.11). *)
Definition unprintable : list (N * N) :=
  [(0x80, 0xa0); (0xad, 0xad); (0x378, 0x379); (0x380, 0x383);
   (0x38b, 0x38b); (0x38d, 0x38d); (0x3a2, 0x3a2); (0x530, 0x530);
   (0x557, 0x558); (0x58b, 0x58c); (0x590, 0x590); (0x5c8, 0x5cf);
   (0x5eb, 0x5ee); (0x5f5, 0x605); (0x61c, 0x61c); (0x6dd, 0x6dd);
   (0x70e, 0x70f); (0x74b, 0x74c); (0x7b2, 0x7bf); (0x7fb, 0x7fc);
   (0x82e, 0x82f); (0x83f, 0x83f); (0x85c, 0x85d); (0x85f, 0x85f);
   (0x86b, 0x86f); (0x88f, 0x897); (0x8e2, 0x8e2); (0x984, 0x984);
   (0x98d, 0x98e); (0x991, 0x992); (0x9a9, 0x9a9); (0x9b1, 0x9b1);
   (0x9b3, 0x9b5); (0x9ba, 0x9bb); (0x9c5, 0x9c6); (0x9c9, 0x9ca);
   (0x9cf, 0x9d6); (0x9d8, 0x9db); (0x9de, 0x9de); (0x9e4, 0x9e5);
   (0x9ff, 0xa00); (0xa04, 0xa04); (0xa0b, 0xa0e); (0xa11, 0xa12);
   (0xa29, 0xa29); (0xa31, 0xa31); (0xa34, 0xa34); (0xa37, 0xa37);
   (0xa3a, 0xa3b); (0xa3d, 0xa3d); (0xa43, 0xa46); (0xa49, 0xa4a);
   (0xa4e, 0xa50); (0xa52, 0xa58); (0xa5d, 0xa5d); (0xa5f, 0xa65);
   (0xa77, 0xa80); (0xa84, 0xa84); (0xa8e, 0xa8e); (0xa92, 0xa92);
   (0xaa9, 0xaa9); (0xab1, 0xab1); (0xab4, 0xab4); (0xaba, 0xabb);
   (0xac6, 0xac6); (0xaca, 0xaca); (0xace, 0xacf); (0xad1, 0xadf);
   (0xae4, 0xae5); (0xaf2, 0xaf8); (0xb00, 0xb00); (0xb04, 0xb04);
   (0xb0d, 0xb0e); (0xb11, 0xb12); (0xb29, 0xb29); (0xb31, 0xb31);
   (0xb34, 0xb34); (0xb3a, 0xb3b); (0xb45, 0xb46); (0xb49, 0xb4a);
   (0xb4e, 0xb54); (0xb58, 0xb5b); (0xb5e, 0xb5e); (0xb64, 0xb65);
   (0xb78, 0xb81); (0xb84, 0xb84); (0xb8b, 0xb8d); (0xb91, 0xb91);
   (0xb96, 0xb98); (0xb9b, 0xb9b); (0xb9d, 0xb9d); (0xba0, 0xba2);
   (0xba5, 0xba7); (0xbab, 0xbad); (0xbba, 0xbbd); (0xbc3, 0xbc5);
   (0xbc9, 0xbc9); (0xbce, 0xbcf); (0xbd1, 0xbd6); (0xbd8, 0xbe5);
   (0xbfb, 0xbff); (0xc0d, 0xc0d); (0xc11, 0xc11); (0xc29, 0xc29);
   (0xc3a, 0xc3b); (0xc45, 0xc45); (0xc49, 0xc49); (0xc4e, 0xc54);
   (0xc57, 0xc57); (0xc5b, 0xc5c); (0xc5e, 0xc5f); (0xc64, 0xc65);
   (0xc70, 0xc76); (0xc8d, 0xc8d); (0xc91, 0xc91); (0xca9, 0xca9);
   (0xcb4, 0xcb4); (0xcba, 0xcbb); (0xcc5, 0xcc5); (0xcc9, 0xcc9);
   (0xcce, 0xcd4); (0xcd7, 0xcdc); (0xcdf, 0xcdf); (0xce4, 0xce5);
   (0xcf0, 0xcf0); (0xcf3, 0xcff); (0xd0d, 0xd0d); (0xd11, 0xd11);
   (0xd45, 0xd45); (0xd49, 0xd49); (0xd50, 0xd53); (0xd64, 0xd65);
   (0xd80, 0xd80); (0xd84, 0xd84); (0xd97, 0xd99); (0xdb2, 0xdb2);
   (0xdbc, 0xdbc); (0xdbe, 0xdbf); (0xdc7, 0xdc9); (0xdcb, 0xdce);
   (0xdd5, 0xdd5); (0xdd7, 0xdd7); (0xde0, 0xde5); (0xdf0, 0xdf1);
   (0xdf5, 0xe00); (0xe3b, 0xe3e); (0xe5c, 0xe80); (0xe83, 0xe83);
   (0xe85, 0xe85); (0xe8b, 0xe8b); (0xea4, 0xea4); (0xea6, 0xea6);
   (0xebe, 0xebf); (0xec5, 0xec5); (0xec7, 0xec7); (0xece, 0xecf);
   (0xeda, 0xedb); (0xee0, 0xeff); (0xf48, 0xf48); (0xf6d, 0xf70);
   (0xf98, 0xf98); (0xfbd, 0xfbd); (0xfcd, 0xfcd); (0xfdb, 0xfff);
   (0x10c6, 0x10c6); (0x10c8, 0x10cc); (0x10ce, 0x10cf); (0x1249, 0x1249);
   (0x124e, 0x124f); (0x1257, 0x1257); (0x1259, 0x1259); (0x125e, 0x125f);
   (0x1289, 0x1289); (0x128e, 0x128f); (0x12b1, 0x12b1); (0x12b6, 0x12b7);
   (0x12bf, 0x12bf); (0x12c1, 0x12c1); (0x12c6, 0x12c7); (0x12d7, 0x12d7);
   (0x1311, 0x1311); (0x1316, 0x1317); (0x135b, 0x135c); (0x137d, 0x137f);
   (0x139a, 0x139f); (0x13f6, 0x13f7); (0x13fe, 0x13ff); (0x1680, 0x1680);
   (0x169d, 0x169f); (0x16f9, 0x16ff); (0x1716, 0x171e); (0x1737, 0x173f);
   (0x1754, 0x175f); (0x176d, 0x176d); (0x1771, 0x1771); (0x1774, 0x177f);
   (0x17de, 0x17df); (0x17ea, 0x17ef); (0x17fa, 0x17ff); (0x180e, 0x180e);
   (0x181a, 0x181f); (0x1879, 0x187f); (0x18ab, 0x18af); (0x18f6, 0x18ff);
   (0x191f, 0x191f); (0x192c, 0x192f); (0x193c, 0x193f); (0x1941, 0x1943);
   (0x196e, 0x196f); (0x1975, 0x197f); (0x19ac, 0x19af); (0x19ca, 0x19cf);
   (0x19db, 0x19dd); (0x1a1c, 0x1a1d); (0x1a5f, 0x1a5f); (0x1a7d, 0x1a7e);
   (0x1a8a, 0x1a8f); (0x1a9a, 0x1a9f); (0x1aae, 0x1aaf); (0x1acf, 0x1aff);
   (0x1b4d, 0x1b4f); (0x1b7f, 0x1b7f); (0x1bf4, 0x1bfb); (0x1c38, 0x1c3a);
   (0x1c4a, 0x1c4c); (0x1c89, 0x1c8f); (0x1cbb, 0x1cbc); (0x1cc8, 0x1ccf);
   (0x1cfb, 0x1cff); (0x1f16, 0x1f17); (0x1f1e, 0x1f1f); (0x1f46, 0x1f47);
   (0x1f4e, 0x1f4f); (0x1f58, 0x1f58); (0x1f5a, 0x1f5a); (0x1f5c, 0x1f5c);
   (0x1f5e, 0x1f5e); (0x1f7e, 0x1f7f); (0x1fb5, 0x1fb5); (0x1fc5, 0x1fc5);
   (0x1fd4, 0x1fd5); (0x1fdc, 0x1fdc); (0x1ff0, 0x1ff1); (0x1ff5, 0x1ff5);
   (0x1fff, 0x200f); (0x2028, 0x202f); (0x205f, 0x206f); (0x2072, 0x2073);
   (0x208f, 0x208f); (0x209d, 0x209f); (0x20c1, 0x20cf); (0x20f1, 0x20ff);
   (0x218c, 0x218f); (0x2427, 0x243f); (0x244b, 0x245f); (0x2b74, 0x2b75);
   (0x2b96, 0x2b96); (0x2cf4, 0x2cf8); (0x2d26, 0x2d26); (0x2d28, 0x2d2c);
   (0x2d2e, 0x2d2f); (0x2d68, 0x2d6e); (0x2d71, 0x2d7e); (0x2d97, 0x2d9f);
   (0x2da7, 0x2da7); (0x2daf, 0x2daf); (0x2db7, 0x2db7); (0x2dbf, 0x2dbf);
   (0x2dc7, 0x2dc7); (0x2dcf, 0x2dcf); (0x2dd7, 0x2dd7); (0x2ddf, 0x2ddf);
   (0x2e5e, 0x2e7f); (0x2e9a, 0x2e9a); (0x2ef4, 0x2eff); (0x2fd6, 0x2fef);
   (0x2ffc, 0x3000); (0x3040, 0x3040); (0x3097, 0x3098); (0x3100, 0x3104);
   (0x3130, 0x3130); (0x318f, 0x318f); (0x31e4, 0x31ef); (0x321f, 0x321f);
   (0xa48d, 0xa48f); (0xa4c7, 0xa4cf); (0xa62c, 0xa63f); (0xa6f8, 0xa6ff);
   (0xa7cb, 0xa7cf); (0xa7d2, 0xa7d2); (0xa7d4, 0xa7d4); (0xa7da, 0xa7f1);
   (0xa82d, 0xa82f); (0xa83a, 0xa83f); (0xa878, 0xa87f); (0xa8c6, 0xa8cd);
   (0xa8da, 0xa8df); (0xa954, 0xa95e); (0xa97d, 0xa97f); (0xa9ce, 0xa9ce);
   (0xa9da, 0xa9dd); (0xa9ff, 0xa9ff); (0xaa37, 0xaa3f); (0xaa4e, 0xaa4f);
   (0xaa5a, 0xaa5b); (0xaac3, 0xaada); (0xaaf7, 0xab00); (0xab07, 0xab08);
   (0xab0f, 0xab10); (0xab17, 0xab1f); (0xab27, 0xab27); (0xab2f, 0xab2f);
   (0xab6c, 0xab6f); (0xabee, 0xabef); (0xabfa, 0xabff); (0xd7a4, 0xd7af);
   (0xd7c7, 0xd7ca); (0xd7fc, 0xf8ff); (0xfa6e, 0xfa6f); (0xfada, 0xfaff);
   (0xfb07, 0xfb12); (0xfb18, 0xfb1c); (0xfb37, 0xfb37); (0xfb3d, 0xfb3d);
   (0xfb3f, 0xfb3f); (0xfb42, 0xfb42); (0xfb45, 0xfb45); (0xfbc3, 0xfbd2);
   (0xfd90, 0xfd91); (0xfdc8, 0xfdce); (0xfdd0, 0xfdef); (0xfe1a, 0xfe1f);
   (0xfe53, 0xfe53); (0xfe67, 0xfe67); (0xfe6c, 0xfe6f); (0xfe75, 0xfe75);
   (0xfefd, 0xff00); (0xffbf, 0xffc1); (0xffc8, 0xffc9); (0xffd0, 0xffd1);
   (0xffd8, 0xffd9); (0xffdd, 0xffdf); (0xffe7, 0xffe7); (0xffef, 0xfffb);
   (0xfffe, 0xffff); (0x1000c, 0x1000c); (0x10027, 0x10027);
   (0x1003b, 0x1003b); (0x1003e, 0x1003e); (0x1004e, 0x1004f);
   (0x1005e, 0x1007f); (0x100fb, 0x100ff); (0x10103, 0x10106);
   (0x10134, 0x10136); (0x1018f, 0x1018f); (0x1019d, 0x1019f);
   (0x101a1, 0x101cf); (0x101fe, 0x1027f); (0x1029d, 0x1029f);
   (0x102d1, 0x102df); (0x102fc, 0x102ff); (0x10324, 0x1032c);
   (0x1034b, 0x1034f); (0x1037b, 0x1037f); (0x1039e, 0x1039e);
   (0x103c4, 0x103c7); (0x103d6, 0x103ff); (0x1049e, 0x1049f);
   (0x104aa, 0x104af); (0x104d4, 0x104d7); (0x104fc, 0x104ff);
   (0x10528, 0x1052f); (0x10564, 0x1056e); (0x1057b, 0x1057b);
   (0x1058b, 0x1058b); (0x10593, 0x10593); (0x10596, 0x10596);
   (0x105a2, 0x105a2); (0x105b2, 0x105b2); (0x105ba, 0x105ba);
   (0x105bd, 0x105ff); (0x10737, 0x1073f); (0x10756, 0x1075f);
   (0x10768, 0x1077f); (0x10786, 0x10786); (0x107b1, 0x107b1);
   (0x107bb, 0x107ff); (0x10806, 0x10807); (0x10809, 0x10809);
   (0x10836, 0x10836); (0x10839, 0x1083b); (0x1083d, 0x1083e);
   (0x10856, 0x10856); (0x1089f, 0x108a6); (0x108b0, 0x108df);
   (0x108f3, 0x108f3); (0x108f6, 0x108fa); (0x1091c, 0x1091e);
   (0x1093a, 0x1093e); (0x10940, 0x1097f); (0x109b8, 0x109bb);
   (0x109d0, 0x109d1); (0x10a04, 0x10a04); (0x10a07, 0x10a0b);
   (0x10a14, 0x10a14); (0x10a18, 0x10a18); (0x10a36, 0x10a37);
   (0x10a3b, 0x10a3e); (0x10a49, 0x10a4f); (0x10a59, 0x10a5f);
   (0x10aa0, 0x10abf); (0x10ae7, 0x10aea); (0x10af7, 0x10aff);
   (0x10b36, 0x10b38); (0x10b56, 0x10b57); (0x10b73, 0x10b77);
   (0x10b92, 0x10b98); (0x10b9d, 0x10ba8); (0x10bb0, 0x10bff);
   (0x10c49, 0x10c7f); (0x10cb3, 0x10cbf); (0x10cf3, 0x10cf9);
   (0x10d28, 0x10d2f); (0x10d3a, 0x10e5f); (0x10e7f, 0x10e7f);
   (0x10eaa, 0x10eaa); (0x10eae, 0x10eaf); (0x10eb2, 0x10eff);
   (0x10f28, 0x10f2f); (0x10f5a, 0x10f6f); (0x10f8a, 0x10faf);
   (0x10fcc, 0x10fdf); (0x10ff7, 0x10fff); (0x1104e, 0x11051);
   (0x11076, 0x1107e); (0x110bd, 0x110bd); (0x110c3, 0x110cf);
   (0x110e9, 0x110ef); (0x110fa, 0x110ff); (0x11135, 0x11135);
   (0x11148, 0x1114f); (0x11177, 0x1117f); (0x111e0, 0x111e0);
   (0x111f5, 0x111ff); (0x11212, 0x11212); (0x1123f, 0x1127f);
   (0x11287, 0x11287); (0x11289, 0x11289); (0x1128e, 0x1128e);
   (0x1129e, 0x1129e); (0x112aa, 0x112af); (0x112eb, 0x112ef);
   (0x112fa, 0x112ff); (0x11304, 0x11304); (0x1130d, 0x1130e);
   (0x11311, 0x11312); (0x11329, 0x11329); (0x11331, 0x11331);
   (0x11334, 0x11334); (0x1133a, 0x1133a); (0x11345, 0x11346);
   (0x11349, 0x1134a); (0x1134e, 0x1134f); (0x11351, 0x11356);
   (0x11358, 0x1135c); (0x11364, 0x11365); (0x1136d, 0x1136f);
   (0x11375, 0x113ff); (0x1145c, 0x1145c); (0x11462, 0x1147f);
   (0x114c8, 0x114cf); (0x114da, 0x1157f); (0x115b6, 0x115b7);
   (0x115de, 0x115ff); (0x11645, 0x1164f); (0x1165a, 0x1165f);
   (0x1166d, 0x1167f); (0x116ba, 0x116bf); (0x116ca, 0x116ff);
   (0x1171b, 0x1171c); (0x1172c, 0x1172f); (0x11747, 0x117ff);
   (0x1183c, 0x1189f); (0x118f3, 0x118fe); (0x11907, 0x11908);
   (0x1190a, 0x1190b); (0x11914, 0x11914); (0x11917, 0x11917);
   (0x11936, 0x11936); (0x11939, 0x1193a); (0x11947, 0x1194f);
   (0x1195a, 0x1199f); (0x119a8, 0x119a9); (0x119d8, 0x119d9);
   (0x119e5, 0x119ff); (0x11a48, 0x11a4f); (0x11aa3, 0x11aaf);
   (0x11af9, 0x11bff); (0x11c09, 0x11c09); (0x11c37, 0x11c37);
   (0x11c46, 0x11c4f); (0x11c6d, 0x11c6f); (0x11c90, 0x11c91);
   (0x11ca8, 0x11ca8); (0x11cb7, 0x11cff); (0x11d07, 0x11d07);
   (0x11d0a, 0x11d0a); (0x11d37, 0x11d39); (0x11d3b, 0x11d3b);
   (0x11d3e, 0x11d3e); (0x11d48, 0x11d4f); (0x11d5a, 0x11d5f);
   (0x11d66, 0x11d66); (0x11d69, 0x11d69); (0x11d8f, 0x11d8f);
   (0x11d92, 0x11d92); (0x11d99, 0x11d9f); (0x11daa, 0x11edf);
   (0x11ef9, 0x11faf); (0x11fb1, 0x11fbf); (0x11ff2, 0x11ffe);
   (0x1239a, 0x123ff); (0x1246f, 0x1246f); (0x12475, 0x1247f);
   (0x12544, 0x12f8f); (0x12ff3, 0x12fff); (0x1342f, 0x143ff);
   (0x14647, 0x167ff); (0x16a39, 0x16a3f); (0x16a5f, 0x16a5f);
   (0x16a6a, 0x16a6d); (0x16abf, 0x16abf); (0x16aca, 0x16acf);
   (0x16aee, 0x16aef); (0x16af6, 0x16aff); (0x16b46, 0x16b4f);
   (0x16b5a, 0x16b5a); (0x16b62, 0x16b62); (0x16b78, 0x16b7c);
   (0x16b90, 0x16e3f); (0x16e9b, 0x16eff); (0x16f4b, 0x16f4e);
   (0x16f88, 0x16f8e); (0x16fa0, 0x16fdf); (0x16fe5, 0x16fef);
   (0x16ff2, 0x16fff); (0x187f8, 0x187ff); (0x18cd6, 0x18cff);
   (0x18d09, 0x1afef); (0x1aff4, 0x1aff4); (0x1affc, 0x1affc);
   (0x1afff, 0x1afff); (0x1b123, 0x1b14f); (0x1b153, 0x1b163);
   (0x1b168, 0x1b16f); (0x1b2fc, 0x1bbff); (0x1bc6b, 0x1bc6f);
   (0x1bc7d, 0x1bc7f); (0x1bc89, 0x1bc8f); (0x1bc9a, 0x1bc9b);
   (0x1bca0, 0x1ceff); (0x1cf2e, 0x1cf2f); (0x1cf47, 0x1cf4f);
   (0x1cfc4, 0x1cfff); (0x1d0f6, 0x1d0ff); (0x1d127, 0x1d128);
   (0x1d173, 0x1d17a); (0x1d1eb, 0x1d1ff); (0x1d246, 0x1d2df);
   (0x1d2f4, 0x1d2ff); (0x1d357, 0x1d35f); (0x1d379, 0x1d3ff);
   (0x1d455, 0x1d455); (0x1d49d, 0x1d49d); (0x1d4a0, 0x1d4a1);
   (0x1d4a3, 0x1d4a4); (0x1d4a7, 0x1d4a8); (0x1d4ad, 0x1d4ad);
   (0x1d4ba, 0x1d4ba); (0x1d4bc, 0x1d4bc); (0x1d4c4, 0x1d4c4);
   (0x1d506, 0x1d506); (0x1d50b, 0x1d50c); (0x1d515, 0x1d515);
   (0x1d51d, 0x1d51d); (0x1d53a, 0x1d53a); (0x1d53f, 0x1d53f);
   (0x1d545, 0x1d545); (0x1d547, 0x1d549); (0x1d551, 0x1d551);
   (0x1d6a6, 0x1d6a7); (0x1d7cc, 0x1d7cd); (0x1da8c, 0x1da9a);
   (0x1daa0, 0x1daa0); (0x1dab0, 0x1deff); (0x1df1f, 0x1dfff);
   (0x1e007, 0x1e007); (0x1e019, 0x1e01a); (0x1e022, 0x1e022);
   (0x1e025, 0x1e025); (0x1e02b, 0x1e0ff); (0x1e12d, 0x1e12f);
   (0x1e13e, 0x1e13f); (0x1e14a, 0x1e14d); (0x1e150, 0x1e28f);
   (0x1e2af, 0x1e2bf); (0x1e2fa, 0x1e2fe); (0x1e300, 0x1e7df);
   (0x1e7e7, 0x1e7e7); (0x1e7ec, 0x1e7ec); (0x1e7ef, 0x1e7ef);
   (0x1e7ff, 0x1e7ff); (0x1e8c5, 0x1e8c6); (0x1e8d7, 0x1e8ff);
   (0x1e94c, 0x1e94f); (0x1e95a, 0x1e95d); (0x1e960, 0x1ec70);
   (0x1ecb5, 0x1ed00); (0x1ed3e, 0x1edff); (0x1ee04, 0x1ee04);
   (0x1ee20, 0x1ee20); (0x1ee23, 0x1ee23); (0x1ee25, 0x1ee26);
   (0x1ee28, 0x1ee28); (0x1ee33, 0x1ee33); (0x1ee38, 0x1ee38);
   (0x1ee3a, 0x1ee3a); (0x1ee3c, 0x1ee41); (0x1ee43, 0x1ee46);
   (0x1ee48, 0x1ee48); (0x1ee4a, 0x1ee4a); (0x1ee4c, 0x1ee4c);
   (0x1ee50, 0x1ee50); (0x1ee53, 0x1ee53); (0x1ee55, 0x1ee56);
   (0x1ee58, 0x1ee58); (0x1ee5a, 0x1ee5a); (0x1ee5c, 0x1ee5c);
   (0x1ee5e, 0x1ee5e); (0x1ee60, 0x1ee60); (0x1ee63, 0x1ee63);
   (0x1ee65, 0x1ee66); (0x1ee6b, 0x1ee6b); (0x1ee73, 0x1ee73);
   (0x1ee78, 0x1ee78); (0x1ee7d, 0x1ee7d); (0x1ee7f, 0x1ee7f);
   (0x1ee8a, 0x1ee8a); (0x1ee9c, 0x1eea0); (0x1eea4, 0x1eea4);
   (0x1eeaa, 0x1eeaa); (0x1eebc, 0x1eeef); (0x1eef2, 0x1efff);
   (0x1f02c, 0x1f02f); (0x1f094, 0x1f09f); (0x1f0af, 0x1f0b0);
   (0x1f0c0, 0x1f0c0); (0x1f0d0, 0x1f0d0); (0x1f0f6, 0x1f0ff);
   (0x1f1ae, 0x1f1e5); (0x1f203, 0x1f20f); (0x1f23c, 0x1f23f);
   (0x1f249, 0x1f24f); (0x1f252, 0x1f25f); (0x1f266, 0x1f2ff);
   (0x1f6d8, 0x1f6dc); (0x1f6ed, 0x1f6ef); (0x1f6fd, 0x1f6ff);
   (0x1f774, 0x1f77f); (0x1f7d9, 0x1f7df); (0x1f7ec, 0x1f7ef);
   (0x1f7f1, 0x1f7ff); (0x1f80c, 0x1f80f); (0x1f848, 0x1f84f);
   (0x1f85a, 0x1f85f); (0x1f888, 0x1f88f); (0x1f8ae, 0x1f8af);
   (0x1f8b2, 0x1f8ff); (0x1fa54, 0x1fa5f); (0x1fa6e, 0x1fa6f);
   (0x1fa75, 0x1fa77); (0x1fa7d, 0x1fa7f); (0x1fa87, 0x1fa8f);
   (0x1faad, 0x1faaf); (0x1fabb, 0x1fabf); (0x1fac6, 0x1facf);
   (0x1fada, 0x1fadf); (0x1fae8, 0x1faef); (0x1faf7, 0x1faff);
   (0x1fb93, 0x1fb93); (0x1fbcb, 0x1fbef); (0x1fbfa, 0x1ffff);
   (0x2a6e0, 0x2a6ff); (0x2b739, 0x2b73f); (0x2b81e, 0x2b81f);
   (0x2cea2, 0x2ceaf); (0x2ebe1, 0x2f7ff); (0x2fa1e, 0x2ffff);
   (0x3134b, 0xe00ff); (0xe01f0, 0x10ffff)]%N.

Definition is_printable (cp : N) : bool :=
  negb (existsb (fun r => (fst r <=? cp) && (cp <=? snd r))%N unprintable).

Definition hex_digit (n : nat) : ascii :=
  ascii_of_nat (if (n <? 10)%nat then 48 + n else 87 + n).

(** [n] in lower-case hexadecimal on [width] digits. *)
Fixpoint hex_of (width : nat) (n : N) : string :=
  match width with
  | O => EmptyString
  | S w =>
      hex_of w (n / 16)%N +++
      String (hex_digit (N.to_nat (n mod 16)%N)) EmptyString
  end.

(** One character of [repr(s)] with [quote] as the chosen delimiter: [cp] is
    its code point and [raw] the bytes that encode it.  Backslash and the
    delimiter get a backslash; tab, line feed and carriage return their
    letter; the other ASCII controls and every unprintable character a
    hexadecimal escape as wide as the code point needs; anything else is
    kept. *)
Definition repr_char (quote : ascii) (cp : N) (raw : string) : string :=
  if (cp =? N_of_ascii quote)%N || (cp =? 92)%N then String "\" raw
  else if (cp =? 9)%N then "\t"
  else if (cp =? 10)%N then "\n"
  else if (cp =? 13)%N then "\r"
  else if (cp <? 32)%N || (cp =? 127)%N then "\x" +++ hex_of 2 cp
  else if (cp <? 127)%N then raw
  else if is_printable cp then raw
  else if (cp <=? 0xff)%N then "\x" +++ hex_of 2 cp
  else if (cp <=? 0xffff)%N then "\u" +++ hex_of 4 cp
  else "\U" +++ hex_of 8 cp.

Definition repr_body (quote : ascii) (s : string) : string :=
  String.concat "" (map (fun ch => repr_char quote (fst ch) (snd ch))
                        (characters s)).

Fixpoint has_char (c : ascii) (s : string) : bool :=
  match s with
  | EmptyString => false
  | String c' rest => Ascii.eqb c c' || has_char c rest
  end.

Definition double_quote : ascii := ascii_of_nat 34.

(** [repr(s)]: single quotes unless [s] has a single quote and no double
    quote. *)
Definition py_repr_str (s : string) : string :=
  let quote : ascii :=
    if has_char "'" s && negb (has_char double_quote s) then double_quote
    else "'"%char in
  String quote (repr_body quote s +++ String quote EmptyString).

Fixpoint join_with (sep : string) (l : list string) : string :=
  match l with
  | [] => EmptyString
  | [x] => x
  | x :: l' => x +++ sep +++ join_with sep l'
  end.

(** [repr(l)] of a list of [str]. *)
Definition py_repr_list (l : list string) : string :=
  "[" +++ join_with ", " (map py_repr_str l) +++ "]".

(* ================================================================= *)
(** ** Constants *)

Definition SKIP_DIRS : list string :=
  [".git"; ".codex"; "node_modules"; ".venv"; "venv"; "target"; "dist";
   "build"; ".tox"; ".pytest_cache"; ".mypy_cache"; ".cache"].

Definition str_in (s : string) (l : list string) : bool :=
  existsb (String.eqb s) l.

(** *** [ID_RE = re.compile(r"^[a-z0-9][a-z0-9-_]{1,64}$")]

    The class [[a-z0-9-_]] is the two ranges and the literals [-] and [_].
    [ID_RE.match] anchors at the start; the greedy [{1,64}] takes as many
    class characters as it can (at most 64), and giving one back never helps
    because the character given back is not a line end; [$] holds at the end
    of the string and just before a final line feed. *)
Definition is_lower (c : ascii) : bool :=
  let n := nat_of_ascii c in (97 <=? n)%nat && (n <=? 122)%nat.
Definition is_digit (c : ascii) : bool :=
  let n := nat_of_ascii c in (48 <=? n)%nat && (n <=? 57)%nat.
Definition id_head_char (c : ascii) : bool := is_lower c || is_digit c.
Definition id_tail_char (c : ascii) : bool :=
  is_lower c || is_digit c || Ascii.eqb c "-" || Ascii.eqb c "_".

Definition line_feed : string := String (ascii_of_nat 10) EmptyString.

Fixpoint take_class (n : nat) (s : string) : nat * string :=
  match n, s with
  | S n', String c rest =>
      if id_tail_char c then
        let '(k, r) := take_class n' rest in (S k, r)
      else (0%nat, s)
  | _, _ => (0%nat, s)
  end.

Definition at_dollar (s : string) : bool :=
  String.eqb s "" || String.eqb s line_feed.

Definition ID_RE_match (s : string) : bool :=
  match s with
  | EmptyString => false
  | String c rest =>
      id_head_char c &&
      let '(k, r) := take_class 64 rest in (1 <=? k)%nat && at_dollar r
  end.

(* ================================================================= *)
(** ** The file system the program reads *)

(** What [json.loads(path.read_text(encoding="utf-8"))] does on a file:
    it returns a value, or some exception is raised whose text is [exc]. *)
Inductive content : Type :=
| Loads (v : json)
| LoadFails (exc : string).

(** A directory lists its children in the order [os.walk] reports them.
    [mtime] is [int(st_mtime)].  Symbolic links are not modelled, every
    directory can be listed, and the tree does not change while it is
    read. *)
#[warnings="-register-all"]
Inductive Node : Type :=
| File (c : content) (mtime : Z)
| Dir (children : list (string * Node)).

Definition is_dir (n : Node) : bool :=
  match n with Dir _ => true | File _ _ => false end.

(** The [dirnames] and [filenames] of an [os.walk] step. *)
Definition dirnames_of (children : list (string * Node)) : list string :=
  map fst (filter (fun c => is_dir (snd c)) children).
Definition filenames_of (children : list (string * Node)) : list string :=
  map fst (filter (fun c => negb (is_dir (snd c))) children).

(** [os.path.join(top, name)] and [Path / name] on an absolute path. *)
Fixpoint ends_with_slash (s : string) : bool :=
  match s with
  | EmptyString => false
  | String c EmptyString => Ascii.eqb c "/"
  | String _ rest => ends_with_slash rest
  end.

Definition path_join (top name : string) : string :=
  if ends_with_slash top then top +++ name else top +++ "/" +++ name.

(* ================================================================= *)
(** ** Metadata loader *)

(** [load_json(path)], given what is at [path] ([None]: nothing).  Python's
    [None] in the first component is [JNull].  Reading a directory raises
    [IsADirectoryError], which the handler turns into a reason. *)
Definition load_json (path : string) (at_path : option Node)
  : json * option string :=
  match at_path with
  | None => (JNull, Some ("missing: " +++ path))
  | Some (File (Loads v) _) => (v, None)
  | Some (File (LoadFails exc) _) => (JNull, Some ("invalid json: " +++ exc))
  | Some (Dir _) =>
      (JNull, Some ("invalid json: " +++
                    "[Errno 21] Is a directory: " +++ py_repr_str path))
  end.

(* ================================================================= *)
(** ** Validator *)

(** A check returns [Done None] to let the next check run and
    [Done (Some msg)] for [return msg]. *)
Definition and_then (c1 c2 : outcome (option string)) : outcome (option string) :=
  r <- c1 ;;
  match r with
  | Some msg => Done (Some msg)
  | None => c2
  end.

Notation "c1 >>> c2" := (and_then c1 c2) (at level 62, right associativity).

Definition fail_if (cond : bool) (msg : string) : outcome (option string) :=
  if cond then Done (Some msg) else Done None.

Fixpoint check_required (required : list string) (data : json)
  : outcome (option string) :=
  match required with
  | [] => Done None
  | key :: rest =>
      present <- py_in key data ;;
      if negb present then Done (Some ("missing required field: " +++ key))
      else check_required rest data
  end.

(** [len(v)]. *)
Definition py_len_of (v : json) : outcome nat :=
  match v with
  | JStr s => Done (py_len s)
  | JArr items => Done (List.length items)
  | JObj fields => Done (List.length fields)
  | _ => Uncaught TypeError
  end.

(** [ID_RE.match(v)]: a non-[str] argument is a [TypeError]. *)
Definition py_re_match (v : json) : outcome bool :=
  match v with
  | JStr s => Done (ID_RE_match s)
  | _ => Uncaught TypeError
  end.

Definition ID_PATTERN_MESSAGE : string :=
  "id must match pattern ^[a-z0-9][a-z0-9-_]{1,64}$".

Definition check_id (data : json) : outcome (option string) :=
  (v <- py_get data "id" ;; fail_if (negb (is_str v)) "id must be string") >>>
  (v <- py_getitem data "id" ;;
   m <- py_re_match v ;;
   fail_if (negb m) ID_PATTERN_MESSAGE).

Definition check_one_liner (data : json) : outcome (option string) :=
  (v <- py_get data "one_liner" ;;
   fail_if (negb (is_str v)) "one_liner must be string") >>>
  (v <- py_getitem data "one_liner" ;;
   n <- py_len_of v ;;
   fail_if (120 <? n)%nat "one_liner exceeds 120 chars").

Fixpoint check_optional_str (optional_str : list string) (data : json)
  : outcome (option string) :=
  match optional_str with
  | [] => Done None
  | key :: rest =>
      present <- py_in key data ;;
      (if present then
         v <- py_getitem data key ;;
         fail_if (negb (is_str v)) (key +++ " must be string")
       else Done None) >>>
      check_optional_str rest data
  end.

(** [not isinstance(v, list) or any(not isinstance(x, str) for x in v)]. *)
Definition not_array_of_strings (v : json) : bool :=
  match v with
  | JArr items => existsb (fun x => negb (is_str x)) items
  | _ => true
  end.

Fixpoint check_string_arrays (array_keys : list string) (data : json)
  : outcome (option string) :=
  match array_keys with
  | [] => Done None
  | key :: rest =>
      present <- py_in key data ;;
      (if present then
         v <- py_getitem data key ;;
         fail_if (not_array_of_strings v) (key +++ " must be array of strings")
       else Done None) >>>
      check_string_arrays rest data
  end.

(** The loop over [data["entrypoints"].items()]; JSON keys are always
    [str], so only the values can fail the test. *)
Fixpoint check_entrypoint_items (items : list (string * json))
  : outcome (option string) :=
  match items with
  | [] => Done None
  | (_, v) :: rest =>
      if negb (is_str v) then
        Done (Some "entrypoints keys and values must be strings")
      else check_entrypoint_items rest
  end.

Definition check_entrypoints (data : json) : outcome (option string) :=
  present <- py_in "entrypoints" data ;;
  if present then
    v <- py_getitem data "entrypoints" ;;
    match v with
    | JObj items => check_entrypoint_items items
    | _ => Done (Some "entrypoints must be object")
    end
  else Done None.

Definition allowed : list string :=
  ["id"; "title"; "one_liner"; "tags"; "stack"; "entrypoints"].

(** [[k for k in data.keys() if k not in allowed]]. *)
Definition extras_of (fields : list (string * json)) : list string :=
  filter (fun k => negb (str_in k allowed)) (keys fields).

Definition check_extras (data : json) : outcome (option string) :=
  match data with
  | JObj fields =>
      let extras := extras_of fields in
      match extras with
      | [] => Done None
      | _ :: _ =>
          Done (Some ("unexpected fields: " +++
                      py_repr_list (sorted str_lt (fun k => k) extras)))
      end
  | _ => Uncaught AttributeError
  end.

Definition validate_metadata_manual (data : json) : outcome (option string) :=
  check_required ["id"; "one_liner"] data >>>
  check_id data >>>
  check_one_liner data >>>
  check_optional_str ["title"] data >>>
  check_string_arrays ["tags"; "stack"] data >>>
  check_entrypoints data >>>
  check_extras data.

(** The environment of a run: whether [import jsonschema] succeeds and, if
    so, what [jsonschema.validate(instance, schema)] does ([Some exc]: it
    raises an exception with text [exc]); the schema path and what is there. *)
Record Env : Type := {
  jsonschema : option (json -> json -> option string);
  schema_path : string;
  schema_file : option Node
}.

Definition validate_metadata_schema (env : Env) (data : json)
  : outcome (option string) :=
  match jsonschema env with
  | None => validate_metadata_manual data
  | Some validate =>
      let '(schema, err) := load_json (schema_path env) (schema_file env) in
      if truthy err then
        Done (Some ("schema load failed: " +++
                    match err with Some e => e | None => "None" end))
      else
        match validate data schema with
        | Some exc => Done (Some ("schema validation failed: " +++ exc))
        | None => Done None
        end
  end.

(* ================================================================= *)
(** ** Entries, conflicts, warnings *)

(** A manifest entry.  [entry_id] and [entry_path] are the keys the
    resolver reads; the other members are carried verbatim. *)
Record Entry : Type := {
  entry_id : string;
  entry_path : string;
  one_liner : json;
  source_metadata : string;
  source_mtime : Z;
  title : option json;
  tags : option json;
  stack : option json;
  entrypoints : option json
}.

Record Conflict : Type := {
  conflict_id : string;
  paths : list string
}.

Record WarningItem : Type := {
  warning_path : string;
  message : string
}.

(* ================================================================= *)
(** ** Tree scanner *)

(** [".git" in dirnames or ".git" in filenames]. *)
Definition is_repo_root (dirnames filenames : list string) : bool :=
  if str_in ".git" dirnames then true
  else if str_in ".git" filenames then true
  else false.

Definition text_of (err : option string) : string :=
  match err with Some e => e | None => "None" end.

(** [entry[key] = data[key]] when [key in data]. *)
Definition copy_optional (data : json) (key : string) : outcome (option json) :=
  present <- py_in key data ;;
  if present then v <- py_getitem data key ;; Done (Some v)
  else Done None.

(** [int(metadata_path.stat().st_mtime)]; only asked of a file that
    loaded. *)
Definition mtime_of (n : Node) : Z :=
  match n with File _ m => m | Dir _ => 0%Z end.

(** The entry built from a validated document.  A document whose [id] is
    not a [str] can only come out of an external schema engine and leaves
    the model. *)
Definition make_entry (data : json) (current_path : string) (mtime : Z)
  : outcome Entry :=
  v_id <- py_getitem data "id" ;;
  v_one_liner <- py_getitem data "one_liner" ;;
  v_title <- copy_optional data "title" ;;
  v_tags <- copy_optional data "tags" ;;
  v_stack <- copy_optional data "stack" ;;
  v_entrypoints <- copy_optional data "entrypoints" ;;
  match v_id with
  | JStr s =>
      Done {| entry_id := s;
              entry_path := current_path;
              one_liner := v_one_liner;
              source_metadata := "project.metadata.json";
              source_mtime := mtime;
              title := v_title;
              tags := v_tags;
              stack := v_stack;
              entrypoints := v_entrypoints |}
  | _ => Unmodelled
  end.

Definition scan_state : Type := list Entry * list WarningItem.

Definition add_warning (st : scan_state) (w : WarningItem) : scan_state :=
  (fst st, snd st ++ [w]).
Definition add_entry (st : scan_state) (e : Entry) : scan_state :=
  (fst st ++ [e], snd st).

Definition METADATA_NAME : string := "project.metadata.json".

(** The body of [if has_repo:] for the directory [current] with the given
    children, up to (not including) [dirnames[:] = []]. *)
Definition visit_repo (env : Env) (strict : bool) (current : string)
    (children : list (string * Node)) (st : scan_state) : outcome scan_state :=
  let metadata_path := path_join current METADATA_NAME in
  match lookup METADATA_NAME children with
  | None => Done st
  | Some node =>
      let '(data, err) := load_json metadata_path (Some node) in
      if truthy err then
        let st' := add_warning st {| warning_path := metadata_path;
                                     message := text_of err |} in
        if strict then SystemExit (text_of err) else Done st'
      else
        v_err <- validate_metadata_schema env data ;;
        if truthy v_err then
          let st' := add_warning st {| warning_path := metadata_path;
                                       message := text_of v_err |} in
          if strict then SystemExit (text_of v_err) else Done st'
        else
          entry <- make_entry data current (mtime_of node) ;;
          Done (add_entry st entry)
  end.

(** [os.walk(root, topdown=True)] with the loop body of [scan_projects]
    run at every directory it yields.  The two in-place assignments to
    [dirnames] decide where the walk goes next: a child directory named in
    [SKIP_DIRS] is dropped, and below a repository root nothing is left.
    Walking something that is not a directory yields nothing. *)
Fixpoint scan_node (env : Env) (strict : bool) (current : string) (n : Node)
    (st : scan_state) {struct n} : outcome scan_state :=
  match n with
  | File _ _ => Done st
  | Dir children =>
      let has_repo :=
        is_repo_root (dirnames_of children) (filenames_of children) in
      if has_repo then visit_repo env strict current children st
      else
        (fix walk_children (l : list (string * Node)) (st : scan_state)
             {struct l} : outcome scan_state :=
           match l with
           | [] => Done st
           | (name, child) :: l' =>
               match child with
               | File _ _ => walk_children l' st
               | Dir _ =>
                   if str_in name SKIP_DIRS then walk_children l' st
                   else
                     st' <- scan_node env strict (path_join current name)
                                      child st ;;
                     walk_children l' st'
               end
           end) children st
  end.

Definition scan_projects (env : Env) (root : string) (tree : Node)
    (strict : bool) : outcome scan_state :=
  scan_node env strict root tree ([], []).

(* ================================================================= *)
(** ** Conflict resolver *)

(** [by_id.setdefault(k, []).append(e)] on an insertion-ordered dict. *)
Fixpoint setdefault_append (k : string) (e : Entry)
    (by_id : list (string * list Entry)) : list (string * list Entry) :=
  match by_id with
  | [] => [(k, [e])]
  | (k', items) :: rest =>
      if String.eqb k k' then (k', items ++ [e]) :: rest
      else (k', items) :: setdefault_append k e rest
  end.

(** One turn of [for entry in sorted(entries, key=lambda e: e["path"])]. *)
Definition group_step (by_id : list (string * list Entry)) (e : Entry)
  : list (string * list Entry) :=
  setdefault_append (entry_id e) e by_id.

Definition group_by_id (entries : list Entry) : list (string * list Entry) :=
  fold_left group_step (sorted str_lt entry_path entries) [].

(** The loop over [by_id.items()]; [items[0]] of an empty list would raise
    [IndexError]. *)
Fixpoint collect (by_id : list (string * list Entry))
    (kept : list Entry) (conflicts : list Conflict)
  : outcome (list Entry * list Conflict) :=
  match by_id with
  | [] => Done (kept, conflicts)
  | (project_id, items) :: rest =>
      match items with
      | [] => Uncaught IndexError
      | first :: _ =>
          collect rest (kept ++ [first])
            (if (1 <? List.length items)%nat then
               conflicts ++ [{| conflict_id := project_id;
                                paths := map entry_path items |}]
             else conflicts)
      end
  end.

Definition resolve_conflicts (entries : list Entry)
  : outcome (list Entry * list Conflict) :=
  kc <- collect (group_by_id entries) [] [] ;;
  let kept_sorted :=
    sorted pair_lt (fun e => (entry_id e, entry_path e)) (fst kc) in
  let conflicts_sorted := sorted str_lt conflict_id (snd kc) in
  Done (kept_sorted, conflicts_sorted).

(* ================================================================= *)
(** ** Manifest writer and [main] *)

Definition optional_member (key : string) (v : option json)
  : list (string * json) :=
  match v with Some x => [(key, x)] | None => [] end.

Definition entry_to_json (e : Entry) : json :=
  JObj ([("id", JStr (entry_id e));
         ("path", JStr (entry_path e));
         ("one_liner", one_liner e);
         ("source_metadata", JStr (source_metadata e));
         ("source_mtime", JInt (source_mtime e))]
        ++ optional_member "title" (title e)
        ++ optional_member "tags" (tags e)
        ++ optional_member "stack" (stack e)
        ++ optional_member "entrypoints" (entrypoints e)).

Definition conflict_to_json (c : Conflict) : json :=
  JObj [("id", JStr (conflict_id c)); ("paths", JArr (map JStr (paths c)))].

(** The [manifest] dict of [write_manifest]; [generated_at] is what
    [now_iso()] returned. *)
Definition manifest_dict (root generated_at : string) (entries : list Entry)
    (conflicts : list Conflict) : json :=
  JObj ([("version", JStr "1.0");
         ("root", JStr root);
         ("generated_at", JStr generated_at);
         ("projects", JArr (map entry_to_json entries))]
        ++ match conflicts with
           | [] => []
           | _ :: _ => [("conflicts", JArr (map conflict_to_json conflicts))]
           end).

(** The text [write_manifest] stores at the output path, for a serialiser
    [dumps] standing for [json.dumps(_, indent=2, sort_keys=True)]. *)
Definition write_manifest (dumps : json -> string) (root generated_at : string)
    (entries : list Entry) (conflicts : list Conflict) : string :=
  dumps (manifest_dict root generated_at entries conflicts) +++ line_feed.

(** What a run that reaches [return 0] leaves behind. *)
Record Completed : Type := {
  manifest : json;
  manifest_text : string;
  stderr : list string
}.

Definition warning_line (w : WarningItem) : string :=
  "warning: " +++ warning_path w +++ ": " +++ message w +++ line_feed.

Definition CONFLICT_SUMMARY : string :=
  "warning: duplicate project ids detected; see conflicts in manifest"
  +++ line_feed.

(** [main()], after argument parsing: [root] is the resolved root path and
    [tree] what is there, [generated_at] the clock reading. *)
Definition main (env : Env) (dumps : json -> string) (generated_at : string)
    (root : string) (tree : Node) (strict : bool) : outcome Completed :=
  scanned <- scan_projects env root tree strict ;;
  resolved <- resolve_conflicts (fst scanned) ;;
  let kept := fst resolved in
  let conflicts := snd resolved in
  Done {| manifest := manifest_dict root generated_at kept conflicts;
          manifest_text := write_manifest dumps root generated_at kept conflicts;
          stderr := map warning_line (snd scanned)
                    ++ match conflicts with
                       | [] => []
                       | _ :: _ => [CONFLICT_SUMMARY]
                       end |}.

(** The process exit status: [0] when [main] returns, [1] for
    [SystemExit] carrying a string and for an uncaught exception. *)
Definition exit_code {A : Type} (r : outcome A) : option Z :=
  match r with
  | Done _ => Some 0%Z
  | SystemExit _ => Some 1%Z
  | Uncaught _ => Some 1%Z
  | Unmodelled => None
  end.

(** The manifest file the run wrote, if the writer was reached. *)
Definition written (r : outcome Completed) : option string :=
  match r with
  | Done c => Some (manifest_text c)
  | _ => None
  end.

(* ================================================================= *)
(** ** Vocabulary of the statements *)

(** "Not after", for the order [sorted] is run with: [key y < key x] fails. *)
Definition key_le {A K : Type} (lt : K -> K -> bool) (key : A -> K)
    (x y : A) : Prop :=
  lt (key y) (key x) = false.

(** [a <= b] on [str]. *)
Definition str_le (a b : string) : Prop := str_lt b a = false.

(** [(id, path) <= (id', path')] on the sort key of the kept list. *)
Definition entry_le (e e' : Entry) : Prop :=
  pair_lt (entry_id e', entry_path e') (entry_id e, entry_path e) = false.

Definition conflict_le (c c' : Conflict) : Prop :=
  str_le (conflict_id c) (conflict_id c').

(** The entries of the input that carry the id [i]. *)
Definition members (i : string) (entries : list Entry) : list Entry :=
  filter (fun e => String.eqb (entry_id e) i) entries.

(** An entry with its two resolver keys replaced. *)
Definition with_keys (i p : string) (e : Entry) : Entry :=
  {| entry_id := i;
     entry_path := p;
     one_liner := one_liner e;
     source_metadata := source_metadata e;
     source_mtime := source_mtime e;
     title := title e;
     tags := tags e;
     stack := stack e;
     entrypoints := entrypoints e |}.

(** The items stored under [k], or nothing. *)
Definition items_of (k : string) (by_id : list (string * list Entry))
  : list Entry :=
  match lookup k by_id with Some l => l | None => [] end.

(** What the second loop of the resolver collects from well-formed groups. *)
Definition heads (by_id : list (string * list Entry)) : list Entry :=
  flat_map (fun g => firstn 1 (snd g)) by_id.

Definition multi (by_id : list (string * list Entry)) : list Conflict :=
  flat_map (fun g =>
              if (1 <? List.length (snd g))%nat then
                [{| conflict_id := fst g; paths := map entry_path (snd g) |}]
              else []) by_id.

(** *** The manual rule set, as the specification lists it

    Rules 1 to 7 of the validator's contract, each read off an object's
    fields on its own; the validator reports the first one that fails. *)
Fixpoint first_error (rules : list (option string)) : option string :=
  match rules with
  | [] => None
  | Some msg :: _ => Some msg
  | None :: rest => first_error rest
  end.

Definition rule_required (f : list (string * json)) : option string :=
  if negb (has_key "id" f) then Some "missing required field: id"
  else if negb (has_key "one_liner" f) then
         Some "missing required field: one_liner"
       else None.

Definition rule_id (f : list (string * json)) : option string :=
  match lookup "id" f with
  | Some (JStr s) => if ID_RE_match s then None else Some ID_PATTERN_MESSAGE
  | _ => Some "id must be string"
  end.

Definition rule_one_liner (f : list (string * json)) : option string :=
  match lookup "one_liner" f with
  | Some (JStr s) =>
      if (120 <? py_len s)%nat then Some "one_liner exceeds 120 chars"
      else None
  | _ => Some "one_liner must be string"
  end.

Definition rule_title (f : list (string * json)) : option string :=
  match lookup "title" f with
  | Some v => if is_str v then None else Some "title must be string"
  | None => None
  end.

Definition rule_string_array (key : string) (f : list (string * json))
  : option string :=
  match lookup key f with
  | Some (JArr items) =>
      if forallb is_str items then None
      else Some (key +++ " must be array of strings")
  | Some _ => Some (key +++ " must be array of strings")
  | None => None
  end.

Definition rule_entrypoints (f : list (string * json)) : option string :=
  match lookup "entrypoints" f with
  | Some (JObj items) =>
      if forallb (fun kv => is_str (snd kv)) items then None
      else Some "entrypoints keys and values must be strings"
  | Some _ => Some "entrypoints must be object"
  | None => None
  end.

Definition rule_extras (f : list (string * json)) : option string :=
  match extras_of f with
  | [] => None
  | _ :: _ =>
      Some ("unexpected fields: " +++
            py_repr_list (sorted str_lt (fun k => k) (extras_of f)))
  end.

Definition manual_rules (f : list (string * json)) : option string :=
  first_error [rule_required f; rule_id f; rule_one_liner f; rule_title f;
               rule_string_array "tags" f; rule_string_array "stack" f;
               rule_entrypoints f; rule_extras f].

(** A document with its fields outside the allowed set removed. *)
Definition without_extras (f : list (string * json)) : list (string * json) :=
  filter (fun kv => str_in (fst kv) allowed) f.

(** Whether a message starts with the letter u, as the allowed-set message
    does and the messages of rules 1 to 6 do not. *)
Definition starts_with_u (msg : string) : bool :=
  match msg with
  | String c _ => Ascii.eqb c "u"
  | EmptyString => false
  end.

(** *** The identifier pattern, read declaratively

    One character of [[a-z0-9]], then between 1 and 64 characters of
    [[a-z0-9-_]], then the end of the string, where Python's [$] also
    accepts one final line feed. *)
Fixpoint string_forall (p : ascii -> bool) (s : string) : bool :=
  match s with
  | EmptyString => true
  | String c rest => p c && string_forall p rest
  end.

Definition id_pattern (s : string) : Prop :=
  exists c body tail,
    s = String c (body +++ tail) /\
    id_head_char c = true /\
    string_forall id_tail_char body = true /\
    1 <= String.length body <= 64 /\
    (tail = "" \/ tail = line_feed).

(** *** The identifier pattern, as the specification states it

    One character of [[a-z0-9]], then between 1 and 64 characters of
    [[a-z0-9-_]], and nothing after them. *)
Definition id_shape (s : string) : bool :=
  match s with
  | EmptyString => false
  | String c body =>
      id_head_char c && string_forall id_tail_char body &&
      (1 <=? String.length body)%nat && (String.length body <=? 64)%nat
  end.

(** [s] without its last character, when that is a line feed. *)
Fixpoint strip_line_feed (s : string) : option string :=
  match s with
  | EmptyString => None
  | String c rest =>
      match rest with
      | EmptyString =>
          if Ascii.eqb c (ascii_of_nat 10) then Some EmptyString else None
      | String _ _ => option_map (String c) (strip_line_feed rest)
      end
  end.

(** A string of the pattern followed by one line feed. *)
Definition id_then_line_feed (s : string) : bool :=
  match strip_line_feed s with
  | Some s0 => id_shape s0
  | None => false
  end.

(** *** Trees

    The walk over the children of a directory, with the scan of a child as
    a parameter; [scan_node] is this walk with itself as the parameter. *)
Fixpoint walk_with (scan : string -> Node -> scan_state -> outcome scan_state)
    (current : string) (l : list (string * Node)) (st : scan_state)
  : outcome scan_state :=
  match l with
  | [] => Done st
  | (name, child) :: l' =>
      match child with
      | File _ _ => walk_with scan current l' st
      | Dir _ =>
          if str_in name SKIP_DIRS then walk_with scan current l' st
          else
            st' <- scan (path_join current name) child st ;;
            walk_with scan current l' st'
      end
  end.

Definition has_repo_marker (children : list (string * Node)) : bool :=
  is_repo_root (dirnames_of children) (filenames_of children).



(** The same tree with every denylisted directory emptied, at every depth. *)
Definition prune_child (prune : Node -> Node) (ch : string * Node)
  : string * Node :=
  (fst ch,
   match snd ch with
   | File c m => File c m
   | Dir _ => if str_in (fst ch) SKIP_DIRS then Dir [] else prune (snd ch)
   end).

Fixpoint prune_skipped (n : Node) : Node :=
  match n with
  | File c m => File c m
  | Dir children => Dir (map (prune_child prune_skipped) children)
  end.

(** Whether an outcome is a normal completion. *)
Definition is_done {A : Type} (r : outcome A) : bool :=
  match r with Done _ => true | _ => false end.

(** A property of scan results: [Step] relates the state before to the
    state after a normal completion, [Fails] holds of any other outcome. *)
Definition result_satisfies (Step : scan_state -> scan_state -> Prop)
    (Fails : outcome scan_state -> Prop) (st : scan_state)
    (r : outcome scan_state) : Prop :=
  match r with
  | Done st' => Step st st'
  | _ => Fails r
  end.

(** The text is not a missing-file reason of the loader. *)
Definition not_missing_reason (msg : string) : Prop :=
  String.prefix "missing: " msg = false.

(** *** Traversal order

    [tree_perm t1 t2]: the same tree, its directories listed in another
    order.  [os.walk] reports the children of a directory in the order the
    file system yields them, which the program does not control. *)
Inductive tree_perm : Node -> Node -> Prop :=
| tree_perm_file (c : content) (m : Z) : tree_perm (File c m) (File c m)
| tree_perm_dir (l1 l2 : list (string * Node)) :
    children_perm l1 l2 -> tree_perm (Dir l1) (Dir l2)
with children_perm : list (string * Node) -> list (string * Node) -> Prop :=
| children_perm_nil : children_perm [] []
| children_perm_skip (name : string) (a b : Node)
    (l1 l2 : list (string * Node)) :
    tree_perm a b -> children_perm l1 l2 ->
    children_perm ((name, a) :: l1) ((name, b) :: l2)
| children_perm_swap (x y : string * Node) (l : list (string * Node)) :
    children_perm (x :: y :: l) (y :: x :: l)
| children_perm_trans (l1 l2 l3 : list (string * Node)) :
    children_perm l1 l2 -> children_perm l2 l3 -> children_perm l1 l3.

Scheme tree_perm_mut := Minimality for tree_perm Sort Prop
  with children_perm_mut := Minimality for children_perm Sort Prop.

(** A file name: not empty, no path separator. *)
Definition valid_name (s : string) : bool :=
  negb (String.eqb s "") && negb (has_char "/" s).

Fixpoint nodupb (l : list string) : bool :=
  match l with
  | [] => true
  | x :: l' => negb (str_in x l') && nodupb l'
  end.

(** A tree as a file system holds it: in every directory the names are
    file names and no name occurs twice. *)
Fixpoint wf_tree (n : Node) : bool :=
  match n with
  | File _ _ => true
  | Dir children =>
      nodupb (keys children) && forallb valid_name (keys children)
      && forallb (fun ch => wf_tree (snd ch)) children
  end.

(** The state [st] extended by what a scan from the empty state found. *)
Definition extend (st d : scan_state) : scan_state :=
  (fst st ++ fst d, snd st ++ snd d).

Definition frame (st : scan_state) (r : outcome scan_state)
  : outcome scan_state :=
  d <- r ;; Done (extend st d).

Definition empty_state : scan_state := ([], []).

(** What the walk finds at one child, from the empty state. *)
Definition child_delta (env : Env) (strict : bool) (current : string)
    (ch : string * Node) : outcome scan_state :=
  match snd ch with
  | File _ _ => Done empty_state
  | Dir _ =>
      if str_in (fst ch) SKIP_DIRS then Done empty_state
      else scan_node env strict (path_join current (fst ch)) (snd ch)
                     empty_state
  end.

(** Two scan results that agree up to the order of what was found; two
    runs that did not complete are not told apart. *)
Definition same_found (r1 r2 : outcome scan_state) : Prop :=
  match r1, r2 with
  | Done d1, Done d2 =>
      Permutation (fst d1) (fst d2) /\ Permutation (snd d1) (snd d2)
  | Done _, _ | _, Done _ => False
  | _, _ => True
  end.

(** Two nodes the visit of their parent cannot tell apart: the same file,
    or two directories. *)
Definition same_node (a b : Node) : Prop :=
  match a, b with
  | File c m, File c' m' => c = c' /\ m = m'
  | Dir _, Dir _ => True
  | _, _ => False
  end.

Definition same_lookup (o1 o2 : option Node) : Prop :=
  match o1, o2 with
  | None, None => True
  | Some a, Some b => same_node a b
  | _, _ => False
  end.

(** What may follow a directory's path in the path of something it holds:
    nothing, or a separator and more. *)
Definition path_tail (s : string) : Prop :=
  s = "" \/ exists r, s = "/" +++ r.

(** The path [p] is [current]'s child [name] or lies beneath it. *)
Definition from_child (current name p : string) : Prop :=
  exists s, p = path_join current name +++ s /\ path_tail s.

(** The path [p] is [current] or lies in one of its children. *)
Definition at_or_below (current p : string) : Prop :=
  p = current \/
  exists name, valid_name name = true /\ from_child current name p.

(** How the strict scan relates to a lenient scan that completed: the
    same result when nothing was warned about, otherwise an abort with the
    message of the first new warning. *)
Definition strict_counterpart (st : scan_state)
    (lenient strict_run : outcome scan_state) : Prop :=
  match lenient with
  | Done st' =>
      snd st' = snd st /\ strict_run = Done st' \/
      exists w rest,
        snd st' = snd st ++ w :: rest /\
        strict_run = SystemExit (message w)
  | _ => True
  end.

(** *** Sample inputs *)

(** A run in which [import jsonschema] fails: the manual rule set is in
    use. *)
Definition manual_env : Env :=
  {| jsonschema := None;
     schema_path := "/home/user/.config/codex/memory/project.metadata.schema.json";
     schema_file := None |}.

Definition sample_metadata (i : string) : Node :=
  File (Loads (JObj [("id", JStr i); ("one_liner", JStr "demo")])) 1700000000.

(** An outer repository holding a nested one, both with valid metadata. *)
Definition nested_repo_children : list (string * Node) :=
  [(".git", Dir []);
   ("project.metadata.json", sample_metadata "outer");
   ("vendor", Dir [(".git", Dir []);
                   ("project.metadata.json", sample_metadata "inner")])].

(** A plain directory whose [node_modules] holds a repository with valid
    metadata, next to a file named like a denylisted directory. *)
Definition pruned_tree : Node :=
  Dir [("node_modules",
        Dir [("dep", Dir [(".git", Dir []);
                          ("project.metadata.json", sample_metadata "dep")])]);
       ("build", File (LoadFails "not json") 0);
       ("app", Dir [(".git", File (LoadFails "gitdir") 0);
                    ("project.metadata.json", sample_metadata "app")])].

(** A repository root without a metadata file. *)
Definition bare_repo_children : list (string * Node) :=
  [(".git", Dir []); ("README.md", File (LoadFails "not json") 0)].

(** Two repositories: the metadata of the first is not JSON at all, the
    metadata of the second is the well-formed JSON document [5]. *)
Definition scalar_metadata_tree : Node :=
  Dir [("broken", Dir [(".git", Dir []);
                       ("project.metadata.json",
                        File (LoadFails "Expecting value: line 1 column 1 (char 0)") 0)]);
       ("scalar", Dir [(".git", Dir []);
                       ("project.metadata.json", File (Loads (JInt 5)) 0)])].

(** One repository whose metadata is the JSON list ["id", "one_liner"]. *)
Definition list_metadata_tree : Node :=
  Dir [(".git", Dir []);
       ("project.metadata.json",
        File (Loads (JArr [JStr "id"; JStr "one_liner"])) 0)].

(** Two repositories declaring the same id, listed in either order. *)
Definition twin_alpha : string * Node :=
  ("alpha", Dir [(".git", Dir []);
                 ("project.metadata.json", sample_metadata "twin")]).
Definition twin_zeta : string * Node :=
  ("zeta", Dir [(".git", Dir []);
                ("project.metadata.json", sample_metadata "twin")]).

(** *** Vocabulary of the further properties *)

(** A metadata document as the manual rule set wants it, said without
    reference to the order of the checks. *)
Definition valid_document (data : json) : Prop :=
  exists f,
    data = JObj f /\
    (exists s, lookup "id" f = Some (JStr s) /\ id_pattern s) /\
    (exists s, lookup "one_liner" f = Some (JStr s) /\ py_len s <= 120) /\
    (forall v, lookup "title" f = Some v -> is_str v = true) /\
    (forall k v, k = "tags" \/ k = "stack" -> lookup k f = Some v ->
                 exists items,
                   v = JArr items /\ Forall (fun x => is_str x = true) items) /\
    (forall v, lookup "entrypoints" f = Some v ->
               exists items,
                 v = JObj items /\
                 Forall (fun kv => is_str (snd kv) = true) items) /\
    (forall k, In k (keys f) -> In k allowed).

(** [m[key]] of the manifest document, if it has the key. *)
Definition manifest_member (key : string) (m : json) : option json :=
  match m with
  | JObj f => lookup key f
  | _ => None
  end.

(** Every file of the tree that is named like the metadata file and loads
    holds a JSON object. *)
Fixpoint metadata_objects (n : Node) : bool :=
  match n with
  | File _ _ => true
  | Dir children =>
      forallb (fun ch =>
                 match snd ch with
                 | File (Loads v) _ =>
                     negb (String.eqb (fst ch) METADATA_NAME) || is_dict v
                 | File (LoadFails _) _ => true
                 | Dir _ => metadata_objects (snd ch)
                 end) children
  end.

(** [reaches root tree p l]: the walk started at [root] yields the
    directory [p], whose children are [l].  The walk goes from a directory
    to a child directory when the directory has no repository marker and
    the child's name is not denylisted. *)
Inductive reaches : string -> Node -> string -> list (string * Node) -> Prop :=
| reaches_here (current : string) (children : list (string * Node)) :
    reaches current (Dir children) current children
| reaches_child (current : string) (children : list (string * Node))
    (name : string) (sub : list (string * Node))
    (p : string) (l : list (string * Node)) :
    has_repo_marker children = false ->
    In (name, Dir sub) children ->
    str_in name SKIP_DIRS = false ->
    reaches (path_join current name) (Dir sub) p l ->
    reaches current (Dir children) p l.

(** The entry the scan builds from [sample_metadata i] in the directory
    [p]. *)
Definition sample_entry (i p : string) : Entry :=
  {| entry_id := i;
     entry_path := p;
     one_liner := JStr "demo";
     source_metadata := "project.metadata.json";
     source_mtime := 1700000000;
     title := None; tags := None; stack := None; entrypoints := None |}.

(* ================================================================= *)
(** * Theorems *)

(* ================================================================= *)
(** ** Order on strings *)

Lemma ascii_compare_refl (a : ascii) : Ascii.compare a a = Eq.
Proof. unfold Ascii.compare. apply N.compare_refl. Qed.

Lemma ascii_compare_lt_trans (a b c : ascii) :
  Ascii.compare a b = Lt -> Ascii.compare b c = Lt -> Ascii.compare a c = Lt.
Proof.
  unfold Ascii.compare. rewrite !N.compare_lt_iff. apply N.lt_trans.
Qed.

Lemma string_compare_refl (s : string) : String.compare s s = Eq.
Proof.
  induction s as [|c s IH]; simpl; auto.
  now rewrite ascii_compare_refl.
Qed.

Lemma string_compare_lt_trans (a b c : string) :
  String.compare a b = Lt -> String.compare b c = Lt -> String.compare a c = Lt.
Proof.
  revert b c. induction a as [|x a IH]; intros [|y b] [|z c]; simpl;
    try discriminate; auto.
  destruct (Ascii.compare x y) eqn:Hxy; try discriminate.
  - apply Ascii.compare_eq_iff in Hxy. subst y.
    destruct (Ascii.compare x z) eqn:Hxz; try discriminate; auto.
    intros. eapply IH; eauto.
  - intros _. destruct (Ascii.compare y z) eqn:Hyz; try discriminate.
    + apply Ascii.compare_eq_iff in Hyz. subst z. rewrite Hxy. auto.
    + rewrite (ascii_compare_lt_trans _ _ _ Hxy Hyz). auto.
Qed.

Lemma str_lt_irrefl (a : string) : str_lt a a = false.
Proof. unfold str_lt, String.ltb. now rewrite string_compare_refl. Qed.

Lemma str_lt_trans (a b c : string) :
  str_lt a b = true -> str_lt b c = true -> str_lt a c = true.
Proof.
  unfold str_lt, String.ltb.
  destruct (String.compare a b) eqn:Hab; try discriminate.
  destruct (String.compare b c) eqn:Hbc; try discriminate.
  now rewrite (string_compare_lt_trans _ _ _ Hab Hbc).
Qed.

Lemma str_lt_asym (a b : string) : str_lt a b = true -> str_lt b a = false.
Proof.
  unfold str_lt, String.ltb. rewrite (String.compare_antisym a b).
  destruct (String.compare b a); simpl; auto; discriminate.
Qed.

(** Trichotomy: two strings neither of which is below the other are equal. *)
Lemma str_lt_connected (a b : string) :
  str_lt a b = false -> str_lt b a = false -> a = b.
Proof.
  unfold str_lt, String.ltb. rewrite (String.compare_antisym a b).
  destruct (String.compare b a) eqn:H; simpl; try discriminate.
  intros _ _. symmetry. now apply String.compare_eq_iff.
Qed.

Lemma str_le_refl (a : string) : str_le a a.
Proof. apply str_lt_irrefl. Qed.

Lemma str_le_total (a b : string) : str_le a b \/ str_le b a.
Proof.
  unfold str_le. destruct (str_lt b a) eqn:H; auto.
  right. now apply str_lt_asym.
Qed.

Lemma str_le_lt_trans (a b c : string) :
  str_le a b -> str_lt b c = true -> str_lt a c = true.
Proof.
  unfold str_le. intros Hab Hbc.
  destruct (str_lt a b) eqn:H.
  - eapply str_lt_trans; eauto.
  - now rewrite (str_lt_connected _ _ H Hab).
Qed.

Lemma str_le_trans (a b c : string) : str_le a b -> str_le b c -> str_le a c.
Proof.
  unfold str_le. intros Hab Hbc.
  destruct (str_lt c a) eqn:H; auto.
  pose proof (str_le_lt_trans b c a Hbc H) as Hba. congruence.
Qed.

Lemma str_le_antisym (a b : string) : str_le a b -> str_le b a -> a = b.
Proof. unfold str_le. intros. now apply str_lt_connected. Qed.

(** [str_le] is Stdlib's [String.leb]. *)
Lemma str_le_leb (a b : string) : str_le a b <-> String.leb a b = true.
Proof.
  unfold str_le, str_lt, String.ltb, String.leb.
  rewrite (String.compare_antisym a b).
  destruct (String.compare b a); simpl; split; auto; discriminate.
Qed.

(** *** The tuple order *)

Lemma pair_lt_irrefl (a : string * string) : pair_lt a a = false.
Proof. unfold pair_lt. rewrite String.eqb_refl. apply str_lt_irrefl. Qed.

Lemma pair_lt_asym (a b : string * string) :
  pair_lt a b = true -> pair_lt b a = false.
Proof.
  unfold pair_lt. rewrite (String.eqb_sym (fst b) (fst a)).
  destruct (String.eqb (fst a) (fst b)); apply str_lt_asym.
Qed.

Lemma pair_lt_trans (a b c : string * string) :
  pair_lt a b = true -> pair_lt b c = true -> pair_lt a c = true.
Proof.
  unfold pair_lt.
  destruct (String.eqb_spec (fst a) (fst b)) as [Hab|Hab];
    destruct (String.eqb_spec (fst b) (fst c)) as [Hbc|Hbc];
    destruct (String.eqb_spec (fst a) (fst c)) as [Hac|Hac];
    try congruence; intros H1 H2.
  - eapply str_lt_trans; eauto.
  - rewrite Hac in H1. rewrite (str_lt_asym _ _ H1) in H2. discriminate.
  - eapply str_lt_trans; eauto.
Qed.

Lemma pair_lt_connected (a b : string * string) :
  pair_lt a b = false -> pair_lt b a = false -> a = b.
Proof.
  unfold pair_lt. rewrite (String.eqb_sym (fst b) (fst a)).
  destruct a as [a1 a2], b as [b1 b2]; simpl.
  destruct (String.eqb_spec a1 b1) as [H|H]; intros H1 H2.
  - subst. f_equal. now apply str_lt_connected.
  - exfalso. apply H. now apply str_lt_connected.
Qed.

(** The kept order, spelled out: ids ascending, equal ids by path. *)
Lemma entry_le_iff (e e' : Entry) :
  entry_le e e' <->
  str_lt (entry_id e) (entry_id e') = true \/
  (entry_id e = entry_id e' /\ str_le (entry_path e) (entry_path e')).
Proof.
  unfold entry_le, pair_lt, str_le; simpl.
  destruct (String.eqb_spec (entry_id e') (entry_id e)) as [H|H].
  - rewrite H. rewrite str_lt_irrefl. split; auto.
    intros [?|[_ ?]]; auto; discriminate.
  - split.
    + intros H1. left.
      destruct (str_lt (entry_id e) (entry_id e')) eqn:H2; auto.
      exfalso. apply H. now apply str_lt_connected.
    + intros [H1|[H1 _]]; [now apply str_lt_asym | congruence].
Qed.

(* ================================================================= *)
(** ** Facts about [sorted] *)

Section SortingFacts.
Context {A K : Type} (lt : K -> K -> bool) (key : A -> K).
Hypothesis lt_asym : forall a b, lt a b = true -> lt b a = false.
Hypothesis le_trans :
  forall a b c, lt b a = false -> lt c b = false -> lt c a = false.

Let le := key_le lt key.

Lemma insert_sorted_perm (x : A) (l : list A) :
  Permutation (insert_sorted lt key x l) (x :: l).
Proof.
  induction l as [|y l IH]; simpl; auto.
  destruct (lt (key y) (key x)); auto.
  rewrite IH. apply perm_swap.
Qed.

Lemma sorted_perm (l : list A) : Permutation (sorted lt key l) l.
Proof.
  induction l as [|x l IH]; simpl; auto.
  rewrite insert_sorted_perm. now constructor.
Qed.

Lemma in_sorted (l : list A) (x : A) : In x (sorted lt key l) <-> In x l.
Proof.
  split; apply Permutation_in;
    [apply sorted_perm | apply Permutation_sym, sorted_perm].
Qed.

Lemma insert_sorted_ordered (x : A) (l : list A) :
  StronglySorted le l -> StronglySorted le (insert_sorted lt key x l).
Proof.
  induction 1 as [|y l Hs IH Hy]; simpl.
  - repeat constructor.
  - destruct (lt (key y) (key x)) eqn:Hyx.
    + constructor; auto.
      apply Forall_forall. intros z Hz.
      apply (Permutation_in _ (insert_sorted_perm x l)) in Hz.
      destruct Hz as [<-|Hz].
      * now apply lt_asym.
      * rewrite Forall_forall in Hy. now apply Hy.
    + constructor; [now constructor|].
      constructor; auto.
      eapply Forall_impl; [|exact Hy].
      intros z Hz. unfold key_le in *. eapply le_trans; eauto.
Qed.

Lemma sorted_ordered (l : list A) : StronglySorted le (sorted lt key l).
Proof.
  induction l as [|x l IH]; simpl; [constructor|].
  now apply insert_sorted_ordered.
Qed.

(** An ordered list is determined by its elements as soon as no two of
    them tie. *)
Lemma ordered_unique (l1 l2 : list A) :
  StronglySorted le l1 -> StronglySorted le l2 -> Permutation l1 l2 ->
  (forall x y, In x l1 -> In y l1 -> le x y -> le y x -> x = y) ->
  l1 = l2.
Proof.
  intros H1. revert l2.
  induction H1 as [|x l1 Hs1 IH Hx]; intros l2 H2 HP Hanti.
  - apply Permutation_nil in HP. now subst.
  - destruct H2 as [|y l2 Hs2 Hy].
    + apply Permutation_sym, Permutation_nil in HP. discriminate.
    + assert (x = y) as ->.
      { assert (In y (x :: l1)) as Hy1
            by (eapply Permutation_in;
                [apply Permutation_sym; exact HP | now left]).
        assert (In x (y :: l2)) as Hx2
            by (eapply Permutation_in; [exact HP | now left]).
        destruct Hy1 as [E|Hy1]; auto.
        destruct Hx2 as [E|Hx2]; auto.
        rewrite Forall_forall in Hx, Hy.
        apply Hanti; simpl; auto. }
      apply Permutation_cons_inv in HP.
      f_equal. apply IH; auto.
      intros; apply Hanti; simpl; auto.
Qed.
End SortingFacts.

Lemma StronglySorted_filter {A : Type} (R : A -> A -> Prop) (p : A -> bool)
    (l : list A) :
  StronglySorted R l -> StronglySorted R (filter p l).
Proof.
  induction 1 as [|x l Hs IH Hx]; simpl; [constructor|].
  destruct (p x); auto.
  constructor; auto.
  rewrite Forall_forall in *. intros y Hy. apply filter_In in Hy.
  now apply Hx.
Qed.

Lemma StronglySorted_map {A B : Type} (R : B -> B -> Prop) (f : A -> B)
    (l : list A) :
  StronglySorted (fun x y => R (f x) (f y)) l -> StronglySorted R (map f l).
Proof.
  induction 1 as [|x l Hs IH Hx]; simpl; constructor; auto.
  rewrite Forall_forall in *. intros y Hy.
  apply in_map_iff in Hy. destruct Hy as [z [<- Hz]]. now apply Hx.
Qed.

Lemma NoDup_map_inj {A B : Type} (f : A -> B) (l : list A) (x y : A) :
  NoDup (map f l) -> In x l -> In y l -> f x = f y -> x = y.
Proof.
  induction l as [|z l IH]; simpl; [tauto|].
  intros Hnd Hx Hy E. inversion Hnd as [|? ? Hz Hl]; subst.
  destruct Hx as [->|Hx], Hy as [->|Hy]; auto.
  - exfalso. apply Hz. rewrite E. now apply in_map.
  - exfalso. apply Hz. rewrite <- E. now apply in_map.
Qed.

(** The orders used by the resolver satisfy the section's hypotheses. *)
Lemma str_lt_le_trans (a b c : string) :
  str_lt b a = false -> str_lt c b = false -> str_lt c a = false.
Proof. intros H1 H2. exact (str_le_trans a b c H1 H2). Qed.

Lemma pair_lt_le_trans (a b c : string * string) :
  pair_lt b a = false -> pair_lt c b = false -> pair_lt c a = false.
Proof.
  intros Hab Hbc. destruct (pair_lt c a) eqn:Hca; auto.
  destruct (pair_lt a b) eqn:H.
  - rewrite (pair_lt_trans _ _ _ Hca H) in Hbc. discriminate.
  - rewrite <- (pair_lt_connected _ _ H Hab) in Hbc. congruence.
Qed.

(* ================================================================= *)
(** ** The grouping loop *)

Lemma lookup_setdefault_append (k k' : string) (e : Entry)
    (d : list (string * list Entry)) :
  lookup k (setdefault_append k' e d) =
  if String.eqb k k' then Some (items_of k d ++ [e]) else lookup k d.
Proof.
  unfold items_of.
  induction d as [|[k0 items] d IH]; simpl.
  - destruct (String.eqb k k'); reflexivity.
  - destruct (String.eqb_spec k' k0) as [->|Hk0]; simpl.
    + destruct (String.eqb k k0); reflexivity.
    + destruct (String.eqb_spec k k0) as [->|Hk]; simpl; [|exact IH].
      apply not_eq_sym, String.eqb_neq in Hk0. now rewrite Hk0.
Qed.

Lemma keys_setdefault_append (k : string) (e : Entry)
    (d : list (string * list Entry)) :
  keys (setdefault_append k e d) =
  if str_in k (keys d) then keys d else keys d ++ [k].
Proof.
  unfold keys, str_in.
  induction d as [|[k0 items] d IH]; simpl; auto.
  destruct (String.eqb k k0); simpl; auto.
  rewrite IH. now destruct (existsb (String.eqb k) (map fst d)).
Qed.

Lemma str_in_iff (s : string) (l : list string) :
  str_in s l = true <-> In s l.
Proof.
  unfold str_in. rewrite existsb_exists. split.
  - intros [x [Hx E]]. apply String.eqb_eq in E. now subst.
  - intros H. exists s. split; auto. apply String.eqb_refl.
Qed.

Lemma fold_group_items (l : list Entry) (d : list (string * list Entry))
    (k : string) :
  items_of k (fold_left group_step l d) = items_of k d ++ members k l.
Proof.
  revert d. induction l as [|e l IH]; intros d; simpl.
  - now rewrite app_nil_r.
  - rewrite IH. unfold group_step. unfold items_of at 1.
    rewrite lookup_setdefault_append.
    rewrite (String.eqb_sym k (entry_id e)).
    destruct (String.eqb (entry_id e) k); simpl.
    + now rewrite <- app_assoc.
    + reflexivity.
Qed.

Lemma fold_group_keys (l : list Entry) (d : list (string * list Entry))
    (k : string) :
  In k (keys (fold_left group_step l d)) <->
  In k (keys d) \/ In k (map entry_id l).
Proof.
  revert d. induction l as [|e l IH]; intros d; simpl.
  - tauto.
  - rewrite IH. unfold group_step. rewrite keys_setdefault_append.
    destruct (str_in (entry_id e) (keys d)) eqn:Hin.
    + apply str_in_iff in Hin. intuition (subst; auto).
    + rewrite in_app_iff. simpl. intuition.
Qed.

Lemma fold_group_nodup (l : list Entry) (d : list (string * list Entry)) :
  NoDup (keys d) -> NoDup (keys (fold_left group_step l d)).
Proof.
  revert d. induction l as [|e l IH]; intros d Hd; simpl; auto.
  apply IH. unfold group_step. rewrite keys_setdefault_append.
  destruct (str_in (entry_id e) (keys d)) eqn:Hin; auto.
  apply NoDup_app; auto.
  - repeat constructor. simpl. tauto.
  - intros x Hx [<-|[]]. apply str_in_iff in Hx. congruence.
Qed.

Lemma lookup_of_in {V : Type} (d : list (string * V)) (k : string) (v : V) :
  NoDup (keys d) -> In (k, v) d -> lookup k d = Some v.
Proof.
  unfold keys. induction d as [|[k0 v0] d IH]; simpl; [tauto|].
  intros Hnd [E|Hin].
  - inversion E; subst. now rewrite String.eqb_refl.
  - inversion Hnd as [|? ? Hk0 Hd]; subst.
    destruct (String.eqb_spec k k0) as [->|_]; auto.
    exfalso. apply Hk0. apply in_map_iff. now exists (k0, v).
Qed.

Lemma in_of_lookup {V : Type} (d : list (string * V)) (k : string) (v : V) :
  lookup k d = Some v -> In (k, v) d.
Proof.
  induction d as [|[k0 v0] d IH]; simpl; [discriminate|].
  destruct (String.eqb_spec k k0) as [->|_]; auto.
  intros E. inversion E. now left.
Qed.

Lemma lookup_some_of_key {V : Type} (d : list (string * V)) (k : string) :
  In k (keys d) -> exists v, lookup k d = Some v.
Proof.
  unfold keys. induction d as [|[k0 v0] d IH]; simpl; [tauto|].
  intros [->|H].
  - rewrite String.eqb_refl. eauto.
  - destruct (String.eqb k k0); eauto.
Qed.

Lemma in_members (i : string) (l : list Entry) (e : Entry) :
  In e (members i l) <-> In e l /\ entry_id e = i.
Proof.
  unfold members. rewrite filter_In. now rewrite String.eqb_eq.
Qed.

(** The groups the first loop builds: one per id of the input, holding the
    members of that id in ascending path order. *)
Lemma group_by_id_spec (entries : list Entry) :
  NoDup (keys (group_by_id entries)) /\
  forall k items,
    In (k, items) (group_by_id entries) <->
    In k (map entry_id entries) /\
    items = members k (sorted str_lt entry_path entries).
Proof.
  unfold group_by_id.
  set (S := sorted str_lt entry_path entries).
  assert (Hnd : NoDup (keys (fold_left group_step S []))).
  { apply fold_group_nodup. constructor. }
  assert (Hids : forall k, In k (map entry_id S) <-> In k (map entry_id entries)).
  { intros k. rewrite !in_map_iff.
    split; intros [e [E H]]; exists e; split; auto;
      now apply (in_sorted str_lt entry_path entries). }
  split; auto.
  intros k items. split.
  - intros Hin. split.
    + apply Hids.
      assert (In k (keys (fold_left group_step S []))) as Hk
          by (apply in_map_iff; now exists (k, items)).
      apply fold_group_keys in Hk. simpl in Hk. tauto.
    + pose proof (fold_group_items S [] k) as E.
      unfold items_of at 1 in E.
      now rewrite (lookup_of_in _ _ _ Hnd Hin) in E.
  - intros [Hk ->].
    assert (In k (keys (fold_left group_step S []))) as Hk'
        by (apply fold_group_keys; right; now apply Hids).
    destruct (lookup_some_of_key _ _ Hk') as [items E].
    pose proof (fold_group_items S [] k) as E'.
    unfold items_of at 1 in E'. rewrite E in E'. simpl in E'. subst items.
    now apply in_of_lookup.
Qed.

(* ================================================================= *)
(** ** The collecting loop and the resolver as a whole *)

Lemma collect_done (d : list (string * list Entry)) :
  (forall k items, In (k, items) d -> items <> []) ->
  forall kept conflicts,
    collect d kept conflicts = Done (kept ++ heads d, conflicts ++ multi d).
Proof.
  induction d as [|[k items] d IH]; intros Hne kept conflicts.
  - simpl. now rewrite !app_nil_r.
  - destruct items as [|first rest].
    + exfalso. apply (Hne k []); [now left | reflexivity].
    + cbn [collect]. rewrite IH by (intros k' it H; apply (Hne k' it); now right).
      unfold heads, multi. cbn [flat_map firstn snd fst].
      rewrite <- !app_assoc. cbn [app].
      destruct (1 <? List.length (first :: rest))%nat;
        now rewrite <- ?app_assoc.
Qed.

Lemma groups_nonempty (entries : list Entry) (k : string)
    (items : list Entry) :
  In (k, items) (group_by_id entries) -> items <> [].
Proof.
  intros H. apply (proj2 (group_by_id_spec entries)) in H.
  destruct H as [Hk ->]. apply in_map_iff in Hk. destruct Hk as [e [E He]].
  intros Hnil.
  assert (In e (members k (sorted str_lt entry_path entries))) as Hin.
  { apply in_members. split; auto. now apply in_sorted. }
  rewrite Hnil in Hin. inversion Hin.
Qed.

Lemma resolve_conflicts_eq (entries : list Entry) :
  resolve_conflicts entries =
  Done (sorted pair_lt (fun e => (entry_id e, entry_path e))
               (heads (group_by_id entries)),
        sorted str_lt conflict_id (multi (group_by_id entries))).
Proof.
  unfold resolve_conflicts.
  rewrite collect_done by apply groups_nonempty. reflexivity.
Qed.

Lemma in_heads (d : list (string * list Entry)) (e : Entry) :
  In e (heads d) <-> exists k rest, In (k, e :: rest) d.
Proof.
  unfold heads. rewrite in_flat_map. split.
  - intros [[k items] [Hg He]]. destruct items as [|x rest]; simpl in He.
    + tauto.
    + destruct He as [<-|[]]. eauto.
  - intros [k [rest H]]. exists (k, e :: rest). simpl. auto.
Qed.

Lemma in_multi (d : list (string * list Entry)) (c : Conflict) :
  In c (multi d) <->
  exists k items,
    In (k, items) d /\ 2 <= List.length items /\
    c = {| conflict_id := k; paths := map entry_path items |}.
Proof.
  unfold multi. rewrite in_flat_map. split.
  - intros [[k items] [Hg Hc]]. cbn [fst snd] in Hc.
    destruct (1 <? List.length items)%nat eqn:Hlen; [|inversion Hc].
    destruct Hc as [<-|[]]. apply Nat.ltb_lt in Hlen.
    exists k, items. auto.
  - intros [k [items [Hg [Hlen ->]]]]. exists (k, items). split; auto.
    cbn [fst snd]. apply Nat.ltb_lt in Hlen. rewrite Hlen. now left.
Qed.

Lemma sorted_by_path_ordered (entries : list Entry) :
  StronglySorted (key_le str_lt entry_path)
                 (sorted str_lt entry_path entries).
Proof.
  apply sorted_ordered.
  - intros a b. apply str_lt_asym.
  - intros a b c. apply str_lt_le_trans.
Qed.

Lemma members_sorted_perm (i : string) (entries : list Entry) :
  Permutation (members i (sorted str_lt entry_path entries))
              (members i entries).
Proof.
  unfold members.
  assert (forall (p : Entry -> bool) l1 l2,
             Permutation l1 l2 -> Permutation (filter p l1) (filter p l2)) as Hf.
  { intros p l1 l2 HP. induction HP; simpl; auto.
    - destruct (p x); auto.
    - destruct (p x), (p y); auto. apply perm_swap.
    - etransitivity; eauto. }
  apply Hf, sorted_perm.
Qed.

(** The head of a group is a member of smallest path. *)
Lemma group_head_least (entries : list Entry) (k : string) (e : Entry)
    (rest : list Entry) :
  In (k, e :: rest) (group_by_id entries) ->
  In e entries /\ entry_id e = k /\
  forall e', In e' entries -> entry_id e' = k ->
             str_le (entry_path e) (entry_path e').
Proof.
  intros H. apply (proj2 (group_by_id_spec entries)) in H.
  destruct H as [_ E].
  set (S := sorted str_lt entry_path entries) in *.
  assert (In e (members k S)) as He by (rewrite <- E; now left).
  apply in_members in He. destruct He as [HeS Hid].
  split; [now apply (in_sorted str_lt entry_path entries)|].
  split; auto.
  intros e' He' Hid'.
  assert (In e' (members k S)) as Hin.
  { apply in_members. split; auto. now apply in_sorted. }
  pose proof (StronglySorted_filter _ (fun x => String.eqb (entry_id x) k) _
                (sorted_by_path_ordered entries)) as Hs.
  fold S in Hs. fold (members k S) in Hs. rewrite <- E in Hs, Hin.
  inversion Hs as [|? ? _ Hall]; subst.
  destruct Hin as [<-|Hin].
  - apply str_le_refl.
  - rewrite Forall_forall in Hall. exact (Hall _ Hin).
Qed.

Lemma heads_ids_nodup (d : list (string * list Entry)) :
  (forall k items e, In (k, items) d -> In e items -> entry_id e = k) ->
  NoDup (keys d) -> NoDup (map entry_id (heads d)).
Proof.
  unfold keys. induction d as [|[k items] d IH]; intros Hid Hnd.
  - constructor.
  - inversion Hnd as [|? ? Hk Hd]; subst.
    assert (NoDup (map entry_id (heads d))) as IH'.
    { apply IH; auto. intros k' it e Hin. apply Hid. now right. }
    unfold heads in *. cbn [flat_map snd].
    destruct items as [|x rest]; cbn [firstn app map]; auto.
    constructor; auto.
    intros Hin. apply Hk. apply in_map_iff in Hin.
    destruct Hin as [e [E He]]. apply in_flat_map in He.
    destruct He as [[k' it] [Hg He]]. cbn [snd] in He.
    assert (In e it) as Heit.
    { destruct it; simpl in He; [tauto|]. destruct He as [<-|[]]. now left. }
    apply in_map_iff. exists (k', it). split; auto. cbn [fst].
    rewrite <- (Hid k (x :: rest) x) by (simpl; auto).
    rewrite <- E. symmetry. apply (Hid k' it e); simpl; auto.
Qed.

Lemma group_items_id (entries : list Entry) (k : string)
    (items : list Entry) (e : Entry) :
  In (k, items) (group_by_id entries) -> In e items -> entry_id e = k.
Proof.
  intros H He. apply (proj2 (group_by_id_spec entries)) in H.
  destruct H as [_ ->]. now apply in_members in He.
Qed.

(** What a conflict record emitted for a group says. *)
Lemma group_paths (entries : list Entry) (k : string) (items : list Entry) :
  In (k, items) (group_by_id entries) ->
  List.length items = List.length (members k entries) /\
  Permutation (map entry_path items) (map entry_path (members k entries)) /\
  StronglySorted str_le (map entry_path items).
Proof.
  intros H. apply (proj2 (group_by_id_spec entries)) in H.
  destruct H as [_ ->].
  pose proof (members_sorted_perm k entries) as HP.
  split; [now apply Permutation_length|].
  split; [now apply Permutation_map|].
  apply StronglySorted_map.
  apply (StronglySorted_filter (key_le str_lt entry_path)).
  apply sorted_by_path_ordered.
Qed.

Lemma members_nonempty_id (i : string) (entries : list Entry) :
  1 <= List.length (members i entries) -> In i (map entry_id entries).
Proof.
  destruct (members i entries) as [|e l] eqn:E; simpl; [lia|].
  intros _. assert (In e (members i entries)) as H by (rewrite E; now left).
  apply in_members in H. destruct H as [H <-]. now apply in_map.
Qed.

(** C1.  The resolver returns; each kept entry is an input entry whose path
    is smallest among the entries of its id, and every id of the input has
    a kept entry; every id carried by two or more entries gets a conflict
    record, and each record lists exactly the paths of its group in
    ascending order; the kept list is ordered by (id, path) and the
    conflicts by id.  Two entries of one id at /a/zeta and /a/alpha, in
    either input order, keep /a/alpha and report both paths, alpha first. *)
Theorem resolve_conflicts_spec :
  (forall entries : list Entry,
      exists kept conflicts,
        resolve_conflicts entries = Done (kept, conflicts) /\
        (forall e, In e kept ->
                   In e entries /\
                   forall e', In e' entries -> entry_id e' = entry_id e ->
                              str_le (entry_path e) (entry_path e')) /\
        (forall i, In i (map entry_id entries) ->
                   exists e, In e kept /\ entry_id e = i) /\
        (forall i, 2 <= List.length (members i entries) ->
                   exists c, In c conflicts /\ conflict_id c = i) /\
        (forall c, In c conflicts ->
                   2 <= List.length (members (conflict_id c) entries) /\
                   Permutation (paths c)
                     (map entry_path (members (conflict_id c) entries)) /\
                   StronglySorted str_le (paths c)) /\
        StronglySorted entry_le kept /\
        StronglySorted conflict_le conflicts) /\
  (forall (i : string) (ez ea : Entry),
      let zeta := with_keys i "/a/zeta" ez in
      let alpha := with_keys i "/a/alpha" ea in
      let expected :=
        Done ([alpha],
              [{| conflict_id := i; paths := ["/a/alpha"; "/a/zeta"] |}]) in
      resolve_conflicts [zeta; alpha] = expected /\
      resolve_conflicts [alpha; zeta] = expected).
Proof.
  split.
  - intros entries. rewrite resolve_conflicts_eq.
    set (d := group_by_id entries).
    eexists _, _. split; [reflexivity|].
    pose proof (group_by_id_spec entries) as [Hnd Hspec]. fold d in Hnd, Hspec.
    repeat split.
    + apply in_sorted, in_heads in H. destruct H as [k [rest H]].
      now apply group_head_least in H.
    + apply in_sorted, in_heads in H. destruct H as [k [rest H]].
      apply group_head_least in H. destruct H as [_ [Hid Hle]].
      intros e' He' E. apply Hle; congruence.
    + intros i Hi.
      destruct (lookup_some_of_key d i) as [items E].
      { apply in_map_iff.
        exists (i, members i (sorted str_lt entry_path entries)).
        split; auto. now apply Hspec. }
      apply in_of_lookup in E.
      destruct items as [|e rest]; [now apply groups_nonempty in E|].
      exists e. split.
      * apply in_sorted, in_heads. eauto.
      * apply (group_items_id entries i (e :: rest)); simpl; auto.
    + intros i Hlen.
      assert (In (i, members i (sorted str_lt entry_path entries)) d) as Hg.
      { apply Hspec. split; auto. apply members_nonempty_id. lia. }
      exists {| conflict_id := i;
                paths := map entry_path
                           (members i (sorted str_lt entry_path entries)) |}.
      split; [|reflexivity].
      apply in_sorted, in_multi.
      exists i, (members i (sorted str_lt entry_path entries)).
      split; [exact Hg|]. split; [|reflexivity].
      now rewrite (proj1 (group_paths entries _ _ Hg)).
    + apply in_sorted, in_multi in H.
      destruct H as [k [items [Hg [Hlen ->]]]]. cbn [conflict_id].
      now rewrite <- (proj1 (group_paths entries _ _ Hg)).
    + apply in_sorted, in_multi in H.
      destruct H as [k [items [Hg [Hlen ->]]]]. cbn [conflict_id paths].
      apply (group_paths entries _ _ Hg).
    + apply in_sorted, in_multi in H.
      destruct H as [k [items [Hg [Hlen ->]]]]. cbn [conflict_id paths].
      apply (group_paths entries _ _ Hg).
    + apply (sorted_ordered pair_lt (fun e => (entry_id e, entry_path e))).
      * apply pair_lt_asym.
      * apply pair_lt_le_trans.
    + apply (sorted_ordered str_lt conflict_id).
      * apply str_lt_asym.
      * apply str_lt_le_trans.
  - intros i ez ea zeta alpha expected.
    assert (Hres : forall l, sorted str_lt entry_path l = [alpha; zeta] ->
                             resolve_conflicts l = expected).
    { intros l E. unfold resolve_conflicts, group_by_id. rewrite E.
      cbn [fold_left group_step setdefault_append zeta alpha with_keys entry_id].
      rewrite String.eqb_refl. reflexivity. }
    split; apply Hres; reflexivity.
Qed.

(** C10.  The resolver returns; the kept ids are pairwise distinct; every
    kept entry is an input entry; every id of the input has exactly one kept
    entry; every conflict record has at least two paths, the first of which
    is the path of the kept entry of its id. *)
Theorem resolve_conflicts_invariants (entries : list Entry) :
  exists kept conflicts,
    resolve_conflicts entries = Done (kept, conflicts) /\
    NoDup (map entry_id kept) /\
    (forall e, In e kept -> In e entries) /\
    (forall i, In i (map entry_id entries) ->
               exists e, In e kept /\ entry_id e = i /\
                         forall e', In e' kept -> entry_id e' = i -> e' = e) /\
    (forall c, In c conflicts ->
               exists e rest,
                 In e kept /\ entry_id e = conflict_id c /\
                 paths c = entry_path e :: rest /\
                 2 <= List.length (paths c)).
Proof.
  rewrite resolve_conflicts_eq.
  set (keyf := fun e : Entry => (entry_id e, entry_path e)).
  pose proof (group_by_id_spec entries) as [Hnd Hspec].
  assert (Hids : NoDup (map entry_id
                          (sorted pair_lt keyf (heads (group_by_id entries))))).
  { eapply Permutation_NoDup.
    - apply Permutation_map, Permutation_sym, sorted_perm.
    - apply heads_ids_nodup; auto. apply group_items_id. }
  eexists _, _. split; [reflexivity|].
  split; [exact Hids|]. split; [|split].
  - intros e He. apply in_sorted, in_heads in He. destruct He as [k [rest H]].
    now apply group_head_least in H.
  - intros i Hi.
    destruct (lookup_some_of_key (group_by_id entries) i) as [items E].
    { apply in_map_iff.
      exists (i, members i (sorted str_lt entry_path entries)).
      split; auto. now apply Hspec. }
    apply in_of_lookup in E.
    destruct items as [|e rest]; [now apply groups_nonempty in E|].
    assert (In e (sorted pair_lt keyf (heads (group_by_id entries)))) as He
        by (apply in_sorted, in_heads; eauto).
    assert (entry_id e = i) as Hid
        by (apply (group_items_id entries i (e :: rest)); simpl; auto).
    exists e. repeat split; auto.
    intros e' He' Hid'.
    apply (NoDup_map_inj entry_id _ e' e Hids); congruence.
  - intros c Hc. apply in_sorted, in_multi in Hc.
    destruct Hc as [k [items [Hg [Hlen ->]]]]. cbn [conflict_id paths].
    destruct items as [|e rest]; [simpl in Hlen; lia|].
    exists e, (map entry_path rest). repeat split.
    + apply in_sorted, in_heads. eauto.
    + apply (group_items_id entries k (e :: rest)); simpl; auto.
    + now rewrite length_map.
Qed.

(* ================================================================= *)
(** ** The manual validator on objects *)

Lemma and_then_done (r : option string) (c : outcome (option string)) :
  (Done r >>> c) = match r with Some msg => Done (Some msg) | None => c end.
Proof. reflexivity. Qed.

Lemma check_required_object (f : list (string * json)) :
  check_required ["id"; "one_liner"] (JObj f) = Done (rule_required f).
Proof.
  unfold rule_required. simpl.
  destruct (has_key "id" f); simpl; auto.
  destruct (has_key "one_liner" f); reflexivity.
Qed.

Lemma check_id_object (f : list (string * json)) :
  check_id (JObj f) = Done (rule_id f).
Proof.
  unfold check_id, rule_id, py_get, py_getitem.
  destruct (lookup "id" f) as [[]|]; simpl; auto.
  destruct (ID_RE_match s); reflexivity.
Qed.

Lemma check_one_liner_object (f : list (string * json)) :
  check_one_liner (JObj f) = Done (rule_one_liner f).
Proof.
  unfold check_one_liner, rule_one_liner, py_get, py_getitem.
  destruct (lookup "one_liner" f) as [[]|]; simpl; auto.
  destruct (120 <? py_len s)%nat; reflexivity.
Qed.

Lemma check_optional_str_object (f : list (string * json)) :
  check_optional_str ["title"] (JObj f) = Done (rule_title f).
Proof.
  unfold rule_title. cbn [check_optional_str py_in bind].
  unfold has_key, py_getitem.
  destruct (lookup "title" f) as [v|]; simpl; auto.
  destruct (is_str v); reflexivity.
Qed.

Lemma not_array_of_strings_items (items : list json) :
  existsb (fun x => negb (is_str x)) items = negb (forallb is_str items).
Proof.
  induction items as [|x l IH]; simpl; auto.
  rewrite IH. now destruct (is_str x).
Qed.

Lemma check_string_array_step (key : string) (rest : list string)
    (f : list (string * json)) :
  check_string_arrays (key :: rest) (JObj f) =
  (Done (rule_string_array key f) >>> check_string_arrays rest (JObj f)).
Proof.
  unfold rule_string_array. cbn [check_string_arrays py_in bind].
  unfold has_key, py_getitem.
  destruct (lookup key f) as [v|]; simpl; auto.
  destruct v; simpl; auto.
  rewrite not_array_of_strings_items.
  destruct (forallb is_str items); reflexivity.
Qed.

Lemma check_entrypoint_items_spec (items : list (string * json)) :
  check_entrypoint_items items =
  Done (if forallb (fun kv => is_str (snd kv)) items then None
        else Some "entrypoints keys and values must be strings").
Proof.
  induction items as [|[k v] l IH]; simpl; auto.
  destruct (is_str v); simpl; auto.
Qed.

Lemma check_entrypoints_object (f : list (string * json)) :
  check_entrypoints (JObj f) = Done (rule_entrypoints f).
Proof.
  unfold check_entrypoints, rule_entrypoints. cbn [py_in bind].
  unfold has_key, py_getitem.
  destruct (lookup "entrypoints" f) as [v|]; simpl; auto.
  destruct v; simpl; auto. apply check_entrypoint_items_spec.
Qed.

Lemma check_extras_object (f : list (string * json)) :
  check_extras (JObj f) = Done (rule_extras f).
Proof.
  unfold check_extras, rule_extras. now destruct (extras_of f).
Qed.

(** On an object the validator never raises, and it reports the first
    failing rule of the list. *)
Lemma validate_metadata_manual_object (f : list (string * json)) :
  validate_metadata_manual (JObj f) = Done (manual_rules f).
Proof.
  unfold validate_metadata_manual, manual_rules.
  rewrite check_required_object, check_id_object, check_one_liner_object,
    check_optional_str_object, check_entrypoints_object, check_extras_object.
  rewrite !check_string_array_step. cbn [check_string_arrays].
  rewrite !and_then_done. cbn [first_error].
  destruct (rule_required f); auto.
  destruct (rule_id f); auto.
  destruct (rule_one_liner f); auto.
  destruct (rule_title f); auto.
  destruct (rule_string_array "tags" f); auto.
  destruct (rule_string_array "stack" f); auto.
  destruct (rule_entrypoints f); auto.
  now destruct (rule_extras f).
Qed.

(** Anything that is not an object is never accepted: it is either
    rejected for a missing field or makes the validator raise. *)
Lemma validate_metadata_manual_accepts_object (data : json) :
  validate_metadata_manual data = Done None -> exists f, data = JObj f.
Proof.
  destruct data; try discriminate; eauto.
  - unfold validate_metadata_manual.
    destruct (check_required ["id"; "one_liner"] (JStr s)) as [[m|]| | |];
      discriminate.
  - unfold validate_metadata_manual.
    destruct (check_required ["id"; "one_liner"] (JArr items)) as [[m|]| | |];
      discriminate.
Qed.

(* ================================================================= *)
(** ** The identifier pattern *)

Lemma take_class_sound (n : nat) (s : string) (k : nat) (r : string) :
  take_class n s = (k, r) ->
  exists body,
    s = body +++ r /\ String.length body = k /\
    string_forall id_tail_char body = true /\ k <= n.
Proof.
  revert s k r. induction n as [|n IH]; intros s k r H.
  - destruct s; inversion H; subst; exists ""; simpl; auto.
  - destruct s as [|c rest]; simpl in H.
    + inversion H; subst. exists "". simpl. repeat split; auto. lia.
    + destruct (id_tail_char c) eqn:Hc.
      * destruct (take_class n rest) as [k' r'] eqn:E. inversion H; subst.
        destruct (IH _ _ _ E) as [body [-> [Hlen [Hall Hle]]]].
        exists (String c body). simpl. rewrite Hc, Hall, Hlen.
        repeat split; auto. lia.
      * inversion H; subst. exists "". simpl. repeat split; auto. lia.
Qed.

Lemma take_class_complete (body tail : string) (n : nat) :
  string_forall id_tail_char body = true ->
  String.length body <= n ->
  tail = "" \/ tail = line_feed ->
  take_class n (body +++ tail) = (String.length body, tail).
Proof.
  revert n. induction body as [|c b IH]; intros n Hall Hlen Htail.
  - simpl. destruct n; [now destruct tail|].
    destruct Htail as [-> | ->]; reflexivity.
  - simpl in *. destruct n as [|n]; [lia|].
    apply andb_true_iff in Hall. destruct Hall as [Hc Hb].
    simpl. rewrite Hc. rewrite IH; auto. lia.
Qed.

(** [ID_RE.match] accepts exactly the strings of the pattern. *)
Lemma ID_RE_match_iff (s : string) : ID_RE_match s = true <-> id_pattern s.
Proof.
  unfold id_pattern. split.
  - destruct s as [|c rest]; [discriminate|].
    unfold ID_RE_match.
    destruct (take_class 64 rest) as [k r] eqn:E.
    intros H. apply andb_true_iff in H. destruct H as [Hc H].
    apply andb_true_iff in H. destruct H as [Hk Hr].
    apply Nat.leb_le in Hk.
    destruct (take_class_sound _ _ _ _ E) as [body [-> [Hlen [Hall Hle]]]].
    exists c, body, r. repeat split; auto; try lia.
    unfold at_dollar in Hr. apply orb_true_iff in Hr.
    destruct Hr as [Hr|Hr]; apply String.eqb_eq in Hr; auto.
  - intros [c [body [tail [-> [Hc [Hall [[Hlo Hhi] Htail]]]]]]].
    unfold ID_RE_match. rewrite take_class_complete by auto.
    rewrite Hc. simpl.
    apply andb_true_iff. split.
    + destruct (String.length body); [lia|reflexivity].
    + unfold at_dollar. destruct Htail as [-> | ->]; reflexivity.
Qed.

Lemma has_key_iff {V : Type} (k : string) (d : list (string * V)) :
  has_key k d = true <-> In k (keys d).
Proof.
  unfold has_key, keys. induction d as [|[k0 v0] d IH]; simpl.
  - split; [discriminate|tauto].
  - destruct (String.eqb_spec k k0) as [->|Hk].
    + split; auto.
    + rewrite IH. split; auto. intros [E|H]; auto. congruence.
Qed.

Lemma id_shape_iff (s : string) :
  id_shape s = true <->
  exists c body,
    s = String c body /\ id_head_char c = true /\
    string_forall id_tail_char body = true /\
    1 <= String.length body <= 64.
Proof.
  split.
  - destruct s as [|c body]; [discriminate|]. cbn [id_shape].
    rewrite !andb_true_iff, !Nat.leb_le. intros [[[Hc Hb] Hlo] Hhi].
    exists c, body. repeat split; auto.
  - intros [c [body [-> [Hc [Hb [Hlo Hhi]]]]]]. cbn [id_shape].
    rewrite !andb_true_iff, !Nat.leb_le. auto.
Qed.

Lemma append_empty (s : string) : s +++ "" = s.
Proof. induction s as [|c s IH]; simpl; congruence. Qed.

Lemma strip_line_feed_iff (s s0 : string) :
  strip_line_feed s = Some s0 <-> s = s0 +++ line_feed.
Proof.
  revert s0. induction s as [|c rest IH]; intros s0.
  - split; [discriminate|]. destruct s0; discriminate.
  - cbn [strip_line_feed]. destruct rest as [|c' rest'].
    + destruct (Ascii.eqb_spec c (ascii_of_nat 10)) as [->|Hc].
      * split.
        -- intros E; inversion E. reflexivity.
        -- destruct s0 as [|c0 [|c1 s1]]; auto; discriminate.
      * split; [discriminate|].
        destruct s0 as [|c0 [|c1 s1]]; try discriminate.
        intros E. inversion E. contradiction.
    + destruct (strip_line_feed (String c' rest')) as [t|];
        cbn [option_map].
      * pose proof (proj1 (IH t) eq_refl) as Ht. split.
        -- intros E; inversion E; subst. simpl. now rewrite Ht.
        -- destruct s0 as [|c0 s1]; [discriminate|].
           simpl. intros E. inversion E as [[Ec Er]].
           pose proof (proj2 (IH s1) Er) as Et. now inversion Et.
      * split; [discriminate|].
        destruct s0 as [|c0 s1]; [discriminate|].
        simpl. intros E. inversion E as [[Ec Er]].
        pose proof (proj2 (IH s1) Er) as Et. discriminate.
Qed.

(** What [ID_RE.match] lets through: the strings of the pattern, and those
    strings followed by one line feed. *)
Lemma ID_RE_match_cases (s : string) :
  ID_RE_match s = id_shape s || id_then_line_feed s.
Proof.
  apply eq_true_iff_eq. rewrite ID_RE_match_iff, orb_true_iff. split.
  - intros [c [body [tail [-> [Hc [Hb [Hlen [->| ->]]]]]]]].
    + left. rewrite append_empty. apply id_shape_iff. eauto 6.
    + right. unfold id_then_line_feed.
      assert (strip_line_feed (String c (body +++ line_feed))
              = Some (String c body)) as ->
          by (now apply strip_line_feed_iff).
      apply id_shape_iff. eauto 6.
  - intros [H|H].
    + apply id_shape_iff in H.
      destruct H as [c [body [-> [Hc [Hb Hlen]]]]].
      exists c, body, "". rewrite append_empty. auto 6.
    + unfold id_then_line_feed in H.
      destruct (strip_line_feed s) as [s0|] eqn:Hs; [|discriminate].
      apply strip_line_feed_iff in Hs. apply id_shape_iff in H.
      destruct H as [c [body [-> [Hc [Hb Hlen]]]]]. subst s.
      exists c, body, line_feed. auto 6.
Qed.

(** C5, as the code has it.  The validator stops at the first failing
    rule, and the presence of both required fields is checked before the
    id: when [id] and [one_liner] are both present and [id] is a string
    outside the pattern, the error cites the pattern (so for "UpperCase",
    "-leadinghyphen" and the empty string); whatever document the validator
    accepts is an object whose [id] is a string of the pattern.  Both halves
    leave aside the identifiers made of a string of the pattern and one
    final line feed. *)
Theorem manual_id_pattern :
  (forall (f : list (string * json)) (s : string),
      In "one_liner" (keys f) ->
      lookup "id" f = Some (JStr s) ->
      id_shape s = false ->
      id_then_line_feed s = false ->
      validate_metadata_manual (JObj f) = Done (Some ID_PATTERN_MESSAGE)) /\
  (forall data : json,
      validate_metadata_manual data = Done None ->
      exists f s,
        data = JObj f /\ lookup "id" f = Some (JStr s) /\
        (id_then_line_feed s = false -> id_shape s = true)) /\
  validate_metadata_manual
    (JObj [("id", JStr "UpperCase"); ("one_liner", JStr "x")])
  = Done (Some ID_PATTERN_MESSAGE) /\
  validate_metadata_manual
    (JObj [("id", JStr "-leadinghyphen"); ("one_liner", JStr "x")])
  = Done (Some ID_PATTERN_MESSAGE) /\
  validate_metadata_manual (JObj [("id", JStr ""); ("one_liner", JStr "x")])
  = Done (Some ID_PATTERN_MESSAGE).
Proof.
  split; [|split; [|repeat split]].
  - intros f s Hol Hid Hshape Hlf.
    rewrite validate_metadata_manual_object.
    unfold manual_rules, rule_required, rule_id, has_key.
    apply has_key_iff in Hol. unfold has_key in Hol.
    rewrite Hid. destruct (lookup "one_liner" f); [|discriminate].
    rewrite ID_RE_match_cases, Hshape, Hlf. reflexivity.
  - intros data H.
    destruct (validate_metadata_manual_accepts_object _ H) as [f ->].
    rewrite validate_metadata_manual_object in H.
    unfold manual_rules in H. cbn [first_error] in H.
    destruct (rule_required f); [discriminate|].
    unfold rule_id in H at 1.
    destruct (lookup "id" f) as [[]|] eqn:Hid; try discriminate.
    destruct (ID_RE_match s) eqn:Hre; [|discriminate].
    exists f, s. split; [reflexivity|]. split; [exact Hid|].
    intros Hlf. rewrite ID_RE_match_cases, Hlf, orb_false_r in Hre.
    exact Hre.
Qed.

(** C5 as stated fails twice.  A document whose [id] is outside the pattern
    but which lacks [one_liner] is rejected for the missing field, not for
    the pattern; and a document whose [id] is a string of the pattern
    followed by a line feed is accepted. *)
Lemma manual_id_pattern_counterexample :
  id_shape "UpperCase" = false /\
  validate_metadata_manual (JObj [("id", JStr "UpperCase")])
  = Done (Some "missing required field: one_liner") /\
  validate_metadata_manual (JObj [("id", JStr "UpperCase")])
  <> Done (Some ID_PATTERN_MESSAGE) /\
  id_shape ("ab" +++ line_feed) = false /\
  validate_metadata_manual
    (JObj [("id", JStr ("ab" +++ line_feed)); ("one_liner", JStr "x")])
  = Done None.
Proof.
  repeat split. discriminate.
Qed.

Lemma manual_id_pattern_witness :
  validate_metadata_manual
    (JObj [("id", JStr "Upper-Case"); ("one_liner", JStr "x")])
  = Done (Some ID_PATTERN_MESSAGE).
Proof.
  apply (proj1 manual_id_pattern) with (s := "Upper-Case").
  - simpl. auto.
  - reflexivity.
  - reflexivity.
  - reflexivity.
Defined.

(* ================================================================= *)
(** ** Unexpected fields *)

Lemma lookup_without_extras (k : string) (f : list (string * json)) :
  str_in k allowed = true -> lookup k (without_extras f) = lookup k f.
Proof.
  intros Hk. unfold without_extras.
  induction f as [|[k0 v0] f IH]; cbn [filter fst]; auto.
  destruct (str_in k0 allowed) eqn:Hk0; cbn [lookup]; rewrite IH; auto.
  destruct (String.eqb_spec k k0) as [->|_]; [congruence|reflexivity].
Qed.

Lemma first_error_extras (f : list (string * json)) :
  manual_rules (without_extras f) = None ->
  manual_rules f = rule_extras f.
Proof.
  assert (rule_required (without_extras f) = rule_required f) as E1
      by (unfold rule_required, has_key;
          now rewrite !lookup_without_extras by reflexivity).
  assert (rule_id (without_extras f) = rule_id f) as E2
      by (unfold rule_id; now rewrite lookup_without_extras by reflexivity).
  assert (rule_one_liner (without_extras f) = rule_one_liner f) as E3
      by (unfold rule_one_liner;
          now rewrite lookup_without_extras by reflexivity).
  assert (rule_title (without_extras f) = rule_title f) as E4
      by (unfold rule_title; now rewrite lookup_without_extras by reflexivity).
  assert (rule_string_array "tags" (without_extras f)
          = rule_string_array "tags" f) as E5
      by (unfold rule_string_array;
          now rewrite lookup_without_extras by reflexivity).
  assert (rule_string_array "stack" (without_extras f)
          = rule_string_array "stack" f) as E6
      by (unfold rule_string_array;
          now rewrite lookup_without_extras by reflexivity).
  assert (rule_entrypoints (without_extras f) = rule_entrypoints f) as E7
      by (unfold rule_entrypoints;
          now rewrite lookup_without_extras by reflexivity).
  unfold manual_rules. rewrite E1, E2, E3, E4, E5, E6, E7.
  cbn [first_error].
  destruct (rule_required f); [discriminate|].
  destruct (rule_id f); [discriminate|].
  destruct (rule_one_liner f); [discriminate|].
  destruct (rule_title f); [discriminate|].
  destruct (rule_string_array "tags" f); [discriminate|].
  destruct (rule_string_array "stack" f); [discriminate|].
  destruct (rule_entrypoints f); [discriminate|].
  intros _. now destruct (rule_extras f).
Qed.

Lemma extras_of_without_extras (f : list (string * json)) :
  extras_of (without_extras f) = [].
Proof.
  unfold extras_of, without_extras, keys.
  induction f as [|[k v] f IH]; cbn [filter map fst]; auto.
  destruct (str_in k allowed) eqn:Hk; cbn [filter map fst]; auto.
  now rewrite Hk.
Qed.

Lemma earlier_rules_message (f : list (string * json)) (msg : string) :
  In (Some msg)
     [rule_required f; rule_id f; rule_one_liner f; rule_title f;
      rule_string_array "tags" f; rule_string_array "stack" f;
      rule_entrypoints f] ->
  starts_with_u msg = false.
Proof.
  unfold rule_required, rule_id, rule_one_liner, rule_title,
    rule_string_array, rule_entrypoints.
  intros H. cbn [In] in H.
  repeat match type of H with
         | _ \/ _ => destruct H as [H|H]
         end;
    try contradiction;
    repeat match type of H with
           | context [match ?x with _ => _ end] => destruct x
           end;
    try discriminate; now inversion H.
Qed.

(** A document rejected with the allowed-set message has passed rules 1 to
    6, so it is accepted once its unexpected fields are removed. *)
Lemma extras_message_is_last (f : list (string * json)) (text : string) :
  manual_rules f = Some ("unexpected fields: " +++ text) ->
  manual_rules (without_extras f) = None.
Proof.
  intros H.
  assert (Hu : forall msg,
             In (Some msg)
                [rule_required f; rule_id f; rule_one_liner f; rule_title f;
                 rule_string_array "tags" f; rule_string_array "stack" f;
                 rule_entrypoints f] ->
             msg <> "unexpected fields: " +++ text).
  { intros msg Hin -> . apply earlier_rules_message in Hin. discriminate Hin. }
  assert (rule_required (without_extras f) = rule_required f) as E1
      by (unfold rule_required, has_key;
          now rewrite !lookup_without_extras by reflexivity).
  assert (rule_id (without_extras f) = rule_id f) as E2
      by (unfold rule_id; now rewrite lookup_without_extras by reflexivity).
  assert (rule_one_liner (without_extras f) = rule_one_liner f) as E3
      by (unfold rule_one_liner;
          now rewrite lookup_without_extras by reflexivity).
  assert (rule_title (without_extras f) = rule_title f) as E4
      by (unfold rule_title; now rewrite lookup_without_extras by reflexivity).
  assert (rule_string_array "tags" (without_extras f)
          = rule_string_array "tags" f) as E5
      by (unfold rule_string_array;
          now rewrite lookup_without_extras by reflexivity).
  assert (rule_string_array "stack" (without_extras f)
          = rule_string_array "stack" f) as E6
      by (unfold rule_string_array;
          now rewrite lookup_without_extras by reflexivity).
  assert (rule_entrypoints (without_extras f) = rule_entrypoints f) as E7
      by (unfold rule_entrypoints;
          now rewrite lookup_without_extras by reflexivity).
  unfold manual_rules in *. rewrite E1, E2, E3, E4, E5, E6, E7.
  cbn [first_error] in *.
  destruct (rule_required f) as [m|];
    [exfalso; apply (Hu m); [cbn; tauto | congruence]|].
  destruct (rule_id f) as [m|];
    [exfalso; apply (Hu m); [cbn; tauto | congruence]|].
  destruct (rule_one_liner f) as [m|];
    [exfalso; apply (Hu m); [cbn; tauto | congruence]|].
  destruct (rule_title f) as [m|];
    [exfalso; apply (Hu m); [cbn; tauto | congruence]|].
  destruct (rule_string_array "tags" f) as [m|];
    [exfalso; apply (Hu m); [cbn; tauto | congruence]|].
  destruct (rule_string_array "stack" f) as [m|];
    [exfalso; apply (Hu m); [cbn; tauto | congruence]|].
  destruct (rule_entrypoints f) as [m|];
    [exfalso; apply (Hu m); [cbn; tauto | congruence]|].
  unfold rule_extras. now rewrite extras_of_without_extras.
Qed.

(** C4, as the code has it.  An object with a field outside the allowed set
    is always rejected; the validator stops at the first failing rule and
    the allowed-set rule is the last one, so the error lists the unexpected
    names, all of them and in ascending order, exactly when the document
    without its unexpected fields is accepted, that is when nothing else is
    wrong with it.  The id "a" is one character short of
    the pattern: the specification's example is rejected for its id, and
    the same document with id "ab" is rejected listing ['foo']. *)
Theorem manual_unexpected_fields :
  (forall f : list (string * json),
      extras_of f <> [] ->
      exists msg, validate_metadata_manual (JObj f) = Done (Some msg)) /\
  (forall f : list (string * json),
      extras_of f <> [] ->
      (validate_metadata_manual (JObj (without_extras f)) = Done None <->
       exists names,
         validate_metadata_manual (JObj f)
         = Done (Some ("unexpected fields: " +++ py_repr_list names)) /\
         Permutation names (extras_of f) /\
         StronglySorted str_le names)) /\
  validate_metadata_manual
    (JObj [("id", JStr "ab"); ("one_liner", JStr "x"); ("foo", JInt 1)])
  = Done (Some "unexpected fields: ['foo']") /\
  validate_metadata_manual
    (JObj [("id", JStr "a"); ("one_liner", JStr "x"); ("foo", JInt 1)])
  = Done (Some ID_PATTERN_MESSAGE).
Proof.
  split; [|split; [|split; reflexivity]].
  - intros f Hex. rewrite validate_metadata_manual_object.
    destruct (manual_rules f) as [msg|] eqn:E; [eauto|].
    exfalso. unfold manual_rules in E. cbn [first_error] in E.
    destruct (rule_required f); [discriminate|].
    destruct (rule_id f); [discriminate|].
    destruct (rule_one_liner f); [discriminate|].
    destruct (rule_title f); [discriminate|].
    destruct (rule_string_array "tags" f); [discriminate|].
    destruct (rule_string_array "stack" f); [discriminate|].
    destruct (rule_entrypoints f); [discriminate|].
    unfold rule_extras in E.
    destruct (extras_of f); [now apply Hex | discriminate].
  - intros f Hex. rewrite !validate_metadata_manual_object. split.
    + intros Hok. inversion Hok as [Hok'].
      rewrite (first_error_extras f Hok').
      unfold rule_extras. destruct (extras_of f) as [|x l] eqn:E; [tauto|].
      eexists. split; [reflexivity|]. split.
      * apply sorted_perm.
      * apply (sorted_ordered str_lt (fun k : string => k)).
        -- apply str_lt_asym.
        -- apply str_lt_le_trans.
    + intros [names [Hmsg _]]. injection Hmsg as Hmsg.
      now rewrite (extras_message_is_last f _ Hmsg).
Qed.

(** C4 as stated fails on the specification's own example. *)
Lemma manual_unexpected_fields_counterexample :
  let f := [("id", JStr "a"); ("one_liner", JStr "x"); ("foo", JInt 1)] in
  extras_of f = ["foo"] /\
  validate_metadata_manual (JObj f) = Done (Some ID_PATTERN_MESSAGE) /\
  validate_metadata_manual (JObj f)
  <> Done (Some ("unexpected fields: " +++ py_repr_list ["foo"])).
Proof.
  repeat split. discriminate.
Qed.

Lemma manual_unexpected_fields_witness :
  exists names,
    validate_metadata_manual
      (JObj [("id", JStr "ab"); ("one_liner", JStr "x"); ("foo", JInt 1)])
    = Done (Some ("unexpected fields: " +++ py_repr_list names)) /\
    Permutation names ["foo"] /\
    StronglySorted str_le names.
Proof.
  apply (proj1 (proj1 (proj2 manual_unexpected_fields)
                  [("id", JStr "ab"); ("one_liner", JStr "x"); ("foo", JInt 1)]
                  ltac:(discriminate))).
  reflexivity.
Defined.

(* ================================================================= *)
(** ** The tree scanner *)

(** Induction over trees, with the hypothesis available for every child. *)
Lemma Node_nested_ind (P : Node -> Prop) :
  (forall c m, P (File c m)) ->
  (forall children,
      Forall (fun ch => P (snd ch)) children -> P (Dir children)) ->
  forall n, P n.
Proof.
  intros Hfile Hdir. fix IH 1. intros [c m|children].
  - apply Hfile.
  - apply Hdir. induction children as [|[name child] l IHl]; constructor.
    + apply IH.
    + exact IHl.
Qed.

(** The two cases of a directory. *)
Lemma scan_node_dir (env : Env) (strict : bool) (current : string)
    (children : list (string * Node)) (st : scan_state) :
  scan_node env strict current (Dir children) st =
  if has_repo_marker children then visit_repo env strict current children st
  else walk_with (scan_node env strict) current children st.
Proof.
  cbn [scan_node]. unfold has_repo_marker.
  destruct (is_repo_root (dirnames_of children) (filenames_of children));
    [reflexivity|].
  revert st. induction children as [|[name child] l IH]; intros st;
    [reflexivity|].
  cbn -[str_in scan_node path_join]. destruct child as [c m|sub].
  - apply IH.
  - destruct (str_in name SKIP_DIRS); [apply IH|].
    destruct (scan_node env strict (path_join current name) (Dir sub) st);
      cbn [bind]; auto.
Qed.





(** What a visit of a repository root can do to the state. *)
Lemma visit_repo_done (env : Env) (strict : bool) (current : string)
    (children : list (string * Node)) (st st' : scan_state) :
  visit_repo env strict current children st = Done st' ->
  st' = st \/
  (exists w, st' = add_warning st w /\ strict = false /\
             warning_path w = path_join current METADATA_NAME) \/
  (exists e, st' = add_entry st e /\ entry_path e = current).
Proof.
  unfold visit_repo.
  destruct (lookup METADATA_NAME children) as [node|];
    [|intros E; inversion E; auto].
  destruct (load_json (path_join current METADATA_NAME) (Some node))
    as [data err].
  destruct (truthy err).
  - destruct strict; [discriminate|].
    intros E; inversion E. right; left. eauto.
  - destruct (validate_metadata_schema env data) as [v_err| | |];
      try discriminate. cbn [bind].
    destruct (truthy v_err).
    + destruct strict; [discriminate|].
      intros E; inversion E. right; left. eauto.
    + destruct (make_entry data current (mtime_of node)) as [e| | |] eqn:Hm;
        try discriminate. cbn [bind].
      intros E; inversion E. right; right. exists e. split; auto.
      unfold make_entry in Hm.
      repeat match type of Hm with
             | bind ?m _ = Done _ => destruct m; try discriminate; cbn [bind] in Hm
             end.
      destruct a; try discriminate. now inversion Hm.
Qed.

(** A nested repository yields one entry, the outer one, also when the scan
    starts above it. *)
Example nested_repo_scanned_once :
  exists e,
    scan_projects manual_env "/root"
      (Dir [("outer", Dir nested_repo_children)]) false = Done ([e], []) /\
    entry_id e = "outer" /\ entry_path e = "/root/outer".
Proof. eexists. repeat split. Qed.

(* ----------------------------------------------------------------- *)
(** *** Pruning *)

Lemma prune_child_pair (k : string) (child : Node) :
  prune_child prune_skipped (k, child) =
  (k, match child with
      | File c m => File c m
      | Dir _ => if str_in k SKIP_DIRS then Dir [] else prune_skipped child
      end).
Proof. reflexivity. Qed.

Lemma prune_skipped_names (children : list (string * Node)) :
  let pruned := map (prune_child prune_skipped) children in
  dirnames_of pruned = dirnames_of children /\
  filenames_of pruned = filenames_of children /\
  (forall name,
      lookup name pruned = None /\ lookup name children = None \/
      (exists c m, lookup name pruned = Some (File c m) /\
                   lookup name children = Some (File c m)) \/
      (exists l l', lookup name pruned = Some (Dir l) /\
                    lookup name children = Some (Dir l'))).
Proof.
  unfold dirnames_of, filenames_of.
  induction children as [|[k child] l [IHd [IHf IHl]]].
  - repeat split. intros name. left. auto.
  - cbn [map]. rewrite prune_child_pair. cbn [filter snd lookup].
    repeat split.
    + destruct child; [exact IHd|].
      destruct (str_in k SKIP_DIRS); cbn [is_dir map fst prune_skipped];
        now rewrite IHd.
    + destruct child; cbn [is_dir negb map fst]; [now rewrite IHf|].
      destruct (str_in k SKIP_DIRS); cbn [is_dir negb prune_skipped];
        exact IHf.
    + intros name. destruct (String.eqb name k); [|apply IHl].
      destruct child; [right; left; eauto|].
      right; right.
      destruct (str_in k SKIP_DIRS); cbn [prune_skipped]; eauto.
Qed.

Lemma visit_repo_same_lookup (env : Env) (strict : bool) (current : string)
    (l1 l2 : list (string * Node)) (st : scan_state) :
  (lookup METADATA_NAME l1 = None /\ lookup METADATA_NAME l2 = None \/
   (exists c m, lookup METADATA_NAME l1 = Some (File c m) /\
                lookup METADATA_NAME l2 = Some (File c m)) \/
   (exists l l', lookup METADATA_NAME l1 = Some (Dir l) /\
                 lookup METADATA_NAME l2 = Some (Dir l'))) ->
  visit_repo env strict current l1 st = visit_repo env strict current l2 st.
Proof.
  unfold visit_repo.
  intros [[-> ->]|[[c [m [-> ->]]]|[l [l' [-> ->]]]]]; reflexivity.
Qed.

(** C7.  Emptying every denylisted directory of a tree, at every depth,
    leaves the result of the scan as it is, with or without a repository
    marker next to the directory: nothing inside a denylisted directory is
    ever read, whatever it contains. *)
Theorem skipped_directories_never_scanned (env : Env) (strict : bool)
    (n : Node) :
  forall (current : string) (st : scan_state),
    scan_node env strict current (prune_skipped n) st
    = scan_node env strict current n st.
Proof.
  induction n as [c m|children IH] using Node_nested_ind; intros current st.
  - reflexivity.
  - cbn [prune_skipped].
    destruct (prune_skipped_names children) as [Hd [Hf Hl]].
    rewrite !scan_node_dir. unfold has_repo_marker. rewrite Hd, Hf.
    destruct (is_repo_root (dirnames_of children) (filenames_of children)).
    + apply visit_repo_same_lookup, Hl.
    + clear Hd Hf Hl.
      revert st. induction IH as [|[name child] l Hchild _ IHl]; intros st.
      * reflexivity.
      * cbn [map]. rewrite prune_child_pair. cbn [walk_with].
        destruct child as [c m|sub]; [apply IHl|].
        destruct (str_in name SKIP_DIRS); [apply IHl|].
        cbn [snd prune_skipped] in Hchild. cbn [prune_skipped].
        rewrite Hchild.
        destruct (scan_node env strict (path_join current name) (Dir sub) st);
          cbn [bind]; auto.
Qed.

(** A repository inside [node_modules] is not found, and a file that merely
    has a denylisted name changes nothing. *)
Example pruned_tree_scan :
  exists e,
    scan_projects manual_env "/root" pruned_tree false = Done ([e], []) /\
    entry_id e = "app" /\ entry_path e = "/root/app".
Proof. eexists. repeat split. Qed.

(* ----------------------------------------------------------------- *)
(** *** From one visit to the whole walk *)

Section ScanLift.
Variables (env : Env) (strict : bool).
Variable Step : scan_state -> scan_state -> Prop.
Variable Fails : outcome scan_state -> Prop.
Hypothesis Step_refl : forall st, Step st st.
Hypothesis Step_trans : forall a b c, Step a b -> Step b c -> Step a c.
Hypothesis visit_ok :
  forall current children st,
    result_satisfies Step Fails st (visit_repo env strict current children st).

Lemma walk_with_lift (current : string) (l : list (string * Node)) :
  Forall (fun ch => forall cur st,
              result_satisfies Step Fails st
                (scan_node env strict cur (snd ch) st)) l ->
  forall st,
    result_satisfies Step Fails st
      (walk_with (scan_node env strict) current l st).
Proof.
  induction 1 as [|[name child] l Hchild _ IHl]; intros st.
  - apply Step_refl.
  - cbn [walk_with]. destruct child as [c m|sub]; [apply IHl|].
    destruct (str_in name SKIP_DIRS); [apply IHl|].
    specialize (Hchild (path_join current name) st). cbn [snd] in Hchild.
    destruct (scan_node env strict (path_join current name) (Dir sub) st)
      as [a| | |]; cbn [bind]; try exact Hchild.
    specialize (IHl a).
    destruct (walk_with (scan_node env strict) current l a); cbn in *; auto.
    eapply Step_trans; eauto.
Qed.

Lemma scan_node_lift (n : Node) :
  forall current st,
    result_satisfies Step Fails st (scan_node env strict current n st).
Proof.
  induction n as [c m|children IH] using Node_nested_ind; intros current st.
  - apply Step_refl.
  - rewrite scan_node_dir. destruct (has_repo_marker children).
    + apply visit_ok.
    + now apply walk_with_lift.
Qed.
End ScanLift.

(* ----------------------------------------------------------------- *)
(** *** Missing metadata *)

Lemma first_error_in (rules : list (option string)) (msg : string) :
  first_error rules = Some msg -> In (Some msg) rules.
Proof.
  induction rules as [|[m|] l IH]; cbn [first_error]; try discriminate.
  - intros E. inversion E. now left.
  - intros E. right. auto.
Qed.

Ltac rule_message E :=
  repeat match type of E with
         | (if ?b then _ else _) = _ => destruct b
         | match ?x with _ => _ end = _ => destruct x
         end;
  inversion E; reflexivity.

Lemma manual_rules_message_not_missing (f : list (string * json))
    (msg : string) :
  manual_rules f = Some msg -> not_missing_reason msg.
Proof.
  unfold not_missing_reason, manual_rules. intros E.
  apply first_error_in in E.
  repeat (destruct E as [E|E]); try contradiction.
  - unfold rule_required in E. rule_message E.
  - unfold rule_id in E. rule_message E.
  - unfold rule_one_liner in E. rule_message E.
  - unfold rule_title in E. rule_message E.
  - unfold rule_string_array in E. rule_message E.
  - unfold rule_string_array in E. rule_message E.
  - unfold rule_entrypoints in E. rule_message E.
  - unfold rule_extras in E. rule_message E.
Qed.

Lemma manual_message_not_missing (data : json) (msg : string) :
  validate_metadata_manual data = Done (Some msg) -> not_missing_reason msg.
Proof.
  destruct data; try discriminate.
  - unfold validate_metadata_manual. cbn [check_required py_in bind].
    destruct (str_contains "id" s); cbn [negb];
      [|intros E; inversion E; reflexivity].
    destruct (str_contains "one_liner" s); cbn [negb];
      [discriminate|intros E; inversion E; reflexivity].
  - unfold validate_metadata_manual. cbn [check_required py_in bind].
    destruct (existsb _ items); cbn [negb];
      [|intros E; inversion E; reflexivity].
    destruct (existsb _ items); cbn [negb];
      [discriminate|intros E; inversion E; reflexivity].
  - rewrite validate_metadata_manual_object. intros E. inversion E.
    now apply (manual_rules_message_not_missing fields).
Qed.

Lemma validator_message_not_missing (env : Env) (data : json) (msg : string) :
  validate_metadata_schema env data = Done (Some msg) ->
  not_missing_reason msg.
Proof.
  unfold validate_metadata_schema.
  destruct (jsonschema env) as [validate|];
    [|apply manual_message_not_missing].
  destruct (load_json (schema_path env) (schema_file env)) as [schema err].
  destruct (truthy err); [intros E; inversion E; reflexivity|].
  destruct (validate data schema); intros E; inversion E. reflexivity.
Qed.

(** Neither the validator nor the construction of an entry raises
    [SystemExit]. *)
Lemma validate_metadata_manual_no_exit (data : json) (msg : string) :
  validate_metadata_manual data <> SystemExit msg.
Proof.
  destruct data; try discriminate.
  - unfold validate_metadata_manual.
    destruct (check_required ["id"; "one_liner"] (JStr s)) as [[m|]| | |] eqn:E;
      try discriminate.
    cbn in E. destruct (str_contains "id" s); try discriminate.
    destruct (str_contains "one_liner" s); discriminate.
  - unfold validate_metadata_manual.
    destruct (check_required ["id"; "one_liner"] (JArr items))
      as [[m|]| | |] eqn:E; try discriminate.
    cbn [check_required py_in bind] in E.
    destruct (existsb _ items); try discriminate.
    destruct (existsb _ items); discriminate.
  - rewrite validate_metadata_manual_object. discriminate.
Qed.

Lemma validate_metadata_schema_no_exit (env : Env) (data : json)
    (msg : string) :
  validate_metadata_schema env data <> SystemExit msg.
Proof.
  unfold validate_metadata_schema.
  destruct (jsonschema env) as [validate|];
    [|apply validate_metadata_manual_no_exit].
  destruct (load_json (schema_path env) (schema_file env)) as [schema err].
  destruct (truthy err); [discriminate|].
  destruct (validate data schema); discriminate.
Qed.

Lemma make_entry_no_exit (data : json) (current : string) (mtime : Z)
    (msg : string) :
  make_entry data current mtime <> SystemExit msg.
Proof.
  destruct data; try discriminate.
  unfold make_entry, copy_optional. cbn [py_getitem py_in].
  destruct (lookup "id" fields) as [v_id|]; [|discriminate].
  destruct (lookup "one_liner" fields); [|discriminate].
  cbn [bind]. unfold has_key.
  destruct (lookup "title" fields); destruct (lookup "tags" fields);
    destruct (lookup "stack" fields); destruct (lookup "entrypoints" fields);
    cbn [bind]; destruct v_id; discriminate.
Qed.

Lemma visit_repo_messages (env : Env) (strict : bool) (current : string)
    (children : list (string * Node)) (st : scan_state) :
  result_satisfies
    (fun st st' => forall w, In w (snd st') ->
                             In w (snd st) \/ not_missing_reason (message w))
    (fun r => match r with
              | SystemExit msg => not_missing_reason msg
              | _ => True
              end)
    st (visit_repo env strict current children st).
Proof.
  unfold visit_repo.
  destruct (lookup METADATA_NAME children) as [node|]; [|cbn; auto].
  destruct (load_json (path_join current METADATA_NAME) (Some node))
    as [data err] eqn:Hload.
  destruct (truthy err) eqn:Herr.
  - assert (not_missing_reason (text_of err)) as Hmsg.
    { destruct node as [[v|exc] m|sub]; inversion Hload; subst;
        try discriminate; reflexivity. }
    destruct strict; cbn; auto.
    intros w Hw. apply in_app_or in Hw. destruct Hw as [Hw|[<-|[]]]; auto.
  - destruct (validate_metadata_schema env data) as [v_err|msg| |] eqn:Hv;
      cbn [bind result_satisfies]; auto;
      [|now apply validate_metadata_schema_no_exit in Hv].
    destruct (truthy v_err) eqn:Hverr.
    + assert (not_missing_reason (text_of v_err)) as Hmsg.
      { destruct v_err as [msg|]; [|discriminate].
        eapply validator_message_not_missing; eauto. }
      destruct strict; cbn; auto.
      intros w Hw. apply in_app_or in Hw. destruct Hw as [Hw|[<-|[]]]; auto.
    + destruct (make_entry data current (mtime_of node)) as [e|msg| |] eqn:He;
        cbn; auto.
      now apply make_entry_no_exit in He.
Qed.

(** C8.  At a repository root without a metadata file the scan leaves the
    state as it is: no entry, no warning, in both modes.  The loader is only
    ever called on a file that is present, so over a whole tree no warning
    and no abort message of the scanner is a missing-file reason. *)
Theorem missing_metadata_is_silent :
  (forall (env : Env) (strict : bool) (current : string)
          (children : list (string * Node)) (st : scan_state),
      has_repo_marker children = true ->
      lookup METADATA_NAME children = None ->
      scan_node env strict current (Dir children) st = Done st) /\
  (forall (env : Env) (strict : bool) (root : string) (tree : Node),
      match scan_projects env root tree strict with
      | Done (_, warnings) =>
          forall w, In w warnings -> not_missing_reason (message w)
      | SystemExit msg => not_missing_reason msg
      | _ => True
      end) /\
  (forall path, snd (load_json path None) = Some ("missing: " +++ path)).
Proof.
  split; [|split].
  - intros env strict current children st Hrepo Hnone.
    rewrite scan_node_dir, Hrepo. unfold visit_repo. now rewrite Hnone.
  - intros env strict root tree. unfold scan_projects.
    pose proof (scan_node_lift env strict _ _
                  (fun st w Hw => or_introl Hw)
                  (fun a b c Hab Hbc w Hw =>
                     match Hbc w Hw with
                     | or_introl H => Hab w H
                     | or_intror H => or_intror H
                     end)
                  (visit_repo_messages env strict) tree root ([], [])) as H.
    destruct (scan_node env strict root tree ([], [])) as [[es ws]| | |];
      cbn in H; auto.
    intros w Hw. destruct (H w Hw) as [[]|]; auto.
  - reflexivity.
Qed.

Lemma missing_metadata_is_silent_witness :
  scan_node manual_env false "/root/bare" (Dir bare_repo_children) ([], [])
  = Done ([], []).
Proof.
  apply (proj1 missing_metadata_is_silent); reflexivity.
Defined.

(* ================================================================= *)
(** ** Strict and lenient runs *)

Lemma visit_repo_strict_counterpart (env : Env) (current : string)
    (children : list (string * Node)) (st : scan_state) :
  strict_counterpart st (visit_repo env false current children st)
                     (visit_repo env true current children st).
Proof.
  unfold visit_repo.
  destruct (lookup METADATA_NAME children) as [node|]; [|cbn; auto].
  destruct (load_json (path_join current METADATA_NAME) (Some node))
    as [data err].
  destruct (truthy err).
  - cbn. right. eexists _, []. split; reflexivity.
  - destruct (validate_metadata_schema env data) as [v_err| | |]; cbn [bind];
      try exact I.
    destruct (truthy v_err).
    + cbn. right. eexists _, []. split; reflexivity.
    + destruct (make_entry data current (mtime_of node)); cbn; auto.
Qed.

Lemma walk_with_strict_counterpart (env : Env) (current : string)
    (l : list (string * Node)) :
  Forall (fun ch => forall cur st,
              strict_counterpart st
                (scan_node env false cur (snd ch) st)
                (scan_node env true cur (snd ch) st)) l ->
  forall st,
    strict_counterpart st
      (walk_with (scan_node env false) current l st)
      (walk_with (scan_node env true) current l st).
Proof.
  induction 1 as [|[name child] l Hchild _ IHl]; intros st.
  - cbn. auto.
  - cbn [walk_with]. destruct child as [c m|sub]; [apply IHl|].
    destruct (str_in name SKIP_DIRS); [apply IHl|].
    specialize (Hchild (path_join current name) st). cbn [snd] in Hchild.
    destruct (scan_node env false (path_join current name) (Dir sub) st)
      as [a| | |]; cbn [bind]; try exact I.
    specialize (IHl a). unfold strict_counterpart in *.
    destruct (walk_with (scan_node env false) current l a) as [st'| | |];
      try exact I.
    destruct Hchild as [[Ha ->]|[w [rest [Ha ->]]]]; cbn [bind].
    + rewrite <- Ha. exact IHl.
    + right. exists w.
      destruct IHl as [[Hst _]|[w' [rest' [Hst _]]]]; rewrite Hst, Ha.
      * exists rest. auto.
      * exists (rest ++ w' :: rest'). rewrite <- app_assoc. auto.
Qed.

(** Wherever the lenient scan completes, the strict scan either returns
    the same result (no warning) or aborts on the first warning. *)
Lemma scan_node_strict_counterpart (env : Env) (n : Node) :
  forall current st,
    strict_counterpart st (scan_node env false current n st)
                       (scan_node env true current n st).
Proof.
  induction n as [c m|children IH] using Node_nested_ind; intros current st.
  - cbn. auto.
  - rewrite !scan_node_dir. destruct (has_repo_marker children).
    + apply visit_repo_strict_counterpart.
    + now apply walk_with_strict_counterpart.
Qed.

(** The part of the strict-mode contract the code keeps: when the lenient
    run completes, it exits with status 0 after writing the manifest and
    one line per warning; and if it warned at all, the strict run over the
    same tree aborts with status 1, on the first of these warnings, before
    the writer is reached. *)
Lemma strict_run_aborts_where_lenient_warns (env : Env)
    (dumps : json -> string) (generated_at root : string) (tree : Node)
    (c : Completed) :
  main env dumps generated_at root tree false = Done c ->
  exit_code (main env dumps generated_at root tree false) = Some 0%Z /\
  written (main env dumps generated_at root tree false)
  = Some (manifest_text c) /\
  exists es ws,
    scan_projects env root tree false = Done (es, ws) /\
    (forall w, In w ws -> In (warning_line w) (stderr c)) /\
    match ws with
    | [] => main env dumps generated_at root tree true = Done c
    | w :: _ =>
        main env dumps generated_at root tree true = SystemExit (message w) /\
        exit_code (main env dumps generated_at root tree true) = Some 1%Z /\
        written (main env dumps generated_at root tree true) = None
    end.
Proof.
  intros Hmain. rewrite Hmain. cbn [exit_code written].
  split; [reflexivity|]. split; [reflexivity|].
  unfold main in *. unfold scan_projects in *.
  pose proof (scan_node_strict_counterpart env tree root ([], [])) as H.
  destruct (scan_node env false root tree ([], [])) as [[es ws]| | |];
    try discriminate.
  exists es, ws. split; [reflexivity|].
  cbn [bind fst snd] in Hmain.
  destruct (resolve_conflicts es) as [[kept conflicts]| | |] eqn:Hres;
    try discriminate.
  cbn [bind fst snd] in Hmain. inversion Hmain; subst c; clear Hmain.
  cbn [stderr]. split.
  - intros w Hw. apply in_or_app. left. now apply in_map.
  - cbn [strict_counterpart snd app] in H.
    destruct H as [[Hws ->]|[w [rest [Hws ->]]]]; subst ws.
    + cbn [bind fst snd]. now rewrite Hres.
    + cbn. auto.
Qed.

(* ----------------------------------------------------------------- *)
(** *** Metadata that is not an object *)

(** C3 fails on the code.  With the manual rule set, a metadata file holding
    a bare number (or [null], [true], a float) makes the validator raise
    [TypeError] at its first membership test, and a list that holds both
    required names makes it raise [AttributeError] at [data.get]; nothing
    catches either, so the scan ends there without strict mode: no warning
    is recorded and the walk does not continue. *)
Theorem scalar_metadata_is_fatal_without_strict :
  (forall data,
      is_str data = false -> is_list data = false -> is_dict data = false ->
      validate_metadata_manual data = Uncaught TypeError) /\
  validate_metadata_manual (JInt 5) = Uncaught TypeError /\
  scan_projects manual_env "/root" scalar_metadata_tree false
  = Uncaught TypeError /\
  validate_metadata_manual (JArr [JStr "id"; JStr "one_liner"])
  = Uncaught AttributeError /\
  scan_projects manual_env "/root/repo" list_metadata_tree false
  = Uncaught AttributeError.
Proof.
  split; [|repeat split].
  intros data Hs Hl Hd. destruct data; try discriminate; reflexivity.
Qed.

(** C2 fails on the code for the same reason.  The tree holds a metadata
    file that fails to load and one that holds the number 5.  Strict mode
    aborts at the first with status 1 and writes nothing; without strict
    mode the first gives a warning, the second raises [TypeError], and the
    run ends with status 1 and no manifest. *)
Theorem nonstrict_run_dies_on_scalar_metadata
    (dumps : json -> string) (generated_at : string) :
  let strict_run :=
    main manual_env dumps generated_at "/root" scalar_metadata_tree true in
  let lenient_run :=
    main manual_env dumps generated_at "/root" scalar_metadata_tree false in
  strict_run
  = SystemExit "invalid json: Expecting value: line 1 column 1 (char 0)" /\
  exit_code strict_run = Some 1%Z /\
  written strict_run = None /\
  lenient_run = Uncaught TypeError /\
  exit_code lenient_run = Some 1%Z /\
  written lenient_run = None.
Proof. repeat split. Qed.

(* ================================================================= *)
(** ** Independence of the traversal order *)

(** *** The scan only appends to its state *)

Lemma extend_empty (st : scan_state) : extend st empty_state = st.
Proof. destruct st. unfold extend. cbn. now rewrite !app_nil_r. Qed.

Lemma extend_assoc (a b c : scan_state) :
  extend (extend a b) c = extend a (extend b c).
Proof. unfold extend. cbn. now rewrite !app_assoc. Qed.

Lemma frame_frame (a b : scan_state) (r : outcome scan_state) :
  frame a (frame b r) = frame (extend a b) r.
Proof. destruct r; cbn; auto. now rewrite extend_assoc. Qed.

Lemma extend_add_warning (st : scan_state) (w : WarningItem) :
  extend st (add_warning empty_state w) = add_warning st w.
Proof. unfold extend, add_warning. cbn. now rewrite app_nil_r. Qed.

Lemma extend_add_entry (st : scan_state) (e : Entry) :
  extend st (add_entry empty_state e) = add_entry st e.
Proof. unfold extend, add_entry. cbn. now rewrite app_nil_r. Qed.

Lemma visit_repo_frame (env : Env) (strict : bool) (current : string)
    (children : list (string * Node)) (st : scan_state) :
  visit_repo env strict current children st =
  frame st (visit_repo env strict current children empty_state).
Proof.
  unfold visit_repo.
  destruct (lookup METADATA_NAME children) as [node|];
    [|cbn; now rewrite extend_empty].
  destruct (load_json (path_join current METADATA_NAME) (Some node))
    as [data err].
  destruct (truthy err).
  - destruct strict; cbn [frame bind]; now rewrite ?extend_add_warning.
  - destruct (validate_metadata_schema env data) as [v_err| | |]; cbn [bind frame];
      auto.
    destruct (truthy v_err).
    + destruct strict; cbn [frame bind]; now rewrite ?extend_add_warning.
    + destruct (make_entry data current (mtime_of node)); cbn [frame bind];
        now rewrite ?extend_add_entry.
Qed.

Lemma walk_with_frame (env : Env) (strict : bool) (current : string)
    (l : list (string * Node)) :
  Forall (fun ch => forall cur st,
              scan_node env strict cur (snd ch) st
              = frame st (scan_node env strict cur (snd ch) empty_state)) l ->
  forall st,
    walk_with (scan_node env strict) current l st
    = frame st (walk_with (scan_node env strict) current l empty_state).
Proof.
  induction 1 as [|[name child] l Hchild _ IHl]; intros st.
  - cbn. now rewrite extend_empty.
  - cbn [walk_with]. destruct child as [c m|sub]; [apply IHl|].
    destruct (str_in name SKIP_DIRS); [apply IHl|].
    cbn [snd] in Hchild. rewrite Hchild.
    destruct (scan_node env strict (path_join current name) (Dir sub)
                        empty_state) as [d| | |]; cbn [frame bind]; auto.
    rewrite (IHl (extend st d)), (IHl d).
    symmetry. apply frame_frame.
Qed.

Lemma scan_node_frame (env : Env) (strict : bool) (n : Node) :
  forall current st,
    scan_node env strict current n st
    = frame st (scan_node env strict current n empty_state).
Proof.
  induction n as [c m|children IH] using Node_nested_ind; intros current st.
  - cbn. now rewrite extend_empty.
  - rewrite !scan_node_dir. destruct (has_repo_marker children).
    + apply visit_repo_frame.
    + now apply walk_with_frame.
Qed.

(** The walk, one child at a time. *)
Lemma walk_with_cons (env : Env) (strict : bool) (current : string)
    (ch : string * Node) (l : list (string * Node)) :
  walk_with (scan_node env strict) current (ch :: l) empty_state =
  d <- child_delta env strict current ch ;;
  frame d (walk_with (scan_node env strict) current l empty_state).
Proof.
  destruct ch as [name child]. unfold child_delta. cbn [walk_with fst snd].
  assert (Hempty : walk_with (scan_node env strict) current l empty_state
                   = frame empty_state
                       (walk_with (scan_node env strict) current l empty_state)).
  { destruct (walk_with (scan_node env strict) current l empty_state)
      as [[es ws]| | |]; reflexivity. }
  destruct child as [c m|sub]; [exact Hempty|].
  destruct (str_in name SKIP_DIRS); [exact Hempty|].
  destruct (scan_node env strict (path_join current name) (Dir sub)
                      empty_state) as [d| | |]; cbn [bind]; auto.
  apply walk_with_frame.
  apply Forall_forall. intros x _ cur st. apply scan_node_frame.
Qed.

(** *** Well-formed trees *)

Lemma nodupb_iff (l : list string) : nodupb l = true <-> NoDup l.
Proof.
  induction l as [|x l IH]; cbn [nodupb].
  - split; auto. constructor.
  - rewrite andb_true_iff, negb_true_iff, IH. split.
    + intros [Hx Hl]. constructor; auto.
      intros Hin. apply str_in_iff in Hin. congruence.
    + intros H. inversion H as [|? ? Hx Hl]; subst. split; auto.
      destruct (str_in x l) eqn:E; auto. apply str_in_iff in E. contradiction.
Qed.

Lemma wf_dir_iff (l : list (string * Node)) :
  wf_tree (Dir l) = true <->
  NoDup (keys l) /\
  Forall (fun k => valid_name k = true) (keys l) /\
  Forall (fun ch => wf_tree (snd ch) = true) l.
Proof.
  cbn [wf_tree]. rewrite !andb_true_iff, nodupb_iff, !forallb_forall.
  rewrite !Forall_forall. tauto.
Qed.

Lemma keys_perm (l1 l2 : list (string * Node)) :
  Permutation l1 l2 -> Permutation (keys l1) (keys l2).
Proof. apply Permutation_map. Qed.

Lemma wf_dir_perm (l1 l2 : list (string * Node)) :
  Permutation l1 l2 -> wf_tree (Dir l1) = true -> wf_tree (Dir l2) = true.
Proof.
  intros HP. rewrite !wf_dir_iff. intros [Hnd [Hv Hw]].
  pose proof (keys_perm _ _ HP) as HK. repeat split.
  - eapply Permutation_NoDup; eauto.
  - eapply Permutation_Forall; eauto.
  - eapply Permutation_Forall; eauto.
Qed.

Lemma str_in_perm (s : string) (l1 l2 : list string) :
  Permutation l1 l2 -> str_in s l1 = str_in s l2.
Proof.
  intros HP.
  destruct (str_in s l1) eqn:E1, (str_in s l2) eqn:E2; auto.
  - apply str_in_iff in E1. apply (Permutation_in _ HP) in E1.
    apply str_in_iff in E1. congruence.
  - apply str_in_iff in E2. apply (Permutation_in _ (Permutation_sym HP)) in E2.
    apply str_in_iff in E2. congruence.
Qed.

(** A repository marker is a child named [.git], file or directory. *)
Lemma has_repo_marker_keys (l : list (string * Node)) :
  has_repo_marker l = str_in ".git" (keys l).
Proof.
  assert (forall a b : bool,
             (if a then true else if b then true else false) = a || b) as Hor
      by (intros [] []; reflexivity).
  unfold has_repo_marker, is_repo_root. rewrite Hor.
  unfold dirnames_of, filenames_of, keys, str_in.
  induction l as [|[k child] l IH]; auto.
  cbn [filter map fst snd existsb].
  rewrite <- IH.
  destruct child; cbn [is_dir negb map fst existsb];
    destruct (String.eqb ".git" k); cbn [orb]; auto.
  now rewrite orb_true_r.
Qed.

(** *** Results up to order *)

Lemma same_found_refl (r : outcome scan_state) : same_found r r.
Proof. destruct r; cbn; auto. Qed.

Lemma same_found_trans (r1 r2 r3 : outcome scan_state) :
  same_found r1 r2 -> same_found r2 r3 -> same_found r1 r3.
Proof.
  destruct r1, r2, r3; cbn; try tauto.
  intros [H1 H2] [H3 H4]. split; etransitivity; eauto.
Qed.

Lemma same_found_step (c1 c2 w1 w2 : outcome scan_state) :
  same_found c1 c2 -> same_found w1 w2 ->
  same_found (d <- c1 ;; frame d w1) (d <- c2 ;; frame d w2).
Proof.
  destruct c1 as [d1| | |], c2 as [d2| | |]; cbn; try tauto;
    destruct w1 as [e1| | |], w2 as [e2| | |]; cbn; try tauto.
  intros [H1 H2] [H3 H4]. split; now apply Permutation_app.
Qed.

Lemma same_found_swap (cx cy w : outcome scan_state) :
  same_found (d <- cx ;; frame d (d' <- cy ;; frame d' w))
             (d <- cy ;; frame d (d' <- cx ;; frame d' w)).
Proof.
  destruct cx as [dx| | |], cy as [dy| | |], w as [dw| | |]; cbn; auto.
  split; apply Permutation_app_swap_app.
Qed.

Lemma same_node_refl (a : Node) : same_node a a.
Proof. destruct a; cbn; auto. Qed.

Lemma same_node_trans (a b c : Node) :
  same_node a b -> same_node b c -> same_node a c.
Proof.
  destruct a, b, c; cbn; try tauto.
  intros [-> ->] [-> ->]. auto.
Qed.

Lemma same_lookup_refl (o : option Node) : same_lookup o o.
Proof. destruct o; cbn; auto. apply same_node_refl. Qed.

Lemma same_lookup_trans (o1 o2 o3 : option Node) :
  same_lookup o1 o2 -> same_lookup o2 o3 -> same_lookup o1 o3.
Proof.
  destruct o1, o2, o3; cbn; try tauto. apply same_node_trans.
Qed.

Lemma visit_repo_same (env : Env) (strict : bool) (current : string)
    (l1 l2 : list (string * Node)) (st : scan_state) :
  same_lookup (lookup METADATA_NAME l1) (lookup METADATA_NAME l2) ->
  visit_repo env strict current l1 st = visit_repo env strict current l2 st.
Proof.
  unfold visit_repo.
  destruct (lookup METADATA_NAME l1) as [[c1 m1|s1]|],
           (lookup METADATA_NAME l2) as [[c2 m2|s2]|]; cbn; try tauto.
  now intros [-> ->].
Qed.

Lemma lookup_swap (name : string) (x y : string * Node)
    (l : list (string * Node)) :
  fst x <> fst y ->
  lookup name (x :: y :: l) = lookup name (y :: x :: l).
Proof.
  destruct x as [kx vx], y as [ky vy]. cbn [fst lookup]. intros Hne.
  destruct (String.eqb name kx) eqn:Ex, (String.eqb name ky) eqn:Ey; auto.
  apply String.eqb_eq in Ex, Ey. congruence.
Qed.

(** *** Relisting a tree permutes what the scan finds *)

Section TraversalOrder.
Variables (env : Env) (strict : bool).

Lemma child_delta_same (current name : string) (a b : Node) :
  same_node a b ->
  (forall cur, same_found (scan_node env strict cur a empty_state)
                          (scan_node env strict cur b empty_state)) ->
  same_found (child_delta env strict current (name, a))
             (child_delta env strict current (name, b)).
Proof.
  unfold child_delta. cbn [fst snd].
  destruct a, b; cbn [same_node]; try tauto; intros _ H.
  - apply same_found_refl.
  - destruct (str_in name SKIP_DIRS); [apply same_found_refl | apply H].
Qed.

Lemma tree_perm_found (t1 t2 : Node) :
  tree_perm t1 t2 ->
  same_node t1 t2 /\
  (wf_tree t1 = true ->
   wf_tree t2 = true /\
   forall cur, same_found (scan_node env strict cur t1 empty_state)
                          (scan_node env strict cur t2 empty_state)).
Proof.
  apply (tree_perm_mut
           (fun t1 t2 =>
              same_node t1 t2 /\
              (wf_tree t1 = true ->
               wf_tree t2 = true /\
               forall cur,
                 same_found (scan_node env strict cur t1 empty_state)
                            (scan_node env strict cur t2 empty_state)))
           (fun l1 l2 =>
              Permutation (keys l1) (keys l2) /\
              (wf_tree (Dir l1) = true ->
               wf_tree (Dir l2) = true /\
               (forall name, same_lookup (lookup name l1) (lookup name l2)) /\
               forall cur,
                 same_found
                   (walk_with (scan_node env strict) cur l1 empty_state)
                   (walk_with (scan_node env strict) cur l2 empty_state)))).
  - (* a file *)
    intros c m. split; [cbn; auto|]. intros _. split; auto.
    intros cur. apply same_found_refl.
  - (* a directory *)
    intros l1 l2 _ [HK H]. split; [exact I|]. intros Hwf.
    destruct (H Hwf) as [Hwf2 [Hlook Hwalk]]. split; auto.
    intros cur. rewrite !scan_node_dir, !has_repo_marker_keys.
    rewrite <- (str_in_perm ".git" _ _ HK).
    destruct (str_in ".git" (keys l1)).
    + rewrite (visit_repo_same env strict cur l1 l2) by apply Hlook.
      apply same_found_refl.
    + apply Hwalk.
  - (* no children *)
    split; [constructor|]. intros _. split; auto. split.
    + intros name. exact I.
    + intros cur. apply same_found_refl.
  - (* the same first child *)
    intros name a b l1 l2 _ [Hab Ha] _ [HK Hl]. split.
    + cbn. now constructor.
    + intros Hwf. apply wf_dir_iff in Hwf. destruct Hwf as [Hnd [Hv Hw]].
      cbn [keys map fst] in Hnd, Hv.
      inversion Hnd as [|? ? Hname Hnd1]; subst.
      inversion Hv as [|? ? Hvn Hv1]; subst.
      inversion Hw as [|? ? Hwa Hw1]; subst. cbn [snd] in Hwa.
      assert (wf_tree (Dir l1) = true) as Hwf1 by (apply wf_dir_iff; auto).
      destruct (Ha Hwa) as [Hwb Hfound].
      destruct (Hl Hwf1) as [Hwf2 [Hlook Hwalk]].
      apply wf_dir_iff in Hwf2. destruct Hwf2 as [Hnd2 [Hv2 Hw2]].
      split; [|split].
      * apply wf_dir_iff. cbn [keys map fst]. repeat split.
        -- constructor; auto. intros Hin. apply Hname.
           eapply Permutation_in; [apply Permutation_sym; exact HK|exact Hin].
        -- constructor; auto.
        -- constructor; auto.
      * intros n. cbn [lookup]. destruct (String.eqb n name); [exact Hab|].
        apply Hlook.
      * intros cur. rewrite !walk_with_cons.
        apply same_found_step; [|apply Hwalk].
        now apply child_delta_same.
  - (* two children exchanged *)
    intros x y l. split; [apply perm_swap|]. intros Hwf.
    split; [|split].
    + eapply wf_dir_perm; [apply perm_swap | exact Hwf].
    + intros name. rewrite lookup_swap; [apply same_lookup_refl|].
      apply wf_dir_iff in Hwf. destruct Hwf as [Hnd _].
      cbn [keys map] in Hnd. inversion Hnd as [|? ? Hx _]; subst.
      intros E. apply Hx. rewrite E. now left.
    + intros cur. rewrite !walk_with_cons. apply same_found_swap.
  - (* one relisting after another *)
    intros l1 l2 l3 _ [HK1 H1] _ [HK2 H2]. split.
    + etransitivity; eauto.
    + intros Hwf. destruct (H1 Hwf) as [Hwf2 [Hlook1 Hwalk1]].
      destruct (H2 Hwf2) as [Hwf3 [Hlook2 Hwalk2]].
      split; auto. split.
      * intros name. eapply same_lookup_trans; eauto.
      * intros cur. eapply same_found_trans; eauto.
Qed.
End TraversalOrder.

Lemma tree_perm_refl (t : Node) : tree_perm t t.
Proof.
  induction t as [c m|children IH] using Node_nested_ind; constructor.
  induction IH as [|[name child] l Hchild _ IHl]; constructor; auto.
Qed.

(** *** Distinct directories have distinct paths *)

Lemma append_assoc (a b c : string) : (a +++ b) +++ c = a +++ (b +++ c).
Proof. induction a as [|x a IH]; cbn; auto. now rewrite IH. Qed.

Lemma append_nil_r (a : string) : a +++ "" = a.
Proof. induction a as [|x a IH]; cbn; auto. now rewrite IH. Qed.

Lemma append_inj_l (a x y : string) : a +++ x = a +++ y -> x = y.
Proof.
  induction a as [|c a IH]; cbn; auto. intros E. inversion E. auto.
Qed.

Lemma ends_with_slash_append (a n : string) :
  n <> "" -> ends_with_slash (a +++ n) = ends_with_slash n.
Proof.
  intros Hn. induction a as [|c a IH]; auto.
  cbn [String.append ends_with_slash]. rewrite IH.
  destruct (a +++ n) eqn:E; auto.
  destruct a; cbn in E; [contradiction|discriminate].
Qed.

Lemma ends_with_slash_has_char (n : string) :
  ends_with_slash n = true -> has_char "/" n = true.
Proof.
  induction n as [|c n IH]; [discriminate|].
  cbn [ends_with_slash has_char]. destruct n as [|c' n'].
  - intros E. apply Ascii.eqb_eq in E. subst. reflexivity.
  - intros E. rewrite (IH E). apply orb_true_r.
Qed.

Lemma valid_name_parts (n : string) :
  valid_name n = true -> n <> "" /\ has_char "/" n = false.
Proof.
  unfold valid_name. rewrite andb_true_iff, !negb_true_iff.
  intros [H1 H2]. split; auto. now apply String.eqb_neq.
Qed.

(** The path of a child: the parent's path, a separator unless the parent
    is the root [/], and the name. *)
Lemma path_join_form (current name : string) :
  exists sep,
    (forall n, path_join current n = current +++ sep +++ n) /\
    (sep = "" \/ sep = "/").
Proof.
  unfold path_join. destruct (ends_with_slash current).
  - exists "". split; auto.
  - exists "/". split; auto.
Qed.

Lemma path_join_no_slash (current name : string) :
  valid_name name = true -> ends_with_slash (path_join current name) = false.
Proof.
  intros Hv. apply valid_name_parts in Hv. destruct Hv as [Hne Hns].
  assert (ends_with_slash name = false) as Hn.
  { destruct (ends_with_slash name) eqn:E; auto.
    apply ends_with_slash_has_char in E. congruence. }
  unfold path_join. destruct (ends_with_slash current).
  - now rewrite ends_with_slash_append.
  - rewrite <- append_assoc. now rewrite ends_with_slash_append.
Qed.

(** A name is determined by a path that starts with it. *)
Lemma name_of_path (n1 n2 s1 s2 : string) :
  has_char "/" n1 = false -> has_char "/" n2 = false ->
  path_tail s1 -> path_tail s2 ->
  n1 +++ s1 = n2 +++ s2 -> n1 = n2.
Proof.
  revert n2. induction n1 as [|c n1 IH]; intros [|c2 n2] H1 H2 T1 T2 E; auto.
  - cbn in E. destruct T1 as [->|[r ->]]; [discriminate|].
    inversion E; subst. cbn in H2. discriminate.
  - cbn in E. destruct T2 as [->|[r ->]]; [discriminate|].
    inversion E; subst. cbn in H1. discriminate.
  - cbn in E. inversion E; subst.
    cbn [has_char] in H1, H2. apply orb_false_iff in H1, H2.
    f_equal. apply (IH n2); tauto.
Qed.

Lemma from_child_name (current n1 n2 p : string) :
  valid_name n1 = true -> valid_name n2 = true ->
  from_child current n1 p -> from_child current n2 p -> n1 = n2.
Proof.
  intros V1 V2 [s1 [E1 T1]] [s2 [E2 T2]].
  apply valid_name_parts in V1, V2.
  destruct (path_join_form current n1) as [sep [Hj _]].
  rewrite Hj in E1, E2. rewrite E1 in E2.
  rewrite !append_assoc in E2.
  apply append_inj_l in E2. apply append_inj_l in E2.
  apply (name_of_path n1 n2 s1 s2); tauto.
Qed.

(** What lies at or below a child lies, seen from the parent, in that
    child. *)
Lemma at_or_below_child (current name p : string) :
  valid_name name = true ->
  at_or_below (path_join current name) p -> from_child current name p.
Proof.
  intros Hv [->|[n [Hn [s [-> Ts]]]]].
  - exists "". split; [now rewrite append_nil_r | now left].
  - exists ("/" +++ n +++ s). split; [|right; eauto].
    unfold path_join at 1. rewrite (path_join_no_slash current name Hv).
    now rewrite !append_assoc.
Qed.

Section FoundPaths.
Variables (env : Env) (strict : bool).

Lemma visit_repo_found (current : string) (children : list (string * Node))
    (es : list Entry) (ws : list WarningItem) :
  visit_repo env strict current children empty_state = Done (es, ws) ->
  NoDup (map entry_path es) /\
  forall e, In e es -> at_or_below current (entry_path e).
Proof.
  intros H. apply visit_repo_done in H.
  destruct H as [E|[[w [E _]]|[e [E He]]]]; inversion E; subst; cbn.
  - split; [constructor|tauto].
  - split; [constructor|tauto].
  - split; [repeat constructor; cbn; tauto|].
    intros e' [<-|[]]. now left.
Qed.

Lemma walk_with_found (current : string) (l : list (string * Node)) :
  Forall (fun ch =>
            wf_tree (snd ch) = true ->
            forall cur es ws,
              scan_node env strict cur (snd ch) empty_state = Done (es, ws) ->
              NoDup (map entry_path es) /\
              forall e, In e es -> at_or_below cur (entry_path e)) l ->
  wf_tree (Dir l) = true ->
  forall es ws,
    walk_with (scan_node env strict) current l empty_state = Done (es, ws) ->
    NoDup (map entry_path es) /\
    forall e, In e es ->
              exists name, In name (keys l) /\ valid_name name = true /\
                           from_child current name (entry_path e).
Proof.
  induction 1 as [|[name child] l Hchild _ IHl]; intros Hwf es ws Hwalk.
  - inversion Hwalk. split; [constructor|cbn; tauto].
  - apply wf_dir_iff in Hwf. destruct Hwf as [Hnd [Hv Hw]].
    cbn [keys map fst] in Hnd, Hv.
    inversion Hnd as [|? ? Hname Hnd1]; subst.
    inversion Hv as [|? ? Hvn Hv1]; subst.
    inversion Hw as [|? ? Hwc Hw1]; subst. cbn [snd] in Hwc, Hchild.
    assert (wf_tree (Dir l) = true) as Hwf1 by (apply wf_dir_iff; auto).
    rewrite walk_with_cons in Hwalk.
    destruct (child_delta env strict current (name, child))
      as [[e1 w1]| | |] eqn:Hd; try discriminate.
    cbn [bind] in Hwalk.
    destruct (walk_with (scan_node env strict) current l empty_state)
      as [[e2 w2]| | |] eqn:Hrest; try discriminate.
    inversion Hwalk; subst. clear Hwalk.
    destruct (IHl Hwf1 e2 w2 eq_refl) as [Hnd2 Hin2].
    assert (NoDup (map entry_path e1) /\
            forall e, In e e1 -> from_child current name (entry_path e))
      as [Hnd_1 Hin1].
    { unfold child_delta in Hd. cbn [fst snd] in Hd.
      destruct child as [c m|sub].
      - inversion Hd. split; [constructor|cbn; tauto].
      - destruct (str_in name SKIP_DIRS).
        + inversion Hd. split; [constructor|cbn; tauto].
        + destruct (Hchild Hwc _ _ _ Hd) as [Hn Hb]. split; auto.
          intros e He. apply at_or_below_child; auto. }
    cbn [fst]. split.
    + rewrite map_app. apply NoDup_app; auto.
      intros p Hp1 Hp2.
      apply in_map_iff in Hp1, Hp2.
      destruct Hp1 as [x1 [<- Hx1]]. destruct Hp2 as [x2 [E Hx2]].
      destruct (Hin2 _ Hx2) as [n [Hn [Hvn2 Hfrom]]]. rewrite E in Hfrom.
      apply Hname.
      now rewrite (from_child_name current name n _ Hvn Hvn2 (Hin1 _ Hx1) Hfrom).
    + intros e He. apply in_app_or in He. destruct He as [He|He].
      * exists name. cbn [keys map fst]. repeat split; auto. now left.
      * destruct (Hin2 _ He) as [n [Hn [Hvn2 Hfrom]]].
        exists n. cbn [keys map fst]. repeat split; auto. now right.
Qed.

(** The entries found in a well-formed tree have pairwise distinct
    paths. *)
Lemma scan_node_found (n : Node) :
  wf_tree n = true ->
  forall cur es ws,
    scan_node env strict cur n empty_state = Done (es, ws) ->
    NoDup (map entry_path es) /\
    forall e, In e es -> at_or_below cur (entry_path e).
Proof.
  induction n as [c m|children IH] using Node_nested_ind;
    intros Hwf cur es ws H.
  - inversion H. split; [constructor|cbn; tauto].
  - rewrite scan_node_dir in H. destruct (has_repo_marker children).
    + now apply (visit_repo_found cur children es ws).
    + destruct (walk_with_found cur children IH Hwf es ws H) as [Hnd Hin].
      split; auto. intros e He. right.
      destruct (Hin e He) as [name [_ [Hv Hfrom]]]. eauto.
Qed.
End FoundPaths.

(** *** The resolver does not depend on the order of its input *)

Lemma sorted_by_path_perm (l1 l2 : list Entry) :
  Permutation l1 l2 -> NoDup (map entry_path l1) ->
  sorted str_lt entry_path l1 = sorted str_lt entry_path l2.
Proof.
  intros HP Hnd. apply (ordered_unique str_lt entry_path).
  - apply sorted_by_path_ordered.
  - apply sorted_by_path_ordered.
  - rewrite !sorted_perm. exact HP.
  - intros x y Hx Hy Hxy Hyx.
    apply (proj1 (in_sorted str_lt entry_path l1 x)) in Hx.
    apply (proj1 (in_sorted str_lt entry_path l1 y)) in Hy.
    apply (NoDup_map_inj entry_path l1); auto.
    now apply str_lt_connected.
Qed.

Lemma resolve_conflicts_perm (l1 l2 : list Entry) :
  Permutation l1 l2 -> NoDup (map entry_path l1) ->
  resolve_conflicts l1 = resolve_conflicts l2.
Proof.
  intros HP Hnd. unfold resolve_conflicts, group_by_id.
  now rewrite (sorted_by_path_perm l1 l2).
Qed.

(** C9.  Let [t2] be the tree [t1] with its directories listed in any order
    (in particular [t1] itself, by [tree_perm_refl]), names being unique
    within a directory as a file system has them.  Then the run over [t1] completes exactly when the
    run over [t2] does, and when they do the two manifests are the same
    document up to [generated_at]; the file is the serialisation of that
    document followed by a line feed, so equal clock readings give
    byte-identical files. *)
Theorem manifest_independent_of_traversal_order
    (env : Env) (dumps : json -> string) (root : string) (strict : bool)
    (t1 t2 : Node) (now1 now2 : string) :
  wf_tree t1 = true ->
  tree_perm t1 t2 ->
  is_done (main env dumps now1 root t1 strict)
  = is_done (main env dumps now2 root t2 strict) /\
  forall c1 c2,
    main env dumps now1 root t1 strict = Done c1 ->
    main env dumps now2 root t2 strict = Done c2 ->
    exists projects conflicts,
      manifest c1 = manifest_dict root now1 projects conflicts /\
      manifest c2 = manifest_dict root now2 projects conflicts /\
      manifest_text c1 = dumps (manifest c1) +++ line_feed /\
      manifest_text c2 = dumps (manifest c2) +++ line_feed /\
      (now1 = now2 -> manifest_text c1 = manifest_text c2).
Proof.
  intros Hwf HP.
  destruct (tree_perm_found env strict t1 t2 HP) as [_ H].
  destruct (H Hwf) as [_ Hfound]. specialize (Hfound root).
  pose proof (scan_node_found env strict t1 Hwf root) as Hpaths.
  unfold main, scan_projects. fold empty_state.
  destruct (scan_node env strict root t1 empty_state) as [[es1 ws1]| | |];
    destruct (scan_node env strict root t2 empty_state) as [[es2 ws2]| | |];
    cbn in Hfound; try contradiction; cbn [bind is_done];
    try (split; [reflexivity|discriminate]).
  destruct Hfound as [Hes _].
  destruct (Hpaths es1 ws1 eq_refl) as [Hnd _].
  cbn [fst snd].
  rewrite <- (resolve_conflicts_perm es1 es2 Hes Hnd).
  rewrite resolve_conflicts_eq. cbn [bind is_done fst snd].
  split; [reflexivity|].
  intros c1 c2 E1 E2. inversion E1; inversion E2; subst; cbn.
  eexists _, _. repeat split. now intros ->.
Qed.

Lemma manifest_independent_of_traversal_order_witness :
  wf_tree (Dir [twin_zeta; twin_alpha]) = true /\
  is_done (main manual_env (fun _ => "{}") "2026-01-01T00:00:00+00:00" "/a"
             (Dir [twin_zeta; twin_alpha]) false)
  = is_done (main manual_env (fun _ => "{}") "2026-01-02T00:00:00+00:00" "/a"
               (Dir [twin_alpha; twin_zeta]) false).
Proof.
  split; [reflexivity|].
  apply (manifest_independent_of_traversal_order
           manual_env (fun _ => "{}") "/a" false
           (Dir [twin_zeta; twin_alpha]) (Dir [twin_alpha; twin_zeta])).
  - reflexivity.
  - constructor. apply children_perm_swap.
Defined.

(** The specification's determinism example, end to end: the kept entry is
    the one at /a/alpha and the conflict lists alpha before zeta, whichever
    way the directory is listed. *)
Example twin_repositories_resolved :
  forall listing,
    listing = [twin_zeta; twin_alpha] \/ listing = [twin_alpha; twin_zeta] ->
    exists scanned kept,
      scan_projects manual_env "/a" (Dir listing) false = Done scanned /\
      resolve_conflicts (fst scanned)
      = Done ([kept], [{| conflict_id := "twin";
                          paths := ["/a/alpha"; "/a/zeta"] |}]) /\
      entry_path kept = "/a/alpha".
Proof.
  intros listing [-> | ->]; eexists _, _; repeat split.
Qed.

(* ================================================================= *)
(** * Further properties of the code *)

(* ================================================================= *)
(** ** The manual validator *)

Lemma manual_rules_none_iff (f : list (string * json)) :
  manual_rules f = None <->
  rule_required f = None /\ rule_id f = None /\ rule_one_liner f = None /\
  rule_title f = None /\ rule_string_array "tags" f = None /\
  rule_string_array "stack" f = None /\ rule_entrypoints f = None /\
  rule_extras f = None.
Proof.
  unfold manual_rules. cbn [first_error].
  destruct (rule_required f), (rule_id f), (rule_one_liner f), (rule_title f),
    (rule_string_array "tags" f), (rule_string_array "stack" f),
    (rule_entrypoints f), (rule_extras f);
    split; try discriminate; try tauto;
    intros H; repeat (destruct H as [? H]); discriminate.
Qed.

Lemma forallb_Forall {A : Type} (p : A -> bool) (l : list A) :
  forallb p l = true <-> Forall (fun x => p x = true) l.
Proof. rewrite forallb_forall, Forall_forall. tauto. Qed.

Lemma rule_string_array_none (key : string) (f : list (string * json)) :
  rule_string_array key f = None <->
  forall v, lookup key f = Some v ->
            exists items,
              v = JArr items /\ Forall (fun x => is_str x = true) items.
Proof.
  unfold rule_string_array.
  destruct (lookup key f) as [v|]; [|split; auto; discriminate].
  destruct v; try (split; [discriminate|]; intros H;
                   destruct (H _ eq_refl) as [l [E _]]; discriminate).
  destruct (forallb is_str items) eqn:E.
  - split; auto. intros _ v Hv. inversion Hv; subst.
    exists items. split; auto. now apply forallb_Forall.
  - split; [discriminate|]. intros H.
    destruct (H _ eq_refl) as [l [El Hl]]. inversion El; subst.
    apply forallb_Forall in Hl. congruence.
Qed.

Lemma rule_entrypoints_none (f : list (string * json)) :
  rule_entrypoints f = None <->
  forall v, lookup "entrypoints" f = Some v ->
            exists items,
              v = JObj items /\
              Forall (fun kv => is_str (snd kv) = true) items.
Proof.
  unfold rule_entrypoints.
  destruct (lookup "entrypoints" f) as [v|]; [|split; auto; discriminate].
  destruct v; try (split; [discriminate|]; intros H;
                   destruct (H _ eq_refl) as [l [E _]]; discriminate).
  destruct (forallb (fun kv => is_str (snd kv)) fields) eqn:E.
  - split; auto. intros _ v Hv. inversion Hv; subst.
    exists fields. split; auto. now apply forallb_Forall.
  - split; [discriminate|]. intros H.
    destruct (H _ eq_refl) as [l [El Hl]]. inversion El; subst.
    apply (forallb_Forall (fun kv : string * json => is_str (snd kv))) in Hl.
    congruence.
Qed.

Lemma rule_extras_none (f : list (string * json)) :
  rule_extras f = None <-> forall k, In k (keys f) -> In k allowed.
Proof.
  unfold rule_extras, extras_of.
  destruct (filter (fun k => negb (str_in k allowed)) (keys f)) as [|x l] eqn:E.
  - split; auto. intros _ k Hk.
    destruct (str_in k allowed) eqn:Hin; [now apply str_in_iff|].
    assert (In k (filter (fun k => negb (str_in k allowed)) (keys f))) as H
        by (apply filter_In; split; auto; now rewrite Hin).
    rewrite E in H. inversion H.
  - split; [discriminate|]. intros H.
    assert (In x (filter (fun k => negb (str_in k allowed)) (keys f))) as Hx
        by (rewrite E; now left).
    apply filter_In in Hx. destruct Hx as [Hx Hn].
    apply H, str_in_iff in Hx. rewrite Hx in Hn. discriminate.
Qed.

(** What the scanner reads from an accepted document is there. *)
Lemma manual_accepted_fields (data : json) :
  validate_metadata_manual data = Done None ->
  exists f i o,
    data = JObj f /\ lookup "id" f = Some (JStr i) /\
    lookup "one_liner" f = Some o.
Proof.
  intros H.
  destruct (validate_metadata_manual_accepts_object _ H) as [f ->].
  rewrite validate_metadata_manual_object in H. injection H as H.
  apply manual_rules_none_iff in H. destruct H as [_ [Hid [Hol _]]].
  unfold rule_id in Hid. unfold rule_one_liner in Hol.
  destruct (lookup "id" f) as [[]|] eqn:Ei; try discriminate.
  destruct (lookup "one_liner" f) as [o|] eqn:Eo; try discriminate.
  exists f, s, o. auto.
Qed.

(** X1.  The manual validator accepts exactly the documents of the data
    model: an object whose [id] is a string of the identifier pattern, whose
    [one_liner] is a string of at most 120 characters, whose [title], if
    any, is a string, whose [tags] and [stack], if any, are lists of
    strings, whose [entrypoints], if any, is an object with string values,
    and which has no other field. *)
Theorem manual_accepts_iff_valid (data : json) :
  validate_metadata_manual data = Done None <-> valid_document data.
Proof.
  unfold valid_document. split.
  - intros H.
    destruct (validate_metadata_manual_accepts_object _ H) as [f ->].
    rewrite validate_metadata_manual_object in H. inversion H as [H'].
    apply manual_rules_none_iff in H'.
    destruct H' as [_ [Hid [Hol [Ht [Htags [Hstack [Hep Hex]]]]]]].
    exists f. split; [reflexivity|]. repeat split.
    + unfold rule_id in Hid.
      destruct (lookup "id" f) as [[]|]; try discriminate.
      destruct (ID_RE_match s) eqn:E; [|discriminate].
      exists s. split; auto. now apply ID_RE_match_iff.
    + unfold rule_one_liner in Hol.
      destruct (lookup "one_liner" f) as [[]|]; try discriminate.
      destruct (120 <? py_len s)%nat eqn:E; [discriminate|].
      exists s. split; auto. apply Nat.ltb_ge in E. exact E.
    + intros v Hv. unfold rule_title in Ht. rewrite Hv in Ht.
      destruct (is_str v); [reflexivity|discriminate].
    + intros k v [-> | ->] Hv.
      * now apply (proj1 (rule_string_array_none "tags" f) Htags).
      * now apply (proj1 (rule_string_array_none "stack" f) Hstack).
    + now apply rule_entrypoints_none.
    + now apply rule_extras_none.
  - intros [f [-> [[i [Hi Hpat]] [[o [Ho Hlen]] [Ht [Harr [Hep Hex]]]]]]].
    rewrite validate_metadata_manual_object. f_equal.
    apply manual_rules_none_iff. repeat split.
    + unfold rule_required, has_key. now rewrite Hi, Ho.
    + unfold rule_id. rewrite Hi.
      apply ID_RE_match_iff in Hpat. now rewrite Hpat.
    + unfold rule_one_liner. rewrite Ho.
      apply Nat.ltb_ge in Hlen. now rewrite Hlen.
    + unfold rule_title. destruct (lookup "title" f) as [v|] eqn:E; auto.
      now rewrite (Ht v eq_refl).
    + apply rule_string_array_none. intros v Hv. apply (Harr "tags"); auto.
    + apply rule_string_array_none. intros v Hv. apply (Harr "stack"); auto.
    + now apply rule_entrypoints_none.
    + now apply rule_extras_none.
Qed.

(** X2.  On an object the manual validator never raises, and what it
    returns is the first rule that fails, in the order: required fields,
    id, one_liner, title, tags, stack, entrypoints, unexpected fields. *)
Theorem manual_reports_first_failing_rule (f : list (string * json)) :
  validate_metadata_manual (JObj f)
  = Done (first_error
            [rule_required f; rule_id f; rule_one_liner f; rule_title f;
             rule_string_array "tags" f; rule_string_array "stack" f;
             rule_entrypoints f; rule_extras f]).
Proof.
  unfold validate_metadata_manual.
  rewrite check_required_object, check_id_object, check_one_liner_object,
    check_optional_str_object, check_entrypoints_object, check_extras_object.
  rewrite !check_string_array_step. cbn [check_string_arrays].
  rewrite !and_then_done. cbn [first_error].
  destruct (rule_required f); auto.
  destruct (rule_id f); auto.
  destruct (rule_one_liner f); auto.
  destruct (rule_title f); auto.
  destruct (rule_string_array "tags" f); auto.
  destruct (rule_string_array "stack" f); auto.
  destruct (rule_entrypoints f); auto.
  now destruct (rule_extras f).
Qed.

Lemma has_key_false_iff {V : Type} (k : string) (d : list (string * V)) :
  has_key k d = false <-> ~ In k (keys d).
Proof.
  rewrite <- has_key_iff. destruct (has_key k d); split; auto; try discriminate.
  intros H. now contradiction H.
Qed.

(** X3.  A document that lacks a required field is rejected with that
    field's name, [id] before [one_liner]; so is a JSON list that does not
    hold the string "id", because the membership test then looks among the
    elements. *)
Theorem manual_missing_required_field :
  (forall f : list (string * json),
      ~ In "id" (keys f) ->
      validate_metadata_manual (JObj f)
      = Done (Some "missing required field: id")) /\
  (forall f : list (string * json),
      In "id" (keys f) -> ~ In "one_liner" (keys f) ->
      validate_metadata_manual (JObj f)
      = Done (Some "missing required field: one_liner")) /\
  (forall items : list json,
      ~ In (JStr "id") items ->
      validate_metadata_manual (JArr items)
      = Done (Some "missing required field: id")).
Proof.
  split; [|split].
  - intros f H. apply has_key_false_iff in H.
    rewrite validate_metadata_manual_object.
    unfold manual_rules, rule_required. now rewrite H.
  - intros f Hid Hol. apply has_key_iff in Hid. apply has_key_false_iff in Hol.
    rewrite validate_metadata_manual_object.
    unfold manual_rules, rule_required. now rewrite Hid, Hol.
  - intros items H. unfold validate_metadata_manual.
    cbn [check_required py_in bind].
    assert (existsb (fun x => match x with
                              | JStr s => String.eqb "id" s
                              | _ => false
                              end) items = false) as E.
    { destruct (existsb _ items) eqn:E; auto.
      apply existsb_exists in E. destruct E as [x [Hx E]].
      destruct x; try discriminate. apply String.eqb_eq in E. subst.
      contradiction. }
    rewrite E. reflexivity.
Qed.

Lemma manual_missing_required_field_witness :
  validate_metadata_manual (JObj [("id", JStr "proj"); ("title", JStr "t")])
  = Done (Some "missing required field: one_liner").
Proof.
  apply (proj1 (proj2 manual_missing_required_field)).
  - cbn. auto.
  - cbn. intros [H|[H|[]]]; discriminate.
Defined.

(** X4.  With a valid [id], a [one_liner] of more than 120 characters is
    rejected for its length. *)
Theorem manual_one_liner_too_long (f : list (string * json)) (i s : string) :
  lookup "id" f = Some (JStr i) ->
  ID_RE_match i = true ->
  lookup "one_liner" f = Some (JStr s) ->
  120 < py_len s ->
  validate_metadata_manual (JObj f)
  = Done (Some "one_liner exceeds 120 chars").
Proof.
  intros Hi Hre Ho Hlen. rewrite validate_metadata_manual_object.
  unfold manual_rules, rule_required, rule_id, rule_one_liner, has_key.
  rewrite Hi, Ho, Hre. apply Nat.ltb_lt in Hlen. now rewrite Hlen.
Qed.

Lemma manual_one_liner_too_long_witness :
  validate_metadata_manual
    (JObj [("id", JStr "proj");
           ("one_liner",
            JStr "0123456789012345678901234567890123456789012345678901234567890123456789012345678901234567890123456789012345678901234567890")])
  = Done (Some "one_liner exceeds 120 chars").
Proof.
  eapply manual_one_liner_too_long; [reflexivity | reflexivity | reflexivity|].
  apply Nat.ltb_lt. reflexivity.
Defined.

Lemma string_length_append (a b : string) :
  String.length (a +++ b) = String.length a + String.length b.
Proof. induction a as [|c a IH]; cbn; auto. Qed.

(** X5.  An identifier the pattern accepts starts with a lower-case letter
    or a digit and is 2 to 65 characters long, not counting the one line
    feed that Python's [$] lets follow it. *)
Theorem ID_RE_length_bounds (s : string) :
  ID_RE_match s = true ->
  (exists c rest, s = String c rest /\ id_head_char c = true) /\
  2 <= String.length s <= 66 /\
  (String.length s = 66 -> exists body, s = body +++ line_feed).
Proof.
  intros H. apply ID_RE_match_iff in H.
  destruct H as [c [body [tail [-> [Hc [Hall [[Hlo Hhi] Htail]]]]]]].
  split; [eauto|].
  cbn [String.length]. rewrite string_length_append.
  destruct Htail as [-> | ->]; cbn [String.length line_feed].
  - split; [lia|]. intros E. lia.
  - split; [lia|]. intros _. exists (String c body). reflexivity.
Qed.

Lemma ID_RE_length_bounds_witness :
  2 <= String.length "ab" <= 66.
Proof.
  apply (ID_RE_length_bounds "ab"). reflexivity.
Defined.

(* ================================================================= *)
(** ** From a validated document to its entry *)

Lemma copy_optional_object (f : list (string * json)) (key : string) :
  copy_optional (JObj f) key = Done (lookup key f).
Proof.
  unfold copy_optional, py_in, py_getitem, has_key. cbn [bind].
  now destruct (lookup key f).
Qed.

(** X6.  A document the manual validator accepts always gives an entry:
    building it raises nothing, its [id] and [one_liner] are the
    document's, its path is the repository directory, and [title], [tags],
    [stack] and [entrypoints] are carried over exactly when present. *)
Theorem accepted_document_gives_entry (data : json) (current : string)
    (mtime : Z) :
  validate_metadata_manual data = Done None ->
  exists e f,
    data = JObj f /\
    make_entry data current mtime = Done e /\
    lookup "id" f = Some (JStr (entry_id e)) /\
    lookup "one_liner" f = Some (one_liner e) /\
    entry_path e = current /\
    source_metadata e = "project.metadata.json" /\
    source_mtime e = mtime /\
    title e = lookup "title" f /\
    tags e = lookup "tags" f /\
    stack e = lookup "stack" f /\
    entrypoints e = lookup "entrypoints" f.
Proof.
  intros H. destruct (manual_accepted_fields _ H) as [f [i [o [-> [Hi Ho]]]]].
  unfold make_entry. rewrite !copy_optional_object.
  cbn [py_getitem]. rewrite Hi, Ho. cbn [bind].
  eexists _, f. split; [reflexivity|]. split; [reflexivity|].
  cbn. repeat split; auto.
Qed.

Lemma accepted_document_gives_entry_witness :
  exists e f,
    JObj [("id", JStr "proj1"); ("one_liner", JStr "demo");
          ("tags", JArr [JStr "cli"])] = JObj f /\
    make_entry (JObj [("id", JStr "proj1"); ("one_liner", JStr "demo");
                      ("tags", JArr [JStr "cli"])]) "/root/proj1" 7
    = Done e /\
    lookup "id" f = Some (JStr (entry_id e)) /\
    lookup "one_liner" f = Some (one_liner e) /\
    entry_path e = "/root/proj1" /\
    source_metadata e = "project.metadata.json" /\
    source_mtime e = 7%Z /\
    title e = lookup "title" f /\
    tags e = lookup "tags" f /\
    stack e = lookup "stack" f /\
    entrypoints e = lookup "entrypoints" f.
Proof.
  apply accepted_document_gives_entry. reflexivity.
Defined.

(* ================================================================= *)
(** ** When the scan completes, aborts or raises *)

Lemma manual_rules_message_truthy (f : list (string * json)) (msg : string) :
  manual_rules f = Some msg -> truthy (Some msg) = true.
Proof.
  unfold manual_rules. intros E. apply first_error_in in E.
  repeat (destruct E as [E|E]); try contradiction.
  - unfold rule_required in E. rule_message E.
  - unfold rule_id in E. rule_message E.
  - unfold rule_one_liner in E. rule_message E.
  - unfold rule_title in E. rule_message E.
  - unfold rule_string_array in E. rule_message E.
  - unfold rule_string_array in E. rule_message E.
  - unfold rule_entrypoints in E. rule_message E.
  - unfold rule_extras in E. rule_message E.
Qed.

(** A validator result the scanner takes for "no error" is [None]. *)
Lemma validate_metadata_manual_falsy (data : json) (r : option string) :
  validate_metadata_manual data = Done r -> truthy r = false -> r = None.
Proof.
  destruct r as [msg|]; auto. intros H Hf. exfalso.
  assert (truthy (Some msg) = true) as Ht; [|congruence].
  destruct data; try discriminate.
  - unfold validate_metadata_manual in H. cbn [check_required py_in bind] in H.
    destruct (str_contains "id" s); cbn [negb] in H;
      [|inversion H; reflexivity].
    destruct (str_contains "one_liner" s); cbn [negb] in H;
      [discriminate|inversion H; reflexivity].
  - unfold validate_metadata_manual in H. cbn [check_required py_in bind] in H.
    destruct (existsb _ items); cbn [negb] in H;
      [|inversion H; reflexivity].
    destruct (existsb _ items); cbn [negb] in H;
      [discriminate|inversion H; reflexivity].
  - rewrite validate_metadata_manual_object in H. injection H as H.
    now apply (manual_rules_message_truthy fields).
Qed.

Lemma validate_metadata_schema_falsy (env : Env) (data : json)
    (r : option string) :
  validate_metadata_schema env data = Done r -> truthy r = false -> r = None.
Proof.
  unfold validate_metadata_schema.
  destruct (jsonschema env) as [validate|];
    [|apply validate_metadata_manual_falsy].
  destruct (load_json (schema_path env) (schema_file env)) as [schema err].
  destruct (truthy err).
  - intros E; inversion E. discriminate.
  - destruct (validate data schema); intros E; inversion E; auto. discriminate.
Qed.

Lemma make_entry_of_accepted (data : json) (current : string) (mtime : Z) :
  validate_metadata_manual data = Done None ->
  exists e, make_entry data current mtime = Done e.
Proof.
  intros H. destruct (manual_accepted_fields _ H) as [f [i [o [-> [Hi Ho]]]]].
  unfold make_entry. rewrite !copy_optional_object.
  cbn [py_getitem]. rewrite Hi, Ho. cbn [bind]. eauto.
Qed.

Lemma metadata_objects_lookup (children : list (string * Node)) (v : json)
    (m : Z) :
  metadata_objects (Dir children) = true ->
  lookup METADATA_NAME children = Some (File (Loads v) m) ->
  is_dict v = true.
Proof.
  cbn [metadata_objects]. rewrite forallb_forall. intros H Hl.
  apply in_of_lookup in Hl. specialize (H _ Hl). cbn [fst snd] in H.
  rewrite String.eqb_refl in H. exact H.
Qed.

Lemma visit_repo_lenient_done (env : Env) (current : string)
    (children : list (string * Node)) (st : scan_state) :
  jsonschema env = None ->
  metadata_objects (Dir children) = true ->
  exists st', visit_repo env false current children st = Done st'.
Proof.
  intros Henv Hobj. unfold visit_repo.
  destruct (lookup METADATA_NAME children) as [node|] eqn:Hl; [|eauto].
  destruct node as [[v|exc] m|sub]; cbn [load_json truthy];
    try (cbn; solve [eauto]).
  pose proof (metadata_objects_lookup _ _ _ Hobj Hl) as Hd.
  destruct v; try discriminate.
  unfold validate_metadata_schema. rewrite Henv.
  destruct (validate_metadata_manual (JObj fields)) as [r| | |] eqn:Hv;
    try (rewrite validate_metadata_manual_object in Hv; discriminate).
  cbn [bind]. destruct (truthy r) eqn:Ht; [eauto|].
  rewrite (validate_metadata_manual_falsy _ _ Hv Ht) in Hv.
  destruct (make_entry_of_accepted _ current (mtime_of (File (Loads (JObj fields)) m)) Hv)
    as [e He].
  rewrite He. cbn [bind]. eauto.
Qed.

Lemma scan_node_lenient_done (env : Env) (n : Node) :
  jsonschema env = None ->
  metadata_objects n = true ->
  forall current st, exists st', scan_node env false current n st = Done st'.
Proof.
  intros Henv.
  induction n as [c m|children IH] using Node_nested_ind;
    intros Hobj current st.
  - cbn. eauto.
  - rewrite scan_node_dir. destruct (has_repo_marker children).
    + now apply visit_repo_lenient_done.
    + cbn [metadata_objects] in Hobj. clear -IH Hobj. revert st.
      induction IH as [|[name child] l Hchild _ IHl]; intros st.
      * cbn. eauto.
      * cbn [forallb fst snd] in Hobj. apply andb_true_iff in Hobj.
        destruct Hobj as [Hc Hl]. cbn [walk_with].
        destruct child as [c m|sub]; [now apply IHl|].
        destruct (str_in name SKIP_DIRS); [now apply IHl|].
        destruct (Hchild Hc (path_join current name) st) as [a Ha].
        cbn [snd] in Ha. rewrite Ha. cbn [bind]. now apply IHl.
Qed.

(** X7.  With the manual rule set and every metadata file that loads
    holding a JSON object, a run without strict mode always completes: it
    reaches [return 0] and the manifest is written, whatever else is wrong
    with the metadata. *)
Theorem lenient_run_completes (env : Env) (dumps : json -> string)
    (generated_at root : string) (tree : Node) :
  jsonschema env = None ->
  metadata_objects tree = true ->
  exists c,
    main env dumps generated_at root tree false = Done c /\
    exit_code (main env dumps generated_at root tree false) = Some 0%Z /\
    written (main env dumps generated_at root tree false)
    = Some (manifest_text c).
Proof.
  intros Henv Hobj. unfold main, scan_projects.
  destruct (scan_node_lenient_done env tree Henv Hobj root ([], []))
    as [[es ws] H].
  rewrite H. cbn [bind fst snd]. rewrite resolve_conflicts_eq.
  cbn [bind]. eexists. repeat split.
Qed.

Lemma lenient_run_completes_witness :
  exists c,
    main manual_env (fun _ => "{}") "2026-01-01T00:00:00+00:00" "/root"
         pruned_tree false = Done c /\
    exit_code (main manual_env (fun _ => "{}") "2026-01-01T00:00:00+00:00"
                    "/root" pruned_tree false) = Some 0%Z /\
    written (main manual_env (fun _ => "{}") "2026-01-01T00:00:00+00:00"
                  "/root" pruned_tree false)
    = Some (manifest_text c).
Proof.
  apply lenient_run_completes; reflexivity.
Defined.

(** X8.  Without strict mode the scanner never raises [SystemExit]: a run
    that does not complete has died of an uncaught exception. *)
Theorem lenient_run_never_exits (env : Env) (dumps : json -> string)
    (generated_at root : string) (tree : Node) (msg : string) :
  scan_projects env root tree false <> SystemExit msg /\
  main env dumps generated_at root tree false <> SystemExit msg.
Proof.
  assert (H : scan_projects env root tree false <> SystemExit msg).
  { unfold scan_projects.
    pose proof (scan_node_lift env false (fun _ _ => True)
                  (fun r => forall m, r <> SystemExit m)
                  (fun _ => I) (fun _ _ _ _ _ => I)) as L.
    assert (Hv : forall current children st,
               result_satisfies (fun _ _ => True)
                 (fun r => forall m, r <> SystemExit m) st
                 (visit_repo env false current children st)).
    { intros current children st. unfold visit_repo.
      destruct (lookup METADATA_NAME children) as [node|]; [|exact I].
      destruct (load_json (path_join current METADATA_NAME) (Some node))
        as [data err].
      destruct (truthy err); [exact I|].
      destruct (validate_metadata_schema env data) as [v_err|m| |] eqn:Hv;
        cbn [bind result_satisfies]; try discriminate.
      - destruct (truthy v_err); [exact I|].
        destruct (make_entry data current (mtime_of node)) as [e|m| |] eqn:He;
          cbn [bind result_satisfies]; try discriminate; auto.
        now apply make_entry_no_exit in He.
      - now apply validate_metadata_schema_no_exit in Hv. }
    specialize (L Hv tree root ([], [])).
    destruct (scan_node env false root tree ([], [])); cbn in L;
      try discriminate. apply L. }
  split; auto.
  unfold main. destruct (scan_projects env root tree false) as [[es ws]| | |];
    cbn [bind]; try discriminate; [|congruence].
  rewrite resolve_conflicts_eq. discriminate.
Qed.

Lemma visit_repo_strict_done (env : Env) (current : string)
    (children : list (string * Node)) (st st' : scan_state) :
  visit_repo env true current children st = Done st' ->
  snd st' = snd st /\ visit_repo env false current children st = Done st'.
Proof.
  unfold visit_repo.
  destruct (lookup METADATA_NAME children) as [node|];
    [|intros E; inversion E; auto].
  destruct (load_json (path_join current METADATA_NAME) (Some node))
    as [data err].
  destruct (truthy err); [discriminate|].
  destruct (validate_metadata_schema env data) as [v_err| | |];
    cbn [bind]; try discriminate.
  destruct (truthy v_err); [discriminate|].
  destruct (make_entry data current (mtime_of node)); cbn [bind];
    try discriminate.
  intros E; inversion E. auto.
Qed.

Lemma scan_node_strict_done (env : Env) (n : Node) :
  forall current st st',
    scan_node env true current n st = Done st' ->
    snd st' = snd st /\ scan_node env false current n st = Done st'.
Proof.
  induction n as [c m|children IH] using Node_nested_ind;
    intros current st st'.
  - cbn. intros E; inversion E. auto.
  - rewrite !scan_node_dir. destruct (has_repo_marker children).
    + apply visit_repo_strict_done.
    + revert st. induction IH as [|[name child] l Hchild _ IHl]; intros st.
      * cbn. intros E; inversion E. auto.
      * cbn [walk_with]. destruct child as [c m|sub]; [apply IHl|].
        destruct (str_in name SKIP_DIRS); [apply IHl|].
        destruct (scan_node env true (path_join current name) (Dir sub) st)
          as [a| | |] eqn:Ha; cbn [bind]; try discriminate.
        destruct (Hchild _ _ _ Ha) as [Hs Hl]. cbn [snd] in Hl.
        rewrite Hl. cbn [bind]. intros H.
        destruct (IHl _ H) as [Hs' Hl']. split; [congruence|exact Hl'].
Qed.

(** X9.  A strict run that completes met no bad metadata at all: the scan
    returns no warning, the run without strict mode gives the very same
    result, and the only line the run can print is the duplicate-id
    summary. *)
Theorem strict_run_completes_clean (env : Env) (dumps : json -> string)
    (generated_at root : string) (tree : Node) (c : Completed) :
  main env dumps generated_at root tree true = Done c ->
  (exists es, scan_projects env root tree true = Done (es, [])) /\
  main env dumps generated_at root tree false = Done c /\
  (stderr c = [] \/ stderr c = [CONFLICT_SUMMARY]).
Proof.
  unfold main, scan_projects. intros H.
  destruct (scan_node env true root tree ([], [])) as [[es ws]| | |] eqn:Hs;
    try discriminate.
  destruct (scan_node_strict_done env tree _ _ _ Hs) as [Hws Hl].
  cbn [snd] in Hws. subst ws. rewrite Hl.
  split; [eauto|]. split; [exact H|].
  cbn [bind fst snd] in H. rewrite resolve_conflicts_eq in H.
  cbn [bind fst snd] in H. inversion H. cbn [stderr map app].
  destruct (sorted str_lt conflict_id (multi (group_by_id es))); auto.
Qed.

Lemma strict_run_completes_clean_witness :
  exists c,
    main manual_env (fun _ => "{}") "2026-01-01T00:00:00+00:00" "/a"
         (Dir [twin_zeta; twin_alpha]) true = Done c /\
    main manual_env (fun _ => "{}") "2026-01-01T00:00:00+00:00" "/a"
         (Dir [twin_zeta; twin_alpha]) false = Done c /\
    stderr c = [CONFLICT_SUMMARY].
Proof.
  eexists. split; [reflexivity|].
  split.
  - apply (strict_run_completes_clean manual_env (fun _ => "{}")
             "2026-01-01T00:00:00+00:00" "/a" (Dir [twin_zeta; twin_alpha])).
    reflexivity.
  - reflexivity.
Defined.

(* ================================================================= *)
(** ** Non-descent below a repository root *)





(* ================================================================= *)
(** ** What the scan visits and what it reports *)

(** X10.  A directory counts as a repository root exactly when one of its
    direct children is named [.git], be it a directory or a file (as in a
    worktree or a submodule). *)
Theorem repo_marker_file_or_directory (children : list (string * Node)) :
  is_repo_root (dirnames_of children) (filenames_of children) = true <->
  exists node, In (".git", node) children.
Proof.
  fold (has_repo_marker children).
  rewrite has_repo_marker_keys, str_in_iff. unfold keys.
  rewrite in_map_iff. split.
  - intros [[k node] [E H]]. cbn in E. subst. eauto.
  - intros [node H]. exists (".git", node). auto.
Qed.

Lemma prefix_append (a b : string) : String.prefix a (a +++ b) = true.
Proof.
  induction a as [|c a IH]; cbn.
  - now destruct b.
  - destruct (ascii_dec c c); [exact IH|contradiction].
Qed.

(** X11.  A metadata file that is present but cannot be loaded (it is not
    JSON, cannot be read, or is a directory) is reported with the loader's
    reason: without strict mode the scan appends exactly one warning for
    the directory and no entry, with strict mode it aborts with that
    reason. *)
Theorem unloadable_metadata_is_reported (env : Env) (current : string)
    (children : list (string * Node)) (node : Node) (reason : string)
    (st : scan_state) :
  has_repo_marker children = true ->
  lookup METADATA_NAME children = Some node ->
  snd (load_json (path_join current METADATA_NAME) (Some node))
  = Some reason ->
  String.prefix "invalid json: " reason = true /\
  scan_node env false current (Dir children) st
  = Done (fst st,
          snd st ++ [{| warning_path := path_join current METADATA_NAME;
                        message := reason |}]) /\
  scan_node env true current (Dir children) st = SystemExit reason.
Proof.
  intros Hrepo Hl Hload. rewrite !scan_node_dir, Hrepo.
  unfold visit_repo. rewrite Hl.
  destruct (load_json (path_join current METADATA_NAME) (Some node))
    as [data err] eqn:E.
  cbn [snd] in Hload. subst err.
  assert (String.prefix "invalid json: " reason = true) as Hp.
  { destruct node as [[v|exc] m|sub]; inversion E;
      apply (prefix_append "invalid json: "). }
  assert (truthy (Some reason) = true) as Ht.
  { destruct reason; [discriminate|reflexivity]. }
  rewrite Ht. repeat split; auto.
Qed.

Lemma unloadable_metadata_is_reported_witness :
  scan_node manual_env true "/root/repo"
    (Dir [(".git", Dir []); ("project.metadata.json", Dir [])]) ([], [])
  = SystemExit
      "invalid json: [Errno 21] Is a directory: '/root/repo/project.metadata.json'".
Proof.
  apply (unloadable_metadata_is_reported manual_env "/root/repo"
           [(".git", Dir []); ("project.metadata.json", Dir [])] (Dir []));
    reflexivity.
Defined.

(** X12.  When the schema engine is available but the schema file cannot
    be loaded, every document is rejected with "schema load failed", so a
    scan without strict mode completes with no entry at all: each
    repository with a metadata file only gives a warning, either the
    loader's own or the schema failure. *)
Theorem unloadable_schema_rejects_everything (env : Env)
    (validate : json -> json -> option string) (reason : string)
    (root : string) (tree : Node) :
  jsonschema env = Some validate ->
  snd (load_json (schema_path env) (schema_file env)) = Some reason ->
  (forall data,
      validate_metadata_schema env data
      = Done (Some ("schema load failed: " +++ reason))) /\
  exists ws,
    scan_projects env root tree false = Done ([], ws) /\
    forall w, In w ws ->
              message w = "schema load failed: " +++ reason \/
              String.prefix "invalid json: " (message w) = true.
Proof.
  intros Henv Hschema.
  assert (Hreason : truthy (Some reason) = true).
  { destruct (schema_file env) as [[[v|exc] m|sub]|];
      inversion Hschema; reflexivity. }
  assert (Hval : forall data,
             validate_metadata_schema env data
             = Done (Some ("schema load failed: " +++ reason))).
  { intros data. unfold validate_metadata_schema. rewrite Henv.
    destruct (load_json (schema_path env) (schema_file env)) as [schema err].
    cbn [snd] in Hschema. subst err. now rewrite Hreason. }
  split; auto.
  set (Step := fun st st' : scan_state =>
                 fst st' = fst st /\
                 forall w, In w (snd st') ->
                           In w (snd st) \/
                           message w = "schema load failed: " +++ reason \/
                           String.prefix "invalid json: " (message w) = true).
  assert (Hvisit : forall current children st,
             result_satisfies Step (fun _ => False) st
               (visit_repo env false current children st)).
  { intros current children st. unfold visit_repo.
    destruct (lookup METADATA_NAME children) as [node|];
      [|cbn; split; auto].
    destruct node as [[v|exc] m|sub]; cbn [load_json truthy negb];
      try (cbn; split; auto; intros w Hw; apply in_app_or in Hw;
           destruct Hw as [Hw|[<-|[]]]; auto;
           right; right; apply (prefix_append "invalid json: ")).
    rewrite Hval. cbn. split; auto.
    intros w Hw; apply in_app_or in Hw. destruct Hw as [Hw|[<-|[]]]; auto. }
  pose proof (scan_node_lift env false Step (fun _ => False)) as L.
  assert (Hrefl : forall st, Step st st) by (intros st; split; auto).
  assert (Htrans : forall a b c, Step a b -> Step b c -> Step a c).
  { intros a b c [H1 H2] [H3 H4]. split; [congruence|].
    intros w Hw. destruct (H4 w Hw) as [Hb|Hb]; auto. }
  specialize (L Hrefl Htrans Hvisit tree root ([], [])).
  unfold scan_projects.
  destruct (scan_node env false root tree ([], [])) as [[es ws]| | |];
    cbn in L; try contradiction.
  destruct L as [Hes Hws]. cbn in Hes. subst es.
  exists ws. split; auto.
  intros w Hw. destruct (Hws w Hw) as [[]|H]; auto.
Qed.

Lemma unloadable_schema_rejects_everything_witness :
  exists ws,
    scan_projects
      {| jsonschema := Some (fun _ _ => None);
         schema_path := "/schema.json";
         schema_file := None |}
      "/a" (Dir [twin_zeta; twin_alpha]) false = Done ([], ws) /\
    forall w, In w ws ->
              message w = "schema load failed: " +++ "missing: /schema.json" \/
              String.prefix "invalid json: " (message w) = true.
Proof.
  apply (unloadable_schema_rejects_everything
           {| jsonschema := Some (fun _ _ => None);
              schema_path := "/schema.json";
              schema_file := None |}
           (fun _ _ => None) "missing: /schema.json" "/a"
           (Dir [twin_zeta; twin_alpha]));
    reflexivity.
Defined.

(* ----------------------------------------------------------------- *)
(** *** The scan is the union of its visits *)

Section Visits.
Variables (env : Env) (strict : bool).

Lemma walk_child_included (current : string) (l : list (string * Node))
    (name : string) (sub : list (string * Node))
    (es : list Entry) (ws : list WarningItem) :
  walk_with (scan_node env strict) current l empty_state = Done (es, ws) ->
  In (name, Dir sub) l ->
  str_in name SKIP_DIRS = false ->
  exists es1 ws1,
    scan_node env strict (path_join current name) (Dir sub) empty_state
    = Done (es1, ws1) /\
    incl es1 es /\ incl ws1 ws.
Proof.
  revert es ws. induction l as [|ch l IH]; intros es ws Hwalk Hin Hskip.
  - inversion Hin.
  - rewrite walk_with_cons in Hwalk.
    destruct (child_delta env strict current ch) as [[e1 w1]| | |] eqn:Hd;
      try discriminate.
    cbn [bind] in Hwalk.
    destruct (walk_with (scan_node env strict) current l empty_state)
      as [[e2 w2]| | |]; try discriminate.
    inversion Hwalk; subst. clear Hwalk. cbn [fst snd].
    destruct Hin as [->|Hin].
    + unfold child_delta in Hd. cbn [fst snd] in Hd. rewrite Hskip in Hd.
      exists e1, w1. split; auto. split; apply incl_appl, incl_refl.
    + destruct (IH e2 w2 eq_refl Hin Hskip) as [es1 [ws1 [Hs [He Hw]]]].
      exists es1, ws1. split; auto. split; now apply incl_appr.
Qed.

Lemma walk_origin_entries (current : string) (l : list (string * Node))
    (es : list Entry) (ws : list WarningItem) :
  walk_with (scan_node env strict) current l empty_state = Done (es, ws) ->
  (forall e, In e es ->
             exists name sub es1 ws1,
               In (name, Dir sub) l /\ str_in name SKIP_DIRS = false /\
               scan_node env strict (path_join current name) (Dir sub)
                         empty_state = Done (es1, ws1) /\
               In e es1) /\
  (forall w, In w ws ->
             exists name sub es1 ws1,
               In (name, Dir sub) l /\ str_in name SKIP_DIRS = false /\
               scan_node env strict (path_join current name) (Dir sub)
                         empty_state = Done (es1, ws1) /\
               In w ws1).
Proof.
  revert es ws. induction l as [|[name child] l IH]; intros es ws Hwalk.
  - inversion Hwalk. split; intros x [].
  - rewrite walk_with_cons in Hwalk.
    destruct (child_delta env strict current (name, child))
      as [[e1 w1]| | |] eqn:Hd; try discriminate.
    cbn [bind] in Hwalk.
    destruct (walk_with (scan_node env strict) current l empty_state)
      as [[e2 w2]| | |]; try discriminate.
    inversion Hwalk; subst. clear Hwalk. cbn [fst snd].
    destruct (IH e2 w2 eq_refl) as [IHe IHw].
    assert (Hhere : (e1 = [] /\ w1 = []) \/
                    exists sub, child = Dir sub /\
                                str_in name SKIP_DIRS = false /\
                                scan_node env strict (path_join current name)
                                          (Dir sub) empty_state
                                = Done (e1, w1)).
    { unfold child_delta in Hd. cbn [fst snd] in Hd.
      destruct child as [c m|sub]; [inversion Hd; auto|].
      destruct (str_in name SKIP_DIRS); [inversion Hd; auto|].
      right. eauto. }
    split.
    + intros e He. apply in_app_or in He. destruct He as [He|He].
      * destruct Hhere as [[-> _]|[sub [-> [Hs Hscan]]]]; [inversion He|].
        exists name, sub, e1, w1. repeat split; auto. now left.
      * destruct (IHe e He) as [n [sub [es1 [ws1 [Hin H]]]]].
        exists n, sub, es1, ws1. split; [now right|exact H].
    + intros w Hw. apply in_app_or in Hw. destruct Hw as [Hw|Hw].
      * destruct Hhere as [[_ ->]|[sub [-> [Hs Hscan]]]]; [inversion Hw|].
        exists name, sub, e1, w1. repeat split; auto. now left.
      * destruct (IHw w Hw) as [n [sub [es1 [ws1 [Hin H]]]]].
        exists n, sub, es1, ws1. split; [now right|exact H].
Qed.

Lemma reaches_visited (current : string) (n : Node) (p : string)
    (l : list (string * Node)) :
  reaches current n p l ->
  has_repo_marker l = true ->
  forall es ws,
    scan_node env strict current n empty_state = Done (es, ws) ->
    exists es' ws',
      visit_repo env strict p l empty_state = Done (es', ws') /\
      incl es' es /\ incl ws' ws.
Proof.
  induction 1 as [current children
                 |current children name sub p l Hrepo Hin Hskip _ IH];
    intros Hmarker es ws Hscan.
  - rewrite scan_node_dir, Hmarker in Hscan.
    exists es, ws. split; auto. split; apply incl_refl.
  - rewrite scan_node_dir, Hrepo in Hscan.
    destruct (walk_child_included _ _ _ _ _ _ Hscan Hin Hskip)
      as [es1 [ws1 [Hs [He Hw]]]].
    destruct (IH Hmarker es1 ws1 Hs) as [es' [ws' [Hv [He' Hw']]]].
    exists es', ws'. split; auto. split; eapply incl_tran; eauto.
Qed.

Lemma found_has_origin (n : Node) :
  forall current es ws,
    scan_node env strict current n empty_state = Done (es, ws) ->
    (forall e, In e es ->
               exists p l es' ws',
                 reaches current n p l /\ has_repo_marker l = true /\
                 visit_repo env strict p l empty_state = Done (es', ws') /\
                 In e es') /\
    (forall w, In w ws ->
               exists p l es' ws',
                 reaches current n p l /\ has_repo_marker l = true /\
                 visit_repo env strict p l empty_state = Done (es', ws') /\
                 In w ws').
Proof.
  induction n as [c m|children IH] using Node_nested_ind;
    intros current es ws Hscan.
  - inversion Hscan. split; intros x [].
  - rewrite scan_node_dir in Hscan.
    destruct (has_repo_marker children) eqn:Hrepo.
    + split; intros x Hx; exists current, children, es, ws;
        repeat split; auto; constructor.
    + rewrite Forall_forall in IH.
      destruct (walk_origin_entries _ _ _ _ Hscan) as [He Hw].
      split.
      * intros e Hin.
        destruct (He e Hin) as [name [sub [es1 [ws1 [Hc [Hs [Hsub Hin1]]]]]]].
        destruct (IH _ Hc _ _ _ Hsub) as [IHe _].
        destruct (IHe e Hin1) as [p [l [es' [ws' [Hr H]]]]].
        exists p, l, es', ws'. split; [|exact H].
        eapply reaches_child; eauto.
      * intros w Hin.
        destruct (Hw w Hin) as [name [sub [es1 [ws1 [Hc [Hs [Hsub Hin1]]]]]]].
        destruct (IH _ Hc _ _ _ Hsub) as [_ IHw].
        destruct (IHw w Hin1) as [p [l [es' [ws' [Hr H]]]]].
        exists p, l, es', ws'. split; [|exact H].
        eapply reaches_child; eauto.
Qed.
End Visits.

(** X13.  A completed scan is the union of its visits.  The directories the
    walk yields are the root and, below a directory without a repository
    marker, its child directories that are not denylisted.  Whatever the
    visit of a yielded repository root finds is in the result, and every
    entry and every warning of the result was found by the visit of one
    such directory. *)
Theorem scan_is_union_of_visits (env : Env) (strict : bool) (root : string)
    (tree : Node) (es : list Entry) (ws : list WarningItem) :
  scan_projects env root tree strict = Done (es, ws) ->
  (forall p l,
      reaches root tree p l -> has_repo_marker l = true ->
      exists es' ws',
        visit_repo env strict p l ([], []) = Done (es', ws') /\
        incl es' es /\ incl ws' ws) /\
  (forall e, In e es ->
             exists p l es' ws',
               reaches root tree p l /\ has_repo_marker l = true /\
               visit_repo env strict p l ([], []) = Done (es', ws') /\
               In e es') /\
  (forall w, In w ws ->
             exists p l es' ws',
               reaches root tree p l /\ has_repo_marker l = true /\
               visit_repo env strict p l ([], []) = Done (es', ws') /\
               In w ws').
Proof.
  unfold scan_projects. intros Hscan. split; [|split].
  - intros p l Hr Hm. now apply (reaches_visited env strict root tree p l).
  - now apply (proj1 (found_has_origin env strict tree root es ws Hscan)).
  - now apply (proj2 (found_has_origin env strict tree root es ws Hscan)).
Qed.

Lemma scan_is_union_of_visits_witness :
  exists es' ws',
    visit_repo manual_env false "/root/app"
      [(".git", File (LoadFails "gitdir") 0);
       ("project.metadata.json", sample_metadata "app")] ([], [])
    = Done (es', ws') /\
    incl es' [sample_entry "app" "/root/app"] /\
    incl ws' [].
Proof.
  apply (proj1 (scan_is_union_of_visits manual_env false "/root" pruned_tree
                  _ [] eq_refl)).
  - apply (reaches_child "/root" _ "app"
             [(".git", File (LoadFails "gitdir") 0);
              ("project.metadata.json", sample_metadata "app")]).
    + reflexivity.
    + cbn. auto.
    + reflexivity.
    + apply reaches_here.
  - reflexivity.
Defined.

Lemma visit_repo_items (env : Env) (strict : bool) (p : string)
    (l : list (string * Node)) (es : list Entry) (ws : list WarningItem) :
  visit_repo env strict p l ([], []) = Done (es, ws) ->
  (forall e, In e es ->
             exists data m,
               lookup METADATA_NAME l = Some (File (Loads data) m) /\
               validate_metadata_schema env data = Done None /\
               make_entry data p m = Done e) /\
  (forall w, In w ws ->
             exists node,
               lookup METADATA_NAME l = Some node /\
               warning_path w = path_join p METADATA_NAME /\
               (snd (load_json (path_join p METADATA_NAME) (Some node))
                = Some (message w) \/
                exists data m,
                  node = File (Loads data) m /\
                  validate_metadata_schema env data
                  = Done (Some (message w)))).
Proof.
  unfold visit_repo.
  destruct (lookup METADATA_NAME l) as [node|];
    [|intros E; inversion E; split; intros x []].
  destruct (load_json (path_join p METADATA_NAME) (Some node))
    as [data err] eqn:Hload.
  destruct (truthy err) eqn:Herr.
  - destruct strict; [discriminate|]. intros E; inversion E; subst.
    split; [intros x []|]. intros w [<-|[]]. exists node.
    cbn [warning_path message]. repeat split. left. rewrite Hload.
    destruct err; [reflexivity|discriminate].
  - assert (exists m, node = File (Loads data) m) as [m ->].
    { destruct node as [[v|exc] m|sub]; inversion Hload; subst;
        try discriminate. eauto. }
    destruct (validate_metadata_schema env data) as [v_err| | |] eqn:Hv;
      cbn [bind]; try discriminate.
    destruct (truthy v_err) eqn:Hverr.
    + destruct strict; [discriminate|]. intros E; inversion E; subst.
      split; [intros x []|]. intros w [<-|[]].
      exists (File (Loads data) m). cbn [warning_path message].
      repeat split. right. exists data, m. split; auto.
      destruct v_err; [exact Hv|discriminate].
    + rewrite (validate_metadata_schema_falsy _ _ _ Hv Hverr) in Hv.
      destruct (make_entry data p (mtime_of (File (Loads data) m)))
        as [e| | |] eqn:He; cbn [bind]; try discriminate.
      intros E; inversion E; subst. split; [|intros x []].
      intros e' [<-|[]]. exists data, m. auto.
Qed.

(** X14.  A completed scan lists nothing it should not.  Every entry was
    built from the metadata file of a directory the walk yields, which has
    a repository marker and whose metadata loaded and passed validation;
    every warning names the metadata file of such a directory and carries
    the loader's reason or the validator's error for that very file. *)
Theorem scan_results_have_origin (env : Env) (strict : bool) (root : string)
    (tree : Node) (es : list Entry) (ws : list WarningItem) :
  scan_projects env root tree strict = Done (es, ws) ->
  (forall e, In e es ->
             exists p l data m,
               reaches root tree p l /\ has_repo_marker l = true /\
               lookup METADATA_NAME l = Some (File (Loads data) m) /\
               validate_metadata_schema env data = Done None /\
               make_entry data p m = Done e) /\
  (forall w, In w ws ->
             exists p l node,
               reaches root tree p l /\ has_repo_marker l = true /\
               lookup METADATA_NAME l = Some node /\
               warning_path w = path_join p METADATA_NAME /\
               (snd (load_json (path_join p METADATA_NAME) (Some node))
                = Some (message w) \/
                exists data m,
                  node = File (Loads data) m /\
                  validate_metadata_schema env data
                  = Done (Some (message w)))).
Proof.
  unfold scan_projects. intros Hscan.
  destruct (found_has_origin env strict tree root es ws Hscan) as [He Hw].
  split.
  - intros e Hin. destruct (He e Hin) as [p [l [es' [ws' [Hr [Hm [Hv Hin']]]]]]].
    destruct (proj1 (visit_repo_items _ _ _ _ _ _ Hv) e Hin')
      as [data [m H]].
    exists p, l, data, m. tauto.
  - intros w Hin. destruct (Hw w Hin) as [p [l [es' [ws' [Hr [Hm [Hv Hin']]]]]]].
    destruct (proj2 (visit_repo_items _ _ _ _ _ _ Hv) w Hin')
      as [node H].
    exists p, l, node. tauto.
Qed.

Lemma scan_results_have_origin_witness :
  exists p l data m,
    reaches "/root" pruned_tree p l /\ has_repo_marker l = true /\
    lookup METADATA_NAME l = Some (File (Loads data) m) /\
    validate_metadata_schema manual_env data = Done None /\
    make_entry data p m = Done (sample_entry "app" "/root/app").
Proof.
  apply (proj1 (scan_results_have_origin manual_env false "/root" pruned_tree
                  [sample_entry "app" "/root/app"] [] eq_refl)).
  now left.
Defined.

Lemma make_entry_fields (data : json) (current : string) (mtime : Z)
    (e : Entry) :
  make_entry data current mtime = Done e ->
  entry_path e = current /\ source_metadata e = METADATA_NAME /\
  source_mtime e = mtime.
Proof.
  unfold make_entry. intros Hm.
  repeat match type of Hm with
         | bind ?m _ = Done _ =>
             destruct m; try discriminate; cbn [bind] in Hm
         end.
  destruct a; try discriminate. inversion Hm. cbn. auto.
Qed.

(** X15.  In a tree as a file system holds it, the entries of a completed
    scan have pairwise distinct paths, each the root or a path beneath it,
    and each entry is marked as coming from [project.metadata.json]. *)
Theorem scanned_entries_distinct_paths (env : Env) (strict : bool)
    (root : string) (tree : Node) (es : list Entry) (ws : list WarningItem) :
  wf_tree tree = true ->
  scan_projects env root tree strict = Done (es, ws) ->
  NoDup (map entry_path es) /\
  forall e, In e es ->
            at_or_below root (entry_path e) /\
            source_metadata e = "project.metadata.json".
Proof.
  unfold scan_projects. intros Hwf Hscan.
  destruct (scan_node_found env strict tree Hwf root es ws Hscan) as [Hnd Hb].
  split; auto. intros e He. split; auto.
  destruct (proj1 (found_has_origin env strict tree root es ws Hscan) e He)
    as [p [l [es' [ws' [_ [_ [Hv Hin]]]]]]].
  destruct (proj1 (visit_repo_items _ _ _ _ _ _ Hv) e Hin)
    as [data [m [_ [_ Hm]]]].
  now apply make_entry_fields in Hm.
Qed.

Lemma scanned_entries_distinct_paths_witness :
  wf_tree (Dir [twin_zeta; twin_alpha]) = true /\
  NoDup (map entry_path [sample_entry "twin" "/a/zeta";
                         sample_entry "twin" "/a/alpha"]).
Proof.
  split; [reflexivity|].
  apply (scanned_entries_distinct_paths manual_env false "/a"
           (Dir [twin_zeta; twin_alpha]) _ []); reflexivity.
Defined.

(* ================================================================= *)
(** ** More on the conflict resolver *)

Lemma members_nil_iff (k : string) (l : list Entry) :
  members k l = [] <-> ~ In k (map entry_id l).
Proof.
  split.
  - intros E Hin. apply in_map_iff in Hin. destruct Hin as [e [He Hin]].
    assert (In e (members k l)) as H by (apply in_members; auto).
    rewrite E in H. inversion H.
  - intros H. destruct (members k l) as [|e r] eqn:E; auto.
    exfalso. apply H.
    assert (In e (members k l)) as Hin by (rewrite E; now left).
    apply in_members in Hin. destruct Hin as [Hin <-]. now apply in_map.
Qed.

Lemma members_cons (k : string) (e : Entry) (l : list Entry) :
  members k (e :: l) =
  if String.eqb (entry_id e) k then e :: members k l else members k l.
Proof. reflexivity. Qed.

(** Ids are pairwise distinct exactly when no id has two members. *)
Lemma nodup_ids_iff (l : list Entry) :
  NoDup (map entry_id l) <-> forall k, List.length (members k l) <= 1.
Proof.
  induction l as [|e l IH].
  - split; [cbn; auto|constructor].
  - cbn [map]. split.
    + intros H k. inversion H as [|? ? Hn Hd]; subst.
      rewrite members_cons.
      destruct (String.eqb_spec (entry_id e) k) as [<-|_].
      * apply members_nil_iff in Hn. rewrite Hn. cbn. lia.
      * now apply IH.
    + intros H. constructor.
      * apply members_nil_iff. specialize (H (entry_id e)).
        rewrite members_cons, String.eqb_refl in H. cbn in H.
        destruct (members (entry_id e) l); auto. cbn in H. lia.
      * apply IH. intros k. specialize (H k). rewrite members_cons in H.
        destruct (String.eqb (entry_id e) k); cbn in H; lia.
Qed.

Lemma sorted_nil_iff {A K : Type} (lt : K -> K -> bool) (key : A -> K)
    (l : list A) :
  sorted lt key l = [] <-> l = [].
Proof.
  split; intros E.
  - pose proof (sorted_perm lt key l) as HP. rewrite E in HP.
    now apply Permutation_nil in HP.
  - now subst.
Qed.

Lemma multi_nil_iff (entries : list Entry) :
  multi (group_by_id entries) = [] <-> NoDup (map entry_id entries).
Proof.
  rewrite nodup_ids_iff. split.
  - intros E k.
    destruct (le_lt_dec (List.length (members k entries)) 1) as [H|H]; auto.
    exfalso.
    assert (In (k, members k (sorted str_lt entry_path entries))
               (group_by_id entries)) as Hg.
    { apply (proj2 (group_by_id_spec entries)). split; auto.
      apply members_nonempty_id. lia. }
    assert (In {| conflict_id := k;
                  paths := map entry_path
                             (members k (sorted str_lt entry_path entries)) |}
               (multi (group_by_id entries))) as Hc.
    { apply in_multi.
      exists k, (members k (sorted str_lt entry_path entries)).
      split; [exact Hg|]. split; auto.
      rewrite (proj1 (group_paths entries _ _ Hg)). lia. }
    rewrite E in Hc. inversion Hc.
  - intros H. destruct (multi (group_by_id entries)) as [|c r] eqn:E; auto.
    exfalso.
    assert (In c (multi (group_by_id entries))) as Hc by (rewrite E; now left).
    apply in_multi in Hc. destruct Hc as [k [items [Hg [Hlen _]]]].
    rewrite (proj1 (group_paths entries _ _ Hg)) in Hlen.
    specialize (H k). lia.
Qed.

Lemma heads_ids_distinct (entries : list Entry) :
  NoDup (map entry_id (heads (group_by_id entries))).
Proof.
  apply heads_ids_nodup.
  - apply group_items_id.
  - apply (proj1 (group_by_id_spec entries)).
Qed.

Lemma heads_of_distinct_ids (entries : list Entry) :
  NoDup (map entry_id entries) ->
  Permutation (heads (group_by_id entries)) entries.
Proof.
  intros Hnd. apply NoDup_Permutation.
  - apply (NoDup_map_inv entry_id), heads_ids_distinct.
  - now apply (NoDup_map_inv entry_id).
  - intros e. split.
    + intros He. apply in_heads in He. destruct He as [k [rest H]].
      now apply group_head_least in H.
    + intros He.
      destruct (lookup_some_of_key (group_by_id entries) (entry_id e))
        as [items E].
      { apply in_map_iff.
        exists (entry_id e,
                members (entry_id e) (sorted str_lt entry_path entries)).
        split; auto. apply (proj2 (group_by_id_spec entries)).
        split; auto. now apply in_map. }
      apply in_of_lookup in E.
      destruct items as [|e' rest]; [now apply groups_nonempty in E|].
      destruct (group_head_least _ _ _ _ E) as [He' [Hid _]].
      assert (e' = e) as <-
          by (apply (NoDup_map_inj entry_id entries); auto).
      apply in_heads. eauto.
Qed.

(** X16.  The resolver reports no conflict exactly when the ids of its
    input are pairwise distinct, and then nothing is dropped: the kept
    list is the input, reordered. *)
Theorem no_conflict_iff_distinct_ids (entries : list Entry) :
  exists kept conflicts,
    resolve_conflicts entries = Done (kept, conflicts) /\
    (conflicts = [] <-> NoDup (map entry_id entries)) /\
    (NoDup (map entry_id entries) -> Permutation kept entries).
Proof.
  rewrite resolve_conflicts_eq. eexists _, _. split; [reflexivity|]. split.
  - rewrite sorted_nil_iff. apply multi_nil_iff.
  - intros Hnd. rewrite sorted_perm. now apply heads_of_distinct_ids.
Qed.

Lemma multi_ids_nodup (d : list (string * list Entry)) :
  NoDup (keys d) -> NoDup (map conflict_id (multi d)).
Proof.
  unfold keys, multi. induction d as [|[k items] d IH]; intros Hnd.
  - constructor.
  - inversion Hnd as [|? ? Hk Hd]; subst. cbn [flat_map fst snd].
    destruct (1 <? List.length items)%nat; cbn [app map conflict_id]; auto.
    constructor; auto.
    intros Hin. apply Hk. apply in_map_iff in Hin.
    destruct Hin as [c [E Hc]]. apply in_flat_map in Hc.
    destruct Hc as [[k' it] [Hg Hc]]. cbn [fst snd] in Hc.
    destruct (1 <? List.length it)%nat; [|inversion Hc].
    destruct Hc as [<-|[]]. cbn in E. subst k'.
    apply in_map_iff. now exists (k, it).
Qed.

(** X17.  The resolver loses no input silently: an input entry is either
    kept, or its path is listed in the conflict record of its id; and an
    id has at most one conflict record. *)
Theorem resolver_accounts_for_every_entry (entries : list Entry) :
  exists kept conflicts,
    resolve_conflicts entries = Done (kept, conflicts) /\
    NoDup (map conflict_id conflicts) /\
    forall e, In e entries ->
              In e kept \/
              exists c, In c conflicts /\ conflict_id c = entry_id e /\
                        In (entry_path e) (paths c).
Proof.
  rewrite resolve_conflicts_eq. eexists _, _. split; [reflexivity|].
  split.
  { eapply Permutation_NoDup.
    - apply Permutation_map, Permutation_sym, sorted_perm.
    - apply multi_ids_nodup, (proj1 (group_by_id_spec entries)). }
  intros e He.
  set (S := sorted str_lt entry_path entries).
  assert (In (entry_id e, members (entry_id e) S) (group_by_id entries))
    as Hg.
  { apply (proj2 (group_by_id_spec entries)). split; auto. now apply in_map. }
  assert (In e (members (entry_id e) S)) as Hin.
  { apply in_members. split; auto. now apply in_sorted. }
  destruct (members (entry_id e) S) as [|first rest] eqn:E; [inversion Hin|].
  destruct rest as [|second rest].
  - left. destruct Hin as [<-|[]]. apply in_sorted, in_heads. eauto.
  - right.
    exists {| conflict_id := entry_id e;
              paths := map entry_path (first :: second :: rest) |}.
    split; [|split; [reflexivity|]].
    + apply in_sorted, in_multi.
      exists (entry_id e), (first :: second :: rest).
      split; [exact Hg|]. split; [cbn; lia|reflexivity].
    + cbn [paths]. now apply in_map.
Qed.

(** X18.  Resolving is idempotent: the kept list of a resolution, resolved
    again, comes back unchanged and without conflicts. *)
Theorem resolve_conflicts_idempotent (entries kept : list Entry)
    (conflicts : list Conflict) :
  resolve_conflicts entries = Done (kept, conflicts) ->
  resolve_conflicts kept = Done (kept, []).
Proof.
  rewrite resolve_conflicts_eq. intros E. injection E as Hk Hc. clear Hc.
  set (keyf := fun e : Entry => (entry_id e, entry_path e)) in *.
  assert (Hids : NoDup (map entry_id kept)).
  { rewrite <- Hk. eapply Permutation_NoDup.
    - apply Permutation_map, Permutation_sym, sorted_perm.
    - apply heads_ids_distinct. }
  assert (Hsorted : StronglySorted (key_le pair_lt keyf) kept).
  { rewrite <- Hk. apply sorted_ordered.
    - apply pair_lt_asym.
    - apply pair_lt_le_trans. }
  rewrite resolve_conflicts_eq. fold keyf.
  rewrite (proj2 (multi_nil_iff kept) Hids). cbn [sorted].
  f_equal. f_equal.
  assert (HP : Permutation (sorted pair_lt keyf (heads (group_by_id kept)))
                           kept).
  { rewrite sorted_perm. now apply heads_of_distinct_ids. }
  apply (ordered_unique pair_lt keyf); auto.
  - apply sorted_ordered; [apply pair_lt_asym | apply pair_lt_le_trans].
  - intros x y Hx Hy Hxy Hyx.
    apply (Permutation_in _ HP) in Hx. apply (Permutation_in _ HP) in Hy.
    apply (NoDup_map_inj entry_id kept); auto.
    pose proof (pair_lt_connected (keyf x) (keyf y) Hyx Hxy) as Hkey.
    unfold keyf in Hkey. now inversion Hkey.
Qed.

Lemma resolve_conflicts_idempotent_witness :
  resolve_conflicts [sample_entry "twin" "/a/alpha"]
  = Done ([sample_entry "twin" "/a/alpha"], []).
Proof.
  apply (resolve_conflicts_idempotent
           [sample_entry "twin" "/a/zeta"; sample_entry "twin" "/a/alpha"]
           _ [{| conflict_id := "twin"; paths := ["/a/alpha"; "/a/zeta"] |}]).
  reflexivity.
Defined.

(* ================================================================= *)
(** ** The manifest a run writes *)

(** X19.  The manifest of a completed run has [version] "1.0", the scanned
    root and the clock reading, and its [projects] are entries the scan
    found, one per id, in ascending order of id. *)
Theorem manifest_projects_are_an_index (env : Env) (dumps : json -> string)
    (generated_at root : string) (tree : Node) (strict : bool)
    (c : Completed) :
  main env dumps generated_at root tree strict = Done c ->
  exists es ws kept,
    scan_projects env root tree strict = Done (es, ws) /\
    manifest_member "version" (manifest c) = Some (JStr "1.0") /\
    manifest_member "root" (manifest c) = Some (JStr root) /\
    manifest_member "generated_at" (manifest c) = Some (JStr generated_at) /\
    manifest_member "projects" (manifest c)
    = Some (JArr (map entry_to_json kept)) /\
    incl kept es /\
    NoDup (map entry_id kept) /\
    StronglySorted (fun a b => str_lt (entry_id a) (entry_id b) = true) kept.
Proof.
  unfold main. intros H.
  destruct (scan_projects env root tree strict) as [[es ws]| | |];
    try discriminate.
  cbn [bind fst snd] in H. rewrite resolve_conflicts_eq in H.
  cbn [bind fst snd] in H. injection H as <-.
  set (keyf := fun e : Entry => (entry_id e, entry_path e)).
  set (kept := sorted pair_lt keyf (heads (group_by_id es))).
  assert (Hids : NoDup (map entry_id kept)).
  { eapply Permutation_NoDup.
    - apply Permutation_map, Permutation_sym, sorted_perm.
    - apply heads_ids_distinct. }
  exists es, ws, kept. split; [reflexivity|].
  cbn [manifest manifest_member manifest_dict].
  repeat (split; [reflexivity|]). split; [|split; auto].
  - intros e He. apply in_sorted, in_heads in He.
    destruct He as [k [rest He]]. now apply group_head_least in He.
  - assert (Hs : StronglySorted (key_le pair_lt keyf) kept).
    { apply sorted_ordered; [apply pair_lt_asym | apply pair_lt_le_trans]. }
    clearbody kept. clear -Hs Hids.
    induction Hs as [|x l Hs IH Hx]; constructor.
    + apply IH. now inversion Hids.
    + inversion Hids as [|? ? Hn _]; subst.
      rewrite Forall_forall in *. intros y Hy.
      specialize (Hx y Hy). apply (entry_le_iff x y) in Hx.
      destruct Hx as [Hx|[Hx _]]; auto.
      exfalso. apply Hn. rewrite Hx. now apply in_map.
Qed.

Lemma manifest_projects_are_an_index_witness :
  exists es ws kept,
    scan_projects manual_env "/a" (Dir [twin_zeta; twin_alpha]) false
    = Done (es, ws) /\
    incl kept es /\ NoDup (map entry_id kept).
Proof.
  destruct (manifest_projects_are_an_index manual_env (fun _ => "{}")
              "2026-01-01T00:00:00+00:00" "/a" (Dir [twin_zeta; twin_alpha])
              false _ eq_refl)
    as [es [ws [kept [H1 [_ [_ [_ [_ [H3 [H4 _]]]]]]]]]].
  exists es, ws, kept. repeat split; auto.
Defined.

(** X20.  The [conflicts] key of the manifest and the summary line on the
    diagnostic stream go together, and both appear exactly when two scanned
    entries share an id; the other lines are the warnings, one each, in
    scan order, before the summary. *)
Theorem conflicts_key_iff_duplicate_ids (env : Env) (dumps : json -> string)
    (generated_at root : string) (tree : Node) (strict : bool)
    (c : Completed) :
  main env dumps generated_at root tree strict = Done c ->
  exists es ws,
    scan_projects env root tree strict = Done (es, ws) /\
    (manifest_member "conflicts" (manifest c) = None <->
     NoDup (map entry_id es)) /\
    (manifest_member "conflicts" (manifest c) = None ->
     stderr c = map warning_line ws) /\
    (manifest_member "conflicts" (manifest c) <> None ->
     stderr c = map warning_line ws ++ [CONFLICT_SUMMARY]).
Proof.
  unfold main. intros H.
  destruct (scan_projects env root tree strict) as [[es ws]| | |];
    try discriminate.
  cbn [bind fst snd] in H. rewrite resolve_conflicts_eq in H.
  cbn [bind fst snd] in H. injection H as <-.
  exists es, ws. split; [reflexivity|].
  cbn [manifest stderr manifest_member manifest_dict].
  pose proof (multi_nil_iff es) as Hm.
  rewrite <- (sorted_nil_iff str_lt conflict_id) in Hm.
  destruct (sorted str_lt conflict_id (multi (group_by_id es))) as [|x l].
  - cbn. rewrite app_nil_r. split; [|split]; auto.
    + split; auto. intros _. now apply Hm.
    + intros Hn. now contradiction Hn.
  - cbn. split; [|split]; try discriminate; auto.
    split; [discriminate|]. intros Hn. apply Hm in Hn. discriminate.
Qed.

Lemma conflicts_key_iff_duplicate_ids_witness :
  exists es ws,
    scan_projects manual_env "/a" (Dir [twin_zeta; twin_alpha]) false
    = Done (es, ws) /\
    ~ NoDup (map entry_id es).
Proof.
  destruct (conflicts_key_iff_duplicate_ids manual_env (fun _ => "{}")
              "2026-01-01T00:00:00+00:00" "/a" (Dir [twin_zeta; twin_alpha])
              false _ eq_refl)
    as [es [ws [H1 [H2 _]]]].
  exists es, ws. split; auto.
  intros Hn. apply H2 in Hn. discriminate Hn.
Defined.

(* ================================================================= *)
(** ** Strict mode and the diagnostic stream *)

(** X21.  Strict mode aborts on the first problem the lenient scan would
    have warned about: if the scan without strict mode completes with a
    first warning [w], the strict scan raises [SystemExit] with the message
    of [w], and the strict run ends with status 1 before the writer is
    reached. *)
Theorem strict_aborts_on_first_warning (env : Env) (dumps : json -> string)
    (generated_at root : string) (tree : Node)
    (es : list Entry) (w : WarningItem) (ws : list WarningItem) :
  scan_projects env root tree false = Done (es, w :: ws) ->
  scan_projects env root tree true = SystemExit (message w) /\
  main env dumps generated_at root tree true = SystemExit (message w) /\
  exit_code (main env dumps generated_at root tree true) = Some 1%Z /\
  written (main env dumps generated_at root tree true) = None.
Proof.
  unfold main, scan_projects. intros H.
  pose proof (scan_node_strict_counterpart env tree root ([], [])) as Hc.
  rewrite H in Hc. cbn [strict_counterpart snd app] in Hc.
  destruct Hc as [[Hn _]|[w' [rest [Hw Hs]]]]; [discriminate|].
  injection Hw as <- _. rewrite Hs. repeat split.
Qed.

Lemma strict_aborts_on_first_warning_witness :
  scan_projects manual_env "/root"
    (Dir [("broken",
           Dir [(".git", Dir []);
                ("project.metadata.json", File (LoadFails "no JSON") 0)])])
    true
  = SystemExit "invalid json: no JSON".
Proof.
  apply (strict_aborts_on_first_warning manual_env (fun _ => "{}") "now"
           "/root"
           (Dir [("broken",
                  Dir [(".git", Dir []);
                       ("project.metadata.json",
                        File (LoadFails "no JSON") 0)])])
           []
           {| warning_path := "/root/broken/project.metadata.json";
              message := "invalid json: no JSON" |} []).
  reflexivity.
Defined.

(** X22.  Listing the directories of a well-formed tree in another order
    changes the diagnostic stream only in the order of its warning lines:
    the two scans return the same warnings up to order, each run prints one
    line per warning, and the duplicate-id summary, if any, is the same and
    stays last. *)
Theorem diagnostics_permuted_by_relisting (env : Env)
    (dumps : json -> string) (generated_at root : string) (strict : bool)
    (t1 t2 : Node) (c1 c2 : Completed) :
  wf_tree t1 = true ->
  tree_perm t1 t2 ->
  main env dumps generated_at root t1 strict = Done c1 ->
  main env dumps generated_at root t2 strict = Done c2 ->
  exists es1 ws1 es2 ws2 summary,
    scan_projects env root t1 strict = Done (es1, ws1) /\
    scan_projects env root t2 strict = Done (es2, ws2) /\
    Permutation es1 es2 /\ Permutation ws1 ws2 /\
    stderr c1 = map warning_line ws1 ++ summary /\
    stderr c2 = map warning_line ws2 ++ summary /\
    (summary = [] \/ summary = [CONFLICT_SUMMARY]).
Proof.
  intros Hwf HP.
  destruct (tree_perm_found env strict t1 t2 HP) as [_ H].
  destruct (H Hwf) as [_ Hfound]. specialize (Hfound root).
  pose proof (scan_node_found env strict t1 Hwf root) as Hpaths.
  unfold main, scan_projects. fold empty_state.
  destruct (scan_node env strict root t1 empty_state) as [[es1 ws1]| | |];
    try discriminate.
  destruct (scan_node env strict root t2 empty_state) as [[es2 ws2]| | |];
    try discriminate.
  cbn in Hfound. destruct Hfound as [Hes Hws].
  destruct (Hpaths es1 ws1 eq_refl) as [Hnd _].
  cbn [bind fst snd].
  rewrite <- (resolve_conflicts_perm es1 es2 Hes Hnd).
  rewrite resolve_conflicts_eq. cbn [bind fst snd].
  intros E1 E2. injection E1 as <-. injection E2 as <-. cbn [stderr].
  exists es1, ws1, es2, ws2. eexists.
  repeat (split; [reflexivity || assumption|]).
  destruct (sorted str_lt conflict_id (multi (group_by_id es1))); auto.
Qed.

Lemma diagnostics_permuted_by_relisting_witness :
  exists es1 ws1 es2 ws2 summary,
    scan_projects manual_env "/a" (Dir [twin_zeta; twin_alpha]) false
    = Done (es1, ws1) /\
    scan_projects manual_env "/a" (Dir [twin_alpha; twin_zeta]) false
    = Done (es2, ws2) /\
    Permutation es1 es2 /\ Permutation ws1 ws2 /\
    [CONFLICT_SUMMARY] = map warning_line ws1 ++ summary /\
    [CONFLICT_SUMMARY] = map warning_line ws2 ++ summary /\
    (summary = [] \/ summary = [CONFLICT_SUMMARY]).
Proof.
  apply (diagnostics_permuted_by_relisting manual_env (fun _ => "{}")
           "2026-01-01T00:00:00+00:00" "/a" false
           (Dir [twin_zeta; twin_alpha]) (Dir [twin_alpha; twin_zeta])
           {| manifest := manifest_dict "/a" "2026-01-01T00:00:00+00:00"
                            [sample_entry "twin" "/a/alpha"]
                            [{| conflict_id := "twin";
                                paths := ["/a/alpha"; "/a/zeta"] |}];
              manifest_text := "{}" +++ line_feed;
              stderr := [CONFLICT_SUMMARY] |}
           {| manifest := manifest_dict "/a" "2026-01-01T00:00:00+00:00"
                            [sample_entry "twin" "/a/alpha"]
                            [{| conflict_id := "twin";
                                paths := ["/a/alpha"; "/a/zeta"] |}];
              manifest_text := "{}" +++ line_feed;
              stderr := [CONFLICT_SUMMARY] |}).
  - reflexivity.
  - constructor. apply children_perm_swap.
  - reflexivity.
  - reflexivity.
Defined.
